(** * Gillespie simulation of AMPA-receptor dynamics: a shallow embedding

    The development follows [sanityCheckShortTerm.py]: the combinatorial
    factor [calculate_hi], the propensity computation and the event
    scheduler [next_values], the simulation loop of [gillespie_algo] with the
    caller's [init] array held in a store, the module-level driver, and the
    reaction-string parser [reactions_stoch].

    Conventions of the embedding.
    - Python exceptions are values of [exn]; a computation is a [result].
      numpy warnings are not exceptions and leave no trace.
    - Molecule counts are mathematical integers ([Z]): the element type of
      [init] is the caller's choice.  The arrays built by [reactions_stoch]
      are 64-bit and refuse a value out of range with [OverflowError]; that
      check is kept.  Memory is unbounded.
    - Floating-point numbers are exact rationals ([Q]) extended with the IEEE
      special values that numpy produces instead of raising ([xnum]):
      dividing by zero gives an infinity.  Rounding is not modelled.
    - [np.log] is a parameter [ln] of the sections that use it.
    - The random draws of a run are given as functions of their position.
    - Printing is left out, and so are the two statistics that
      [gillespie_algo] returns besides the trajectory (they need square
      roots); the exceptions their computation raises are kept. *)

From Stdlib Require Import ZArith QArith Lia Lqa Ascii String List Factorial.
From stdpp Require Import base tactics option list numbers gmap.

Local Open Scope Z_scope.

(** * The program *)

(** ** Exceptions and results *)

Inductive exn : Set :=
  | IndexError
  | ValueError
  | OverflowError
  | ZeroDivisionError.

Inductive result (A : Type) : Type :=
  | Ok (a : A)
  | Raise (e : exn)
  | OutOfFuel.
Arguments Ok {A} a.
Arguments Raise {A} e.
Arguments OutOfFuel {A}.

#[global] Instance result_ret : MRet result := fun A a => Ok a.
#[global] Instance result_bind : MBind result := fun A B k r =>
  match r with
  | Ok a => k a
  | Raise e => Raise e
  | OutOfFuel => OutOfFuel
  end.

(** [l[i]] for a non-negative index. *)
Definition index {A} (l : list A) (i : nat) : result A :=
  match l !! i with
  | Some x => Ok x
  | None => Raise IndexError
  end.

(** [l[i]] for a Python integer: a negative index counts from the end. *)
Definition py_index {A} (l : list A) (i : Z) : result A :=
  let len := Z.of_nat (length l) in
  if 0 <=? i then index l (Z.to_nat i)
  else if - len <=? i then index l (Z.to_nat (len + i))
  else Raise IndexError.

(** ** [calculate_hi] *)

(** [scipy.special.factorial]: 0 on a negative argument. *)
Definition factorial (m : Z) : Z :=
  if m <? 0 then 0 else Z.of_nat (fact (Z.to_nat m)).

(** The [while j>0] loop: [b[j] += b[j-1]] for [j] down to 1. *)
Fixpoint pascal_inner (j : nat) (b : list Z) : list Z :=
  match j with
  | O => b
  | S j' => pascal_inner j' (<[j := (b !!! j) + (b !!! j')]> b)
  end.

(** One turn of [for i in range(1,n+1)]. *)
Definition pascal_step (b : list Z) (i : nat) : list Z :=
  pascal_inner (i - 1) (<[i := 1]> b).

(** [l[i] = v] for a non-negative index. *)
Definition set_item {A} (l : list A) (i : nat) (v : A) : result (list A) :=
  if decide (i < length l)%nat then Ok (<[i := v]> l) else Raise IndexError.

Definition calculate_hi (n m : Z) : result Z :=
  let b := replicate (Z.to_nat (n + 1)) 0 in
  b ← set_item b 0 1;
  let b := foldl pascal_step b (seq 1 (Z.to_nat n)) in
  bm ← py_index b m;
  Ok (bm * factorial m).

(** ** Numbers with the IEEE special values *)

Inductive xnum : Set :=
  | Fin (q : Q)
  | PInf
  | NInf
  | NaN.

Definition Qlt_bool (x y : Q) : bool := negb (Qle_bool y x).

(** The infinity with the sign of [q]; [inf * 0] is not a number. *)
Definition signed_inf (q : Q) : xnum :=
  if Qlt_bool 0 q then PInf else if Qlt_bool q 0 then NInf else NaN.

(** [x / y] of two finite numpy numbers: numpy warns on a zero divisor and
    returns an infinity (or NaN for [0/0]).  In [gillespie_algo] both
    divisors, [a0] and [r1], are numpy values. *)
Definition qdiv (x y : Q) : xnum :=
  if Qeq_bool y 0 then signed_inf x else Fin (x / y)%Q.

Definition xmul (x y : xnum) : xnum :=
  match x, y with
  | NaN, _ | _, NaN => NaN
  | Fin p, Fin q => Fin (p * q)%Q
  | Fin p, PInf | PInf, Fin p => signed_inf p
  | Fin p, NInf | NInf, Fin p => signed_inf (- p)%Q
  | PInf, PInf | NInf, NInf => PInf
  | PInf, NInf | NInf, PInf => NInf
  end.

Definition xadd (x y : xnum) : xnum :=
  match x, y with
  | NaN, _ | _, NaN => NaN
  | Fin p, Fin q => Fin (p + q)%Q
  | PInf, NInf | NInf, PInf => NaN
  | PInf, _ | _, PInf => PInf
  | NInf, _ | _, NInf => NInf
  end.

(** [x < y]; false as soon as one side is NaN. *)
Definition xlt (x y : xnum) : bool :=
  match x, y with
  | NaN, _ | _, NaN => false
  | Fin p, Fin q => Qlt_bool p q
  | _, NInf | PInf, _ => false
  | NInf, _ | _, PInf => true
  end.

(** Python's [sum]: starts from 0 and adds from the left. *)
Definition sum (a : list Q) : Q := foldl Qplus 0%Q a.

(** ** The event scheduler [next_values] *)

Section Scheduler.
(** [np.log] on the positive finite numbers. *)
Variable ln : Q -> Q.

Definition xlog (x : xnum) : xnum :=
  match x with
  | Fin q =>
      if Qlt_bool 0 q then Fin (ln q)
      else if Qeq_bool q 0 then NInf else NaN
  | PInf => PInf
  | NInf | NaN => NaN
  end.

(** The [while N > 0] scan; [a[mu]] raises past the end of [a], so
    [length a] turns of fuel are never used up. *)
Fixpoint select_reaction (fuel : nat) (a : list Q) (mu : nat) (N : Q)
  : result nat :=
  if Qlt_bool 0 N then
    match fuel with
    | O => OutOfFuel
    | S fuel' =>
        let mu := S mu in
        x ← index a mu;
        select_reaction fuel' a mu (N - x)%Q
    end
  else Ok mu.

Definition next_values (a0 : Q) (a : list Q) (r1 r2 : Q)
  : result (xnum * nat) :=
  let new_time_difference := xmul (qdiv 1 a0) (xlog (qdiv 1 r1)) in
  x ← index a 0;
  mu ← select_reaction (length a) a 0 (r2 * a0 - x)%Q;
  Ok (new_time_difference, mu).
End Scheduler.

(** ** Propensities *)

(** A matrix is the list of its rows. *)
Abbreviation matrix := (list (list Z)).

Definition index2 (m : matrix) (i j : nat) : result Z :=
  row ← index m i;
  index row j.

Fixpoint foldM {A B} (f : B -> A -> result B) (b : B) (l : list A)
  : result B :=
  match l with
  | [] => Ok b
  | x :: l' => b' ← f b x; foldM f b' l'
  end.

(** One turn of [for j in range(number_species)] for reaction [i]. *)
Definition hi_step (sub_stoch : matrix) (current_species : list Z) (i : nat)
    (hi : Z) (j : nat) : result Z :=
  s ← index2 sub_stoch i j;
  if decide (s = 0) then Ok hi
  else
    xj ← index current_species j;
    if decide (xj <= 0) then Ok 0
    else
      h ← calculate_hi xj (Z.abs s);
      Ok (hi * h).

Definition reaction_hi (sub_stoch : matrix) (current_species : list Z)
    (number_species i : nat) : result Z :=
  foldM (hi_step sub_stoch current_species i) 1 (seq 0 number_species).

(** One turn of [for i in range(number_reactions)]: [a[i] = hi*rates[i]]. *)
Definition propensity_step (sub_stoch : matrix) (current_species : list Z)
    (rates : list Q) (number_species : nat) (a : list Q) (i : nat)
  : result (list Q) :=
  hi ← reaction_hi sub_stoch current_species number_species i;
  c ← index rates i;
  set_item a i (inject_Z hi * c)%Q.

Definition propensities (sub_stoch : matrix) (current_species : list Z)
    (rates : list Q) (number_reactions number_species : nat)
  : result (list Q) :=
  foldM (propensity_step sub_stoch current_species rates number_species)
    (replicate number_reactions 1%Q) (seq 0 number_reactions).

(** ** The simulation loop [gillespie_algo] *)

(** The caller's arrays live in a store; [init] is a reference into it, and
    [current_species = init] binds a second name to the same cell. *)
Abbreviation loc := nat (only parsing).
Abbreviation store := (gmap nat (list Z)) (only parsing).

(** [np.shape(m)[1]]; an array without rows is taken to have no columns. *)
Definition ncols (m : matrix) : nat :=
  match m with
  | [] => 0%nat
  | row :: _ => length row
  end.

(** [A + B] on arrays of one shape; broadcasting between different shapes
    is not modelled and reported as the error numpy raises when it fails. *)
Definition mat_add (A B : matrix) : result matrix :=
  if decide (length <$> A = length <$> B)
  then Ok (zip_with (zip_with Z.add) A B)
  else Raise ValueError.

(** [target[n,:] = x] for a row of [N] entries: a one-element [x] is
    broadcast, another length is refused. *)
Definition assign_row (N : nat) (x : list Z) : result (list Z) :=
  if decide (length x = N) then Ok x
  else match x with
       | [v] => Ok (replicate N v)
       | _ => Raise ValueError
       end.

(** [x += row] in place: [row] must have the length of [x], or be a single
    entry that is broadcast. *)
Definition iadd (x row : list Z) : result (list Z) :=
  if decide (length row = length x) then Ok (zip_with Z.add x row)
  else match row with
       | [v] => Ok ((fun xj => xj + v) <$> x)
       | _ => Raise ValueError
       end.

(** [np.random.random_sample(n_max)]: the next [n_max] outputs of the
    generator, given as a function of their position. *)
Definition random_sample (draws : nat -> Q) (n_max : nat) : list Q :=
  draws <$> seq 0 n_max.

Record loop_state : Type := LoopState {
  current_time : xnum;
  n_counter : nat;
  store_time : list xnum;
  store_number_molecules : matrix;
  heap : store;
}.

Section Gillespie.
Variable ln : Q -> Q.

Section Run.
Variables (init : loc) (rates : list Q) (sub_stoch stoch : matrix).
Variables (tmax : Q) (n_max : nat) (r1 r2 : list Q).

Let number_reactions := length stoch.
Let number_species := ncols stoch.

(** One turn of the [while] loop.  With no reaction at all [sum(a)] is
    the integer 0 and [1/a0] raises. *)
Definition loop_body (st : loop_state) : result loop_state :=
  let current_species := heap st !!! init in
  a ← propensities sub_stoch current_species rates
        number_reactions number_species;
  let a0 := sum a in
  u1 ← index r1 (n_counter st);
  u2 ← index r2 (n_counter st);
  '(new_time_difference, next_r) ←
    (if decide (number_reactions = 0)%nat then Raise ZeroDivisionError
     else next_values ln a0 a u1 u2);
  let current_time := xadd (current_time st) new_time_difference in
  row ← index stoch next_r;
  current_species ← iadd current_species row;
  let heap := <[init := current_species]> (heap st) in
  let n_counter := S (n_counter st) in
  store_time ← set_item (store_time st) n_counter current_time;
  snapshot ← assign_row number_species current_species;
  store_number_molecules ←
    set_item (store_number_molecules st) n_counter snapshot;
  Ok (LoopState current_time n_counter store_time
        store_number_molecules heap).

Definition loop_cond (st : loop_state) : bool :=
  xlt (current_time st) (Fin tmax)
  && (Z.of_nat (n_counter st) <? Z.of_nat n_max - 1).

Fixpoint gillespie_loop (fuel : nat) (st : loop_state)
  : result loop_state :=
  if loop_cond st then
    match fuel with
    | O => OutOfFuel
    | S fuel' => st' ← loop_body st; gillespie_loop fuel' st'
    end
  else Ok st.
End Run.

(** Initialisation and loop: the state in which the [while] loop ends. *)
Definition gillespie_run (init : loc) (rates : list Q)
    (sub_stoch prod_stoch : matrix) (tmax : Q) (n_max : nat)
    (draws1 draws2 : nat -> Q) (h : store) : result loop_state :=
  let r1 := random_sample draws1 n_max in
  let r2 := random_sample draws2 n_max in
  stoch ← mat_add sub_stoch prod_stoch;
  let number_species := ncols stoch in
  let current_species := h !!! init in
  store_time ← set_item (replicate n_max (Fin 0)) 0 (Fin 0);
  snapshot ← assign_row number_species current_species;
  store_number_molecules ←
    set_item (replicate n_max (replicate number_species 0)) 0 snapshot;
  gillespie_loop init rates sub_stoch stoch tmax n_max r1 r2 n_max
    (LoopState (Fin 0) 0 store_time store_number_molecules h).

(** The statistics are floating-point and left out; what is kept of them
    is where they raise: the slot counts [s_i] must broadcast against the
    [number_synapses] columns, and [average /= current_time] divides the
    integer 0 by the integer 0 when no reaction fired. *)
Definition gillespie_algo (s_i : list Z) (init : loc) (rates : list Q)
    (sub_stoch prod_stoch : matrix) (tmax : Q) (n_max : nat)
    (draws1 draws2 : nat -> Q) (h : store)
  : result (list xnum * matrix * store) :=
  let number_synapses :=
    Z.to_nat ((Z.of_nat (length (h !!! init)) - 1) ÷ 2) in
  st ← gillespie_run init rates sub_stoch prod_stoch tmax n_max
         draws1 draws2 h;
  let store_time := take (n_counter st) (store_time st) in
  let store_number_molecules :=
    take (n_counter st) (store_number_molecules st) in
  if decide (length s_i = number_synapses \/ length s_i = 1%nat
             \/ number_synapses = 1%nat)
  then
    if decide (n_counter st = 0)%nat then Raise ZeroDivisionError
    else Ok (store_time, store_number_molecules, heap st)
  else Raise ValueError.

(** ** The module-level driver *)

(** [while True: init = deepcopy(init1); if counter_simulation ==
    times_sim_av: break; ...]: every turn allocates a fresh copy of
    [init1]; a run gets that copy. *)
Fixpoint driver (fuel : nat) (times_sim_av counter_simulation : nat)
    (s_i : list Z) (init1 : loc) (rates : list Q)
    (sub_stoch prod_stoch : matrix) (tmax : Q) (n_max : nat)
    (draws : nat -> (nat -> Q) * (nat -> Q))
    (results : list (list xnum * matrix)) (h : store)
  : result (list (list xnum * matrix) * store) :=
  match fuel with
  | O => OutOfFuel
  | S fuel' =>
      let init := fresh (dom h) in
      let h := <[init := h !!! init1]> h in
      if decide (counter_simulation = times_sim_av) then Ok (results, h)
      else
        let counter_simulation := S counter_simulation in
        '(store_time, store_molecules, h) ←
          gillespie_algo s_i init rates sub_stoch prod_stoch tmax n_max
            (draws counter_simulation).1 (draws counter_simulation).2 h;
        driver fuel' times_sim_av counter_simulation s_i init1 rates
          sub_stoch prod_stoch tmax n_max draws
          (results ++ [(store_time, store_molecules)]) h
  end.
End Gillespie.

(** ** The reaction parser [reactions_stoch]

    A Python string is a list of characters; the characters of the model
    are the 8-bit ones, of which only the ASCII digits count as digits. *)

Abbreviation str := (list ascii) (only parsing).

Fixpoint prefix_b (p s : str) : bool :=
  match p, s with
  | [], _ => true
  | a :: p', b :: s' => Ascii.eqb a b && prefix_b p' s'
  | _ :: _, [] => false
  end.

(** [s.split(sep)], scanning from the left: the token being read and the
    tokens after it.  [skip] counts the characters of a separator that are
    still to be passed over. *)
Fixpoint split_go (sep : str) (skip : nat) (s : str) : str * list str :=
  match s with
  | [] => ([], [])
  | c :: s' =>
      match skip with
      | S k => split_go sep k s'
      | O =>
          if prefix_b sep s then
            let '(tok, rest) := split_go sep (length sep - 1) s' in
            ([], tok :: rest)
          else
            let '(tok, rest) := split_go sep 0 s' in
            (c :: tok, rest)
      end
  end.

Definition split (sep : string) (s : str) : list str :=
  let '(tok, rest) := split_go (list_ascii_of_string sep) 0 s in
  tok :: rest.

Definition is_digit (c : ascii) : bool :=
  (48 <=? nat_of_ascii c)%nat && (nat_of_ascii c <=? 57)%nat.

Definition digit_val (c : ascii) : Z := Z.of_nat (nat_of_ascii c) - 48.

(** [s.isdigit()]: at least one character, all of them digits. *)
Definition isdigit (s : str) : bool :=
  match s with
  | [] => false
  | _ => forallb is_digit s
  end.

(** The characters [int] and [strip] treat as blanks. *)
Definition is_space (c : ascii) : bool :=
  let n := nat_of_ascii c in
  ((9 <=? n) && (n <=? 13) || (28 <=? n) && (n <=? 32))%nat.

Fixpoint lstrip (s : str) : str :=
  match s with
  | c :: s' => if is_space c then lstrip s' else s
  | [] => []
  end.

Definition strip (s : str) : str := rev (lstrip (rev (lstrip s))).

(** Digits with single underscores between them; [prev] tells whether the
    previous character was a digit. *)
Fixpoint parse_digits (acc : Z) (prev : bool) (s : str) : option Z :=
  match s with
  | [] => if prev then Some acc else None
  | c :: s' =>
      if is_digit c then parse_digits (10 * acc + digit_val c) true s'
      else if Ascii.eqb c "_" then
        if prev then parse_digits acc false s' else None
      else None
  end.

(** [int(s)] on a string: blanks around, an optional sign, decimal digits. *)
Definition py_int (s : str) : result Z :=
  let '(sign, body) :=
    match strip s with
    | c :: b =>
        if Ascii.eqb c "-" then (-1, b)
        else if Ascii.eqb c "+" then (1, b)
        else (1, c :: b)
    | [] => (1, [])
    end in
  match parse_digits 0 false body with
  | Some v => Ok (sign * v)
  | None => Raise ValueError
  end.

(** The body of [for j in i]: the pair [number of species, name of species]
    of one term, if the term yields one, and the running maximum of the
    species names. *)
Definition parse_term (j : str) (total_number_species : Z)
  : result (option (Z * Z) * Z) :=
  let j := split "X" j in
  let j0 := hd [] j in
  coef ← (if isdigit j0 then py_int j0 else Ok 1);
  match j with
  | [_; j1] =>
      k ← py_int j1;
      Ok (Some (coef, k),
          if total_number_species <? k then k else total_number_species)
  | _ => Ok (None, total_number_species)
  end.

Fixpoint parse_side (i : list str) (one_reaction : list (Z * Z))
    (total_number_species : Z) : result (list (Z * Z) * Z) :=
  match i with
  | [] => Ok (one_reaction, total_number_species)
  | j :: i' =>
      '(number_reaction, total) ← parse_term j total_number_species;
      parse_side i'
        (match number_reaction with
         | Some nr => one_reaction ++ [nr]
         | None => one_reaction
         end) total
  end.

(** A side without any pair is not appended. *)
Fixpoint parse_sides (without_plus : list (list str))
    (number_reaction : list (list (Z * Z))) (total_number_species : Z)
  : result (list (list (Z * Z)) * Z) :=
  match without_plus with
  | [] => Ok (number_reaction, total_number_species)
  | i :: rest =>
      '(one_reaction, total) ← parse_side i [] total_number_species;
      parse_sides rest
        (if decide (1 <= length one_reaction)%nat
         then number_reaction ++ [one_reaction] else number_reaction)
        total
  end.

(** [s_p = i.split("->")], then [s_p[0]] and [s_p[1]]. *)
Fixpoint split_arrows (one_reaction : list str) (substrates products : list str)
  : result (list str * list str) :=
  match one_reaction with
  | [] => Ok (substrates, products)
  | i :: rest =>
      let s_p := split "->" i in
      s0 ← index s_p 0;
      s1 ← index s_p 1;
      split_arrows rest (substrates ++ [s0]) (products ++ [s1])
  end.

Definition int64_min : Z := - 2 ^ 63.
Definition int64_max : Z := 2 ^ 63 - 1.

(** [row[i] = v] on a row of 64-bit integers. *)
Definition np_set (row : list Z) (i v : Z) : result (list Z) :=
  let len := Z.of_nat (length row) in
  if (i <? - len) || (len <=? i) then Raise IndexError
  else if (v <? int64_min) || (int64_max <? v) then Raise OverflowError
  else Ok (<[Z.to_nat (if i <? 0 then len + i else i) := v]> row).

Definition fill_row (f : Z -> Z) (row : list Z) (species : list (Z * Z))
  : result (list Z) :=
  foldM (fun row sp => np_set row (sp.2 - 1) (f sp.1)) row species.

(** [for reaction in range(len(number_reaction)): for species in ...]. *)
Definition fill (f : Z -> Z) (stoch : matrix)
    (number_reaction : list (list (Z * Z))) : result matrix :=
  foldM (fun stoch reaction =>
           species ← index number_reaction reaction;
           row ← index stoch reaction;
           row ← fill_row f row species;
           set_item stoch reaction row)
    stoch (seq 0 (length number_reaction)).

Definition reactions_stoch (reactions : string) : result (matrix * matrix) :=
  let one_reaction := split "," (list_ascii_of_string reactions) in
  '(substrates, products) ← split_arrows one_reaction [] [];
  let sub_without_plus := split "+" <$> substrates in
  let prod_without_plus := split "+" <$> products in
  '(sub_number_reaction, total) ← parse_sides sub_without_plus [] 0;
  '(prod_number_reaction, total_number_species) ←
    parse_sides prod_without_plus [] total;
  let zeros :=
    replicate (length one_reaction)
      (replicate (Z.to_nat total_number_species) 0) in
  sub_stoch ← fill Z.opp zeros sub_number_reaction;
  prod_stoch ← fill id zeros prod_number_reaction;
  Ok (sub_stoch, prod_stoch).

(** * Reference notions used in the statements *)

(** ** Binomial coefficients, partial sums, combinatorial factors *)

(** Reference values: Pascal's rule, and the closed form of the binomial
    coefficient as the specification writes it. *)
Fixpoint binom (n k : nat) : Z :=
  match n, k with
  | _, O => 1
  | O, S _ => 0
  | S n', S k' => binom n' k' + binom n' k
  end.

Definition choose (n m : Z) : Z :=
  factorial n / (factorial m * factorial (n - m)).

(** The sum of [a[0..mu]], the reference for the selection. *)
Definition partial_sum (a : list Q) (mu : nat) : Q := sum (take (S mu) a).

(** The combinatorial factor the code computes for one row, as a product
    over the species with a non-zero substrate coefficient. *)
Definition hi_factor (s xj : Z) : Z :=
  if decide (s = 0) then 1 else choose xj (Z.abs s) * factorial (Z.abs s).

Definition hi_product (sub_row current_species : list Z) : Z :=
  foldl Z.mul 1 (zip_with hi_factor sub_row current_species).

(** The factor the specification asks for: binomial coefficients alone. *)
Definition hi_binomial (sub_row current_species : list Z) : Z :=
  foldl Z.mul 1
    (zip_with (fun s xj => if decide (s = 0) then 1 else choose xj (Z.abs s))
       sub_row current_species).

(** ** Reference notions for the trajectory *)

(** Successive state vectors: each one is the previous one plus a row of
    the combined stoichiometry. *)
Definition is_trajectory (stoch : matrix) (xs : list (list Z)) : Prop :=
  forall i x x', xs !! i = Some x -> xs !! S i = Some x' ->
    exists mu row, stoch !! mu = Some row /\ iadd x row = Ok x'.

(** What the loop maintains: [xs] lists the state vectors visited so far,
    their snapshots fill the first [n_counter + 1] rows of the storage, and
    the cell of [init] holds the last of them. *)
Definition trace_inv (init : loc) (stoch : matrix) (n_max : nat) (h : store)
    (st : loop_state) (xs : list (list Z)) : Prop :=
  length (store_time st) = n_max /\
  length (store_number_molecules st) = n_max /\
  (n_counter st < n_max)%nat /\
  length xs = S (n_counter st) /\
  xs !! 0%nat = Some (h !!! init) /\
  is_trajectory stoch xs /\
  (forall i x, xs !! i = Some x ->
     exists snap, assign_row (ncols stoch) x = Ok snap /\
                  store_number_molecules st !! i = Some snap) /\
  store_time st !! 0%nat = Some (Fin 0) /\
  xs !! n_counter st = Some (heap st !!! init) /\
  heap st = (if decide (n_counter st = 0%nat) then h
             else <[init := heap st !!! init]> h).

(** ** Valid inputs of a run *)

Definition mat_shape (M N : nat) (m : matrix) : Prop :=
  length m = M /\ Forall (fun row => length row = N) m.

(** Matrices of a network of [M >= 1] reactions over [N] species:
    substrate coefficients are stored negated, product coefficients as
    they are. *)
Definition valid_network (M N : nat) (sub_stoch prod_stoch : matrix) : Prop :=
  (1 <= M)%nat /\
  mat_shape M N sub_stoch /\ mat_shape M N prod_stoch /\
  Forall (Forall (fun s => s <= 0)) sub_stoch /\
  Forall (Forall (fun p => 0 <= p)) prod_stoch.

Definition nonneg_rates (rates : list Q) : Prop :=
  Forall (fun c => (0 <= c)%Q) rates.

(** Every draw of the array lies in the open interval (0,1). *)
Definition unit_draws (draws : nat -> Q) (n_max : nat) : Prop :=
  forall i, (i < n_max)%nat -> (0 < draws i)%Q /\ (draws i < 1)%Q.

(** What is used of the logarithm: it is positive above 1. *)
Definition log_like (ln : Q -> Q) : Prop :=
  forall x, (1 < x)%Q -> (0 < ln x)%Q.

(** The loop invariant behind the non-negativity of the returned
    snapshots: rows below [n_counter] are non-negative, and either the
    current state is non-negative and stored in row [n_counter], or the
    clock has reached infinity. *)
Definition safe_inv (init : loc) (N n_max : nat) (st : loop_state) : Prop :=
  length (store_number_molecules st) = n_max /\
  (n_counter st < n_max)%nat /\
  (forall i snap, (i < n_counter st)%nat ->
     store_number_molecules st !! i = Some snap -> Forall (fun v => 0 <= v) snap) /\
  (((exists t, current_time st = Fin t) /\
    Forall (fun v => 0 <= v) (heap st !!! init) /\
    length (heap st !!! init) = N /\
    store_number_molecules st !! n_counter st = Some (heap st !!! init))
   \/ current_time st = PInf).

(** ** The grammar of reaction strings

    A term is an optional coefficient and the letter X followed by a
    species number, both in decimal digits; a side is a sum of terms, a
    reaction two sides around an arrow, a network a list of reactions. *)

Record term : Set := Term { coef_txt : str; species_txt : str }.

Definition digits_value (s : str) : Z :=
  foldl (fun acc c => 10 * acc + digit_val c) 0 s.

Definition term_coef (t : term) : Z :=
  match coef_txt t with
  | [] => 1
  | d => digits_value d
  end.

Definition term_species (t : term) : Z := digits_value (species_txt t).

(** Both numbers of a term are written in digits without a leading zero
    and fit 64 bits; the coefficient may be left out, the species may not. *)
Definition wf_term (t : term) : Prop :=
  forallb is_digit (coef_txt t) = true /\
  head (coef_txt t) <> Some "0"%char /\
  0 < term_coef t <= int64_max /\
  species_txt t <> [] /\
  forallb is_digit (species_txt t) = true /\
  head (species_txt t) <> Some "0"%char /\
  0 < term_species t <= int64_max.

Definition render_term (t : term) : str :=
  coef_txt t ++ "X"%char :: species_txt t.

Fixpoint join (sep : str) (l : list str) : str :=
  match l with
  | [] => []
  | [x] => x
  | x :: l' => x ++ sep ++ join sep l'
  end.

Definition render_side (s : list term) : str :=
  join ["+"%char] (render_term <$> s).

Definition render_reaction (r : list term * list term) : str :=
  render_side r.1 ++ "-"%char :: ">"%char :: render_side r.2.

Definition render_network (net : list (list term * list term)) : string :=
  string_of_list_ascii (join [","%char] (render_reaction <$> net)).

(** Every side has a term, and no side names a species twice. *)
Definition wf_side (s : list term) : Prop :=
  s <> [] /\ Forall wf_term s /\ NoDup (term_species <$> s).

Definition wf_network (net : list (list term * list term)) : Prop :=
  net <> [] /\ Forall (fun r => wf_side r.1 /\ wf_side r.2) net.

(** The number of molecules of species [k] on a side. *)
Definition count (s : list term) (k : Z) : Z :=
  foldr (fun t acc => (if decide (term_species t = k) then term_coef t else 0) + acc)
    0 s.

Definition max_species (sides : list (list term)) (start : Z) : Z :=
  foldl (fun m s => foldl (fun m t => Z.max m (term_species t)) m s) start sides.

Definition number_of_species (net : list (list term * list term)) : nat :=
  Z.to_nat (max_species (snd <$> net) (max_species (fst <$> net) 0)).

(** Row [r] of the matrix a network stands for: the entry of species
    [s + 1] is [f] of its count on the side. *)
Definition side_row (f : Z -> Z) (N : nat) (s : list term) : list Z :=
  (fun i => f (count s (Z.of_nat i + 1))) <$> seq 0 N.

Definition stoch_rows (f : Z -> Z) (N : nat) (sides : list (list term))
  : matrix :=
  side_row f N <$> sides.

(** The pairs [number of species, name of species] of a side. *)
Definition entries_of (s : list term) : list (Z * Z) :=
  (fun t => (term_coef t, term_species t)) <$> s.

(** The exceptions the parser can raise. *)
Definition parse_error (e : exn) : Prop :=
  e = IndexError \/ e = ValueError \/ e = OverflowError.

Definition raises_only {A} (P : exn -> Prop) (r : result A) : Prop :=
  forall e, r = Raise e -> P e.

(** A computation that does not stop for lack of fuel. *)
Definition terminates {A} (r : result A) : Prop := r <> OutOfFuel.

(** * Sample inputs

    The network [X1->X2] with rate 1, started with three molecules of [X1]
    in the cell 0 of the store, every random draw being 1/2. *)
Definition half_draws : nat -> Q := fun _ => (1 # 2)%Q.
Definition sample_sub : matrix := [[-1; 0]].
Definition sample_prod : matrix := [[0; 1]].
Definition sample_store (x : list Z) : store := {[ 0%nat := x ]}.

(** A rational stand-in for [np.log], used to run the model on concrete
    inputs: [1 - 1/x] has the sign of the logarithm of [x]. *)
Definition ln_lower (x : Q) : Q := (1 - 1 / x)%Q.

(** The loop state on entry of a run of at most three events started
    from [x]. *)
Definition sample_entry (x : list Z) : loop_state :=
  LoopState (Fin 0) 0 [Fin 0; Fin 0; Fin 0] [x; [0; 0]; [0; 0]]
    (sample_store x).

(** A sample network: [2X1+X2->X3,X3->12X1]. *)
Definition mk_term (c k : string) : term :=
  Term (list_ascii_of_string c) (list_ascii_of_string k).

Definition sample_net : list (list term * list term) :=
  [([mk_term "2" "1"; mk_term EmptyString "2"], [mk_term EmptyString "3"]);
   ([mk_term EmptyString "3"], [mk_term "12" "1"])].

(** * Further reference notions *)

(** ** Propensities *)

(** The factor one species contributes to [hi]: 1 when it is not a
    substrate, 0 when none of it is left, the number of ordered selections
    otherwise. *)
Definition species_factor (s xj : Z) : Z :=
  if decide (s = 0) then 1
  else if decide (xj <= 0) then 0
  else choose xj (Z.abs s) * factorial (Z.abs s).

Definition hi_value (sub_row current_species : list Z) : Z :=
  foldl Z.mul 1 (zip_with species_factor sub_row current_species).

(** A substrate of which some, but not enough, is left. *)
Definition short_of (s xj : Z) : Prop := s <> 0 /\ 0 < xj < Z.abs s.

Definition short_somewhere (sub_stoch : matrix) (current_species : list Z)
  : Prop :=
  exists i row j s xj,
    sub_stoch !! i = Some row /\ row !! j = Some s /\
    current_species !! j = Some xj /\ short_of s xj.

(** The law of mass action for coefficients 0 and -1: the product of the
    counts of the substrates. *)
Definition mass_action (sub_row current_species : list Z) : Z :=
  foldl Z.mul 1
    (zip_with (fun s xj => if decide (s = 0) then 1 else xj)
       sub_row current_species).

(** Every substrate coefficient is 0 or -1, as in the network of the
    module. *)
Definition unit_coefficients (sub_stoch : matrix) : Prop :=
  Forall (Forall (fun s => s = 0 \/ s = -1)) sub_stoch.

(** ** The network and the initial state of the module

    The reaction string passed to [reactions_stoch], the matrices it
    yields, and the initial counts for [s_i = [40, 60, 80]], [F = 0.5]:
    [w_i = e_i = [20, 30, 40]] and [p = 240].  The rates are
    [alpha = beta / 240.3] three times and [beta = 60/43] three times. *)
Definition module_network : string :=
  "X7+X4->X1,X7+X5->X2,X7+X6->X3,X1->X7+X4,X2->X7+X5,X3->X7+X6".

Definition module_sub : matrix :=
  [[0; 0; 0; -1; 0; 0; -1]; [0; 0; 0; 0; -1; 0; -1]; [0; 0; 0; 0; 0; -1; -1];
   [-1; 0; 0; 0; 0; 0; 0]; [0; -1; 0; 0; 0; 0; 0]; [0; 0; -1; 0; 0; 0; 0]].

Definition module_prod : matrix :=
  [[1; 0; 0; 0; 0; 0; 0]; [0; 1; 0; 0; 0; 0; 0]; [0; 0; 1; 0; 0; 0; 0];
   [0; 0; 0; 1; 0; 0; 1]; [0; 0; 0; 0; 1; 0; 1]; [0; 0; 0; 0; 0; 1; 1]].

Definition module_init : list Z := [20; 30; 40; 20; 30; 40; 240].

Definition module_rates : list Q :=
  let beta := (60 # 43)%Q in
  let alpha := (beta / (2403 # 10))%Q in
  [alpha; alpha; alpha; beta; beta; beta].

(** ** The clock of a run *)

Definition increasing (ts : list Q) : Prop :=
  forall i t t', ts !! i = Some t -> ts !! S i = Some t' -> (t < t')%Q.

(** The stored times below [n_counter] are finite and increase; the
    current time is stored in row [n_counter] and exceeds them all, unless
    it is infinite. *)
Definition clock_inv (n_max : nat) (st : loop_state) : Prop :=
  length (store_time st) = n_max /\
  (n_counter st < n_max)%nat /\
  exists ts,
    length ts = n_counter st /\
    take (n_counter st) (store_time st) = Fin <$> ts /\
    increasing ts /\
    ((exists t, current_time st = Fin t /\
                store_time st !! n_counter st = Some (Fin t) /\
                Forall (fun t' => (t' < t)%Q) ts)
     \/ current_time st = PInf).

(** ** Linear invariants *)

(** The weighted count [sum_j w[j] * x[j]]. *)
Definition dot (w x : list Z) : Z := foldr Z.add 0 (zip_with Z.mul w x).

(** Every reaction produces as much weight as it consumes (substrate rows
    are stored negated). *)
Definition conserves (w : list Z) (sub_stoch prod_stoch : matrix) : Prop :=
  forall i s p, sub_stoch !! i = Some s -> prod_stoch !! i = Some p ->
    dot w s + dot w p = 0.

(** ** Inputs on which a call returns *)

(** [int((len(init)-1)/2)] and the shapes of [s_i] that broadcast against
    an array of that many columns. *)
Definition number_synapses (x : list Z) : nat :=
  Z.to_nat ((Z.of_nat (length x) - 1) ÷ 2).

Definition broadcasts (s_i x : list Z) : Prop :=
  length s_i = number_synapses x \/ length s_i = 1%nat
  \/ number_synapses x = 1%nat.

(** ** Results of the driver *)

(** [r] is what a call returns when the array it is given holds [x0] and
    its two draw arrays are [d]. *)
Definition run_from (ln : Q -> Q) (s_i : list Z) (rates : list Q)
    (sub_stoch prod_stoch : matrix) (tmax : Q) (n_max : nat) (x0 : list Z)
    (d : (nat -> Q) * (nat -> Q)) (r : list xnum * matrix) : Prop :=
  exists (init : loc) (h h' : store),
    h !!! init = x0 /\
    gillespie_algo ln s_i init rates sub_stoch prod_stoch tmax n_max
      d.1 d.2 h = Ok (r.1, r.2, h').

(** ** Reaction strings with empty sides and repeated species

    The docstring of [reactions_stoch] writes a side without molecules as
    [0], as in [X1->0]. *)

Definition render_side0 (s : list term) : str :=
  match s with
  | [] => ["0"%char]
  | _ => render_side s
  end.

Definition render_reaction0 (r : list term * list term) : str :=
  render_side0 r.1 ++ "-"%char :: ">"%char :: render_side0 r.2.

Definition render_network0 (net : list (list term * list term)) : string :=
  string_of_list_ascii (join [","%char] (render_reaction0 <$> net)).

(** Sides may be empty and may name a species more than once. *)
Definition wf_network0 (net : list (list term * list term)) : Prop :=
  net <> [] /\ Forall (fun r => Forall wf_term r.1 /\ Forall wf_term r.2) net.

(** The coefficient of the last term of a side that names species [k]. *)
Definition last_count (s : list term) (k : Z) : Z :=
  foldl (fun acc t => if decide (term_species t = k) then term_coef t else acc)
    0 s.

Definition written_row (f : Z -> Z) (N : nat) (s : list term) : list Z :=
  (fun i => f (last_count s (Z.of_nat i + 1))) <$> seq 0 N.

(** The rows of the sides that have a term, in their order, then rows of
    zeros up to [M] rows. *)
Definition packed_rows (f : Z -> Z) (M N : nat) (sides : list (list term))
  : matrix :=
  let rows := written_row f N <$> filter (fun s => (1 <= length s)%nat) sides in
  rows ++ replicate (M - length rows) (replicate N 0).

(** The example of the docstring, [2X1+X2->X3,X1->0,X3+4X2->12X1]. *)
Definition docstring_net : list (list term * list term) :=
  [ ([mk_term "2" "1"; mk_term EmptyString "2"], [mk_term EmptyString "3"]);
    ([mk_term EmptyString "1"], []);
    ([mk_term EmptyString "3"; mk_term "4" "2"], [mk_term "12" "1"]) ].

(** ** Exceptions of a run *)

Definition run_error (e : exn) : Prop :=
  e = IndexError \/ e = ValueError \/ e = ZeroDivisionError.

(** ** One step of the direct method *)

(** From state [x] at time [t], the draws [u1] and [u2] lead to state [x']
    at time [t']: the propensities of [x] give the waiting time and the
    reaction, whose row of [stoch] is added to [x]. *)
Definition scheduler_step (ln : Q -> Q) (rates : list Q)
    (sub_stoch stoch : matrix) (u1 u2 : Q)
    (t : xnum) (x : list Z) (t' : xnum) (x' : list Z) : Prop :=
  exists a dt mu row,
    propensities sub_stoch x rates (length stoch) (ncols stoch) = Ok a /\
    next_values ln (sum a) a u1 u2 = Ok (dt, mu) /\
    stoch !! mu = Some row /\
    iadd x row = Ok x' /\
    t' = xadd t dt.

(** Rows [0] to [n_counter] of the two storage arrays hold the times and
    states visited, each obtained from the one before by a step with the
    draws of its index; the last of them is the current one. *)
Definition steps_inv (ln : Q -> Q) (init : loc) (rates : list Q)
    (sub_stoch stoch : matrix) (n_max : nat) (draws1 draws2 : nat -> Q)
    (st : loop_state) : Prop :=
  length (store_time st) = n_max /\
  length (store_number_molecules st) = n_max /\
  (n_counter st < n_max)%nat /\
  length (heap st !!! init) = ncols stoch /\
  store_time st !! n_counter st = Some (current_time st) /\
  store_number_molecules st !! n_counter st = Some (heap st !!! init) /\
  forall i t x t' x', (i < n_counter st)%nat ->
    store_time st !! i = Some t ->
    store_number_molecules st !! i = Some x ->
    store_time st !! S i = Some t' ->
    store_number_molecules st !! S i = Some x' ->
    scheduler_step ln rates sub_stoch stoch (draws1 i) (draws2 i) t x t' x'.

(** * Properties *)

(** ** Pascal's row *)

Lemma binom_0_r n : binom n 0 = 1.
Proof. by destruct n. Qed.

Lemma binom_above n k : (n < k)%nat -> binom n k = 0.
Proof.
  revert k; induction n as [|n IH]; intros [|k] Hk; simpl; try lia.
  rewrite !IH by lia. reflexivity.
Qed.

Lemma binom_diag n : binom n n = 1.
Proof.
  induction n as [|n IH]; simpl; [reflexivity|].
  rewrite IH, binom_above by lia. reflexivity.
Qed.

Lemma binom_fact n k :
  (k <= n)%nat ->
  binom n k * Z.of_nat (fact k) * Z.of_nat (fact (n - k)) = Z.of_nat (fact n).
Proof.
  revert k; induction n as [|n IH]; intros [|k] Hk; try lia.
  - simpl. lia.
  - simpl binom. rewrite Nat.sub_0_r. simpl (fact 0). lia.
  - simpl binom. destruct (decide (k = n)) as [->|Hne].
    + rewrite binom_diag, binom_above by lia.
      replace (S n - S n)%nat with 0%nat by lia. simpl (fact 0). lia.
    + assert (Hk' : (k <= n)%nat) by lia.
      assert (HSk : (S k <= n)%nat) by lia.
      pose proof (IH k Hk') as H1. pose proof (IH (S k) HSk) as H2.
      replace (S n - S k)%nat with (n - k)%nat by lia.
      replace (n - k)%nat with (S (n - S k)) in * by lia.
      set (d := (n - S k)%nat) in *.
      change (fact (S k)) with (S k * fact k)%nat in *.
      change (fact (S d)) with (S d * fact d)%nat in *.
      change (fact (S n)) with (S n * fact n)%nat.
      assert (Hn : Z.of_nat (S n) = Z.of_nat (S k) + Z.of_nat (S d)) by (subst d; lia).
      rewrite !Nat2Z.inj_mul in *. rewrite Hn.
      transitivity
        (Z.of_nat (S k) *
           (binom n k * Z.of_nat (fact k) * (Z.of_nat (S d) * Z.of_nat (fact d))) +
         Z.of_nat (S d) *
           (binom n (S k) * (Z.of_nat (S k) * Z.of_nat (fact k)) * Z.of_nat (fact d)));
        [ring | rewrite H1, H2; ring].
Qed.

Lemma pascal_inner_length j b : length (pascal_inner j b) = length b.
Proof.
  revert b; induction j as [|j IH]; intros b; simpl; [reflexivity|].
  rewrite IH. apply length_insert.
Qed.

(** The inner loop turns row [i] into row [S i], from the top index down. *)
Lemma pascal_inner_row i j (b : list Z) :
  (j < length b)%nat ->
  (forall k, (k <= j)%nat -> b !! k = Some (binom i k)) ->
  (forall k, (j < k)%nat -> (k < length b)%nat -> b !! k = Some (binom (S i) k)) ->
  forall k, (k < length b)%nat -> pascal_inner j b !! k = Some (binom (S i) k).
Proof.
  revert b; induction j as [|j IH]; intros b Hj Hlo Hhi k Hk; simpl.
  - destruct k as [|k]; [|apply Hhi; lia].
    rewrite (Hlo 0%nat) by lia. by rewrite !binom_0_r.
  - rewrite <- (length_insert b (S j) (b !!! S j + b !!! j)) in Hk.
    apply IH; try assumption.
    + rewrite length_insert; lia.
    + intros k' Hk'. rewrite list_lookup_insert_ne by lia. apply Hlo; lia.
    + intros k' Hk' Hlen. rewrite length_insert in Hlen.
      destruct (decide (k' = S j)) as [->|Hne].
      * rewrite list_lookup_insert_eq by lia.
        rewrite (list_lookup_total_correct b (S j) (binom i (S j))) by (apply Hlo; lia).
        rewrite (list_lookup_total_correct b j (binom i j)) by (apply Hlo; lia).
        simpl. f_equal. lia.
      * rewrite list_lookup_insert_ne by lia. apply Hhi; lia.
Qed.

Lemma pascal_step_row i (b : list Z) :
  (S i < length b)%nat ->
  (forall k, (k < length b)%nat -> b !! k = Some (binom i k)) ->
  length (pascal_step b (S i)) = length b /\
  forall k, (k < length b)%nat -> pascal_step b (S i) !! k = Some (binom (S i) k).
Proof.
  intros Hi Hrow. unfold pascal_step. split.
  - rewrite pascal_inner_length. apply length_insert.
  - intros k Hk. replace (S i - 1)%nat with i by lia.
    rewrite <- (length_insert b (S i) 1) in Hk.
    apply pascal_inner_row; try assumption.
    + rewrite length_insert; lia.
    + intros k' Hk'. rewrite list_lookup_insert_ne by lia. apply Hrow; lia.
    + intros k' Hk' Hlen. rewrite length_insert in Hlen.
      destruct (decide (k' = S i)) as [->|Hne].
      * rewrite list_lookup_insert_eq by lia. by rewrite binom_diag.
      * rewrite list_lookup_insert_ne by lia. rewrite Hrow by lia.
        rewrite !binom_above by lia. reflexivity.
Qed.

Lemma pascal_rows n i :
  (i <= n)%nat ->
  let b := foldl pascal_step (<[0%nat := 1]> (replicate (S n) 0)) (seq 1 i) in
  length b = S n /\
  forall k, (k < S n)%nat -> b !! k = Some (binom i k).
Proof.
  induction i as [|i IH]; intros Hi; cbv zeta.
  - simpl. split; [by rewrite length_replicate|].
    intros [|k] Hk; [reflexivity|]. simpl.
    rewrite lookup_replicate_2 by lia. reflexivity.
  - destruct IH as [Hlen Hrow]; [lia|].
    rewrite seq_S, foldl_app. cbn [foldl Nat.add].
    set (b := foldl pascal_step _ (seq 1 i)) in *.
    destruct (pascal_step_row i b) as [Hlen' Hrow']; [lia| |].
    + intros k Hk. apply Hrow. lia.
    + split; [lia|]. intros k Hk. apply Hrow'. lia.
Qed.

Lemma fact_pos_Z n : 0 < Z.of_nat (fact n).
Proof. pose proof (lt_O_fact n). lia. Qed.

Lemma choose_binom n m :
  (m <= n)%nat -> choose (Z.of_nat n) (Z.of_nat m) = binom n m.
Proof.
  intros Hm. unfold choose, factorial.
  destruct (Z.ltb_spec (Z.of_nat n) 0); [lia|].
  destruct (Z.ltb_spec (Z.of_nat m) 0); [lia|].
  destruct (Z.ltb_spec (Z.of_nat n - Z.of_nat m) 0); [lia|].
  rewrite <- Nat2Z.inj_sub by lia. rewrite !Nat2Z.id.
  rewrite <- (binom_fact n m Hm), <- Z.mul_assoc.
  apply Z.div_mul. pose proof (fact_pos_Z m). pose proof (fact_pos_Z (n - m)). lia.
Qed.

Lemma calculate_hi_binom n m :
  (m <= n)%nat ->
  calculate_hi (Z.of_nat n) (Z.of_nat m) = Ok (binom n m * Z.of_nat (fact m)).
Proof.
  intros Hm. unfold calculate_hi.
  replace (Z.to_nat (Z.of_nat n + 1)) with (S n) by lia.
  unfold set_item. rewrite length_replicate.
  destruct (decide (0 < S n)%nat); [|lia]. simpl mbind. rewrite Nat2Z.id.
  destruct (pascal_rows n n (le_n n)) as [Hlen Hrow].
  unfold py_index. destruct (Z.leb_spec 0 (Z.of_nat m)); [|lia].
  rewrite Nat2Z.id. unfold index.
  rewrite Hrow by lia. simpl. unfold factorial.
  destruct (Z.ltb_spec (Z.of_nat m) 0); [lia|]. by rewrite Nat2Z.id.
Qed.

Lemma calculate_hi_value (n m : Z) :
  1 <= n -> 0 <= m <= n ->
  calculate_hi n m = Ok (choose n m * factorial m) /\
  choose n m * factorial m = factorial n / factorial (n - m).
Proof.
  intros Hn Hm.
  rewrite <- (Z2Nat.id n), <- (Z2Nat.id m) by lia.
  set (n' := Z.to_nat n). set (m' := Z.to_nat m).
  assert (Hle : (m' <= n')%nat) by lia.
  rewrite choose_binom by exact Hle. split.
  - rewrite calculate_hi_binom by exact Hle. unfold factorial.
    destruct (Z.ltb_spec (Z.of_nat m') 0); [lia|]. by rewrite Nat2Z.id.
  - unfold factorial.
    destruct (Z.ltb_spec (Z.of_nat n') 0); [lia|].
    destruct (Z.ltb_spec (Z.of_nat m') 0); [lia|].
    destruct (Z.ltb_spec (Z.of_nat n' - Z.of_nat m') 0); [lia|].
    rewrite <- Nat2Z.inj_sub by lia. rewrite !Nat2Z.id.
    rewrite <- (binom_fact n' m' Hle).
    symmetry. apply Z.div_mul. pose proof (fact_pos_Z (n' - m')). lia.
Qed.



(** ** Comparisons and sums of rationals *)

Lemma Qlt_bool_iff x y : Qlt_bool x y = true <-> (x < y)%Q.
Proof.
  unfold Qlt_bool. rewrite negb_true_iff. split.
  - intros H. apply Qnot_le_lt. intros Hle.
    apply Qle_bool_iff in Hle. congruence.
  - intros H. destruct (Qle_bool y x) eqn:E; [|reflexivity].
    apply Qle_bool_iff in E. exfalso. exact (Qlt_not_le _ _ H E).
Qed.

Lemma Qlt_bool_false x y : Qlt_bool x y = false <-> (y <= x)%Q.
Proof.
  unfold Qlt_bool. rewrite negb_false_iff. apply Qle_bool_iff.
Qed.

Lemma sum_snoc (l : list Q) x : sum (l ++ [x]) = (sum l + x)%Q.
Proof. unfold sum. by rewrite foldl_app. Qed.

Lemma partial_sum_S (a : list Q) mu x :
  a !! S mu = Some x -> partial_sum a (S mu) = (partial_sum a mu + x)%Q.
Proof.
  intros Hx. unfold partial_sum.
  rewrite (take_S_r a (S mu) x Hx). apply sum_snoc.
Qed.

Lemma partial_sum_last (a : list Q) mu :
  (length a <= S mu)%nat -> partial_sum a mu = sum a.
Proof. intros H. unfold partial_sum. by rewrite take_ge. Qed.

(** ** The scheduler *)

Section SchedulerFacts.
Variable ln : Q -> Q.

Lemma select_reaction_spec (a : list Q) (t : Q) fuel : forall mu N,
  (mu < length a)%nat ->
  (length a <= mu + 1 + fuel)%nat ->
  (N == t - partial_sum a mu)%Q ->
  (forall i, (i < mu)%nat -> (partial_sum a i < t)%Q) ->
  (t < sum a)%Q ->
  exists mu',
    select_reaction fuel a mu N = Ok mu' /\
    (mu' < length a)%nat /\
    (t <= partial_sum a mu')%Q /\
    forall i, (i < mu')%nat -> (partial_sum a i < t)%Q.
Proof.
  induction fuel as [|fuel IH]; intros mu N Hmu Hfuel HN Hbelow Htot.
  - assert (Hlast : partial_sum a mu = sum a) by (apply partial_sum_last; lia).
    simpl. destruct (Qlt_bool 0 N) eqn:E.
    + apply Qlt_bool_iff in E. rewrite Hlast in HN. exfalso. lra.
    + apply Qlt_bool_false in E. exists mu. repeat split; auto. lra.
  - simpl. destruct (Qlt_bool 0 N) eqn:E.
    + apply Qlt_bool_iff in E.
      assert (Hnext : (S mu < length a)%nat).
      { destruct (decide (S mu < length a)%nat) as [|Hge]; [assumption|].
        rewrite (partial_sum_last a mu) in HN by lia. exfalso. lra. }
      destruct (lookup_lt_is_Some_2 a (S mu) Hnext) as [x Hx].
      unfold index. rewrite Hx. simpl.
      apply IH; try assumption; try lia.
      * rewrite (partial_sum_S a mu x Hx). lra.
      * intros i Hi. destruct (decide (i = mu)) as [->|Hne]; [lra|].
        apply Hbelow. lia.
    + apply Qlt_bool_false in E. exists mu. repeat split; auto. lra.
Qed.

Lemma next_values_select (a0 : Q) (a : list Q) (r1 r2 : Q) :
  (1 <= length a)%nat ->
  (a0 == sum a)%Q -> (0 < a0)%Q ->
  (0 < r1)%Q -> (r1 < 1)%Q -> (0 < r2)%Q -> (r2 < 1)%Q ->
  exists mu,
    next_values ln a0 a r1 r2 = Ok (Fin ((1 / a0) * ln (1 / r1)), mu) /\
    (mu < length a)%nat /\
    (r2 * a0 <= partial_sum a mu)%Q /\
    forall i, (i < mu)%nat -> (partial_sum a i < r2 * a0)%Q.
Proof.
  intros Hlen Ha0 Hpos Hr1 Hr1' Hr2 Hr2'.
  unfold next_values.
  assert (Hdt : xmul (qdiv 1 a0) (xlog ln (qdiv 1 r1))
                = Fin ((1 / a0) * ln (1 / r1))).
  { unfold qdiv.
    destruct (Qeq_bool a0 0) eqn:E0;
      [apply Qeq_bool_iff in E0; exfalso; lra|].
    destruct (Qeq_bool r1 0) eqn:E1;
      [apply Qeq_bool_iff in E1; exfalso; lra|].
    simpl.
    assert (Hinv : (0 < 1 / r1)%Q).
    { unfold Qdiv. rewrite Qmult_1_l. by apply Qinv_lt_0_compat. }
    apply Qlt_bool_iff in Hinv. by rewrite Hinv. }
  rewrite Hdt. clear Hdt.
  destruct a as [|x a']; [simpl in Hlen; lia|].
  change (index (x :: a') 0) with (Ok x).
  change (mbind ?f (Ok x)) with (f x). cbv beta.
  destruct (select_reaction_spec (x :: a') (r2 * a0) (length (x :: a')) 0
              (r2 * a0 - x)%Q) as (mu & Hsel & Hmu & Hge & Hlt).
  - simpl; lia.
  - simpl; lia.
  - unfold partial_sum, sum. simpl. lra.
  - intros i Hi. lia.
  - rewrite <- Ha0. nra.
  - exists mu. rewrite Hsel. simpl. repeat split; assumption.
Qed.

End SchedulerFacts.


(** ** Propensities *)

Lemma foldM_app {A B} (f : B -> A -> result B) b l1 l2 :
  foldM f b (l1 ++ l2) = b' ← foldM f b l1; foldM f b' l2.
Proof.
  revert b; induction l1 as [|x l1 IH]; intros b; simpl; [reflexivity|].
  destruct (f b x); simpl; auto.
Qed.

Lemma index_Some {A} (l : list A) i x : l !! i = Some x -> index l i = Ok x.
Proof. unfold index. by intros ->. Qed.

Lemma index_Ok {A} (l : list A) i x : index l i = Ok x -> l !! i = Some x.
Proof. unfold index. destruct (l !! i); by inversion 1. Qed.

Lemma hi_factor_pos s xj : s <> 0 -> Z.abs s <= xj -> 0 < hi_factor s xj.
Proof.
  intros Hs Hx. unfold hi_factor. destruct (decide (s = 0)); [lia|].
  rewrite <- (Z2Nat.id xj), <- (Z2Nat.id (Z.abs s)) by lia.
  rewrite choose_binom by lia. unfold factorial.
  destruct (Z.ltb_spec (Z.of_nat (Z.to_nat (Z.abs s))) 0); [lia|].
  rewrite Nat2Z.id.
  pose proof (binom_fact (Z.to_nat xj) (Z.to_nat (Z.abs s)) ltac:(lia)) as H1.
  pose proof (fact_pos_Z (Z.to_nat xj)).
  pose proof (fact_pos_Z (Z.to_nat (Z.abs s))).
  pose proof (fact_pos_Z (Z.to_nat xj - Z.to_nat (Z.abs s))).
  nia.
Qed.

(** A species in sufficient supply multiplies [hi] by its factor. *)
Lemma hi_step_sufficient sub x i row hi j s xj :
  sub !! i = Some row -> row !! j = Some s -> x !! j = Some xj ->
  (s <> 0 -> Z.abs s <= xj) ->
  hi_step sub x i hi j = Ok (hi * hi_factor s xj).
Proof.
  intros Hrow Hs Hx Hsuf. unfold hi_step, index2.
  rewrite (index_Some _ _ _ Hrow). simpl. rewrite (index_Some _ _ _ Hs). simpl.
  unfold hi_factor. destruct (decide (s = 0)) as [->|Hne].
  - f_equal. lia.
  - rewrite (index_Some _ _ _ Hx). simpl.
    specialize (Hsuf Hne). destruct (decide (xj <= 0)); [lia|].
    destruct (calculate_hi_value xj (Z.abs s)) as [-> _]; [lia|lia|].
    reflexivity.
Qed.

Lemma reaction_hi_from sub x i row n : forall j0 hi,
  sub !! i = Some row ->
  length row = (j0 + n)%nat -> length x = (j0 + n)%nat ->
  (forall j s xj, row !! j = Some s -> x !! j = Some xj ->
                  s <> 0 -> Z.abs s <= xj) ->
  foldM (hi_step sub x i) hi (seq j0 n)
  = Ok (foldl Z.mul hi (zip_with hi_factor (drop j0 row) (drop j0 x))).
Proof.
  induction n as [|n IH]; intros j0 hi Hrow Hlr Hlx Hsuf.
  - simpl. rewrite !drop_ge by lia. reflexivity.
  - destruct (lookup_lt_is_Some_2 row j0 ltac:(lia)) as [s Hs].
    destruct (lookup_lt_is_Some_2 x j0 ltac:(lia)) as [xj Hx].
    simpl. rewrite (hi_step_sufficient sub x i row hi j0 s xj) by eauto.
    simpl. rewrite IH by (auto; lia).
    rewrite (drop_S row s j0 Hs), (drop_S x xj j0 Hx). reflexivity.
Qed.

Lemma reaction_hi_sufficient sub x N i row :
  sub !! i = Some row -> length row = N -> length x = N ->
  (forall j s xj, row !! j = Some s -> x !! j = Some xj ->
                  s <> 0 -> Z.abs s <= xj) ->
  reaction_hi sub x N i = Ok (hi_product row x).
Proof.
  intros Hrow Hlr Hlx Hsuf. unfold reaction_hi, hi_product.
  by rewrite (reaction_hi_from sub x i row N 0 1).
Qed.

Lemma hi_product_zero_row row x :
  Forall (fun s => s = 0) row -> hi_product row x = 1.
Proof.
  unfold hi_product. intros Hrow. revert x.
  induction Hrow as [|s row -> _ IH]; intros [|xj x]; simpl; auto.
Qed.

Lemma set_item_Ok {A} (l : list A) i v l' :
  set_item l i v = Ok l' -> (i < length l)%nat /\ l' = <[i := v]> l.
Proof.
  unfold set_item. destruct (decide (i < length l)%nat); inversion 1; auto.
Qed.

Lemma set_item_lt {A} (l : list A) i v :
  (i < length l)%nat -> set_item l i v = Ok (<[i := v]> l).
Proof. intros H. unfold set_item. by destruct (decide (i < length l)%nat). Qed.

Lemma bind_Ok {A B} (r : result A) (k : A -> result B) b :
  r ≫= k = Ok b -> exists a, r = Ok a /\ k a = Ok b.
Proof. destruct r; simpl; intros H; try discriminate. eauto. Qed.

(** What a completed propensity computation has stored. *)
Lemma propensities_from sub x rates N n : forall i0 a0 a,
  foldM (propensity_step sub x rates N) a0 (seq i0 n) = Ok a ->
  length a = length a0 /\
  (forall i, (i < i0)%nat -> a !! i = a0 !! i) /\
  forall i, (i0 <= i < i0 + n)%nat ->
    exists hi c, reaction_hi sub x N i = Ok hi /\ rates !! i = Some c /\
                 a !! i = Some (inject_Z hi * c)%Q.
Proof.
  induction n as [|n IH]; intros i0 a0 a Hfold; simpl in Hfold.
  - inversion Hfold; subst. repeat split; auto. intros i Hi. lia.
  - apply bind_Ok in Hfold as (a1 & Hstep & Hrest).
    unfold propensity_step in Hstep.
    apply bind_Ok in Hstep as (hi & Hhi & Hstep).
    apply bind_Ok in Hstep as (c & Hc & Hset).
    apply set_item_Ok in Hset as [Hi0 ->]. apply index_Ok in Hc.
    destruct (IH _ _ _ Hrest) as (Hlen & Hlow & Hhigh).
    rewrite length_insert in Hlen. split; [assumption|]. split.
    + intros i Hi. rewrite Hlow by lia. apply list_lookup_insert_ne. lia.
    + intros i Hi. destruct (decide (i = i0)) as [->|Hne].
      * exists hi, c. repeat split; auto.
        rewrite Hlow by lia. apply list_lookup_insert_eq. lia.
      * apply Hhigh. lia.
Qed.

Lemma propensities_inv sub x rates M N a :
  propensities sub x rates M N = Ok a ->
  length a = M /\
  forall i, (i < M)%nat ->
    exists hi c, reaction_hi sub x N i = Ok hi /\ rates !! i = Some c /\
                 a !! i = Some (inject_Z hi * c)%Q.
Proof.
  intros H. apply propensities_from in H as (Hlen & _ & Hall).
  rewrite length_replicate in Hlen. split; [assumption|].
  intros i Hi. apply Hall. lia.
Qed.




(** C3 at a failing input: one molecule left of a species of which the
    reaction consumes two.  The propensity is not 0: [calculate_hi] reads
    [b[2]] in a Pascal row of two entries. *)
Lemma propensity_insufficient_raises :
  calculate_hi 1 2 = Raise IndexError /\
  reaction_hi [[-2]] [1] 1 0 = Raise IndexError /\
  propensities [[-2]] [1] [1%Q] 1 1 = Raise IndexError.
Proof. repeat split; reflexivity. Qed.

(** ** What a positive propensity tells about the state *)

Lemma calculate_hi_Ok_inv n m h :
  0 < n -> 0 <= m -> calculate_hi n m = Ok h ->
  m <= n /\ h = choose n m * factorial m /\ 0 < h.
Proof.
  intros Hn Hm Hcalc. destruct (decide (m <= n)) as [Hle|Hgt].
  - destruct (calculate_hi_value n m) as [Heq _]; [lia|lia|].
    rewrite Heq in Hcalc. inversion Hcalc; subst. split; [lia|]. split; [reflexivity|].
    destruct (decide (m = 0)) as [->|Hm0].
    + rewrite <- (Z2Nat.id n) by lia. rewrite (choose_binom _ 0%nat) by lia.
      rewrite binom_0_r. reflexivity.
    + pose proof (hi_factor_pos m n Hm0 ltac:(lia)) as Hpos.
      unfold hi_factor in Hpos. destruct (decide (m = 0)); [lia|].
      by rewrite Z.abs_eq in Hpos by lia.
  - exfalso. unfold calculate_hi in Hcalc.
    replace (Z.to_nat (n + 1)) with (S (Z.to_nat n)) in Hcalc by lia.
    unfold set_item in Hcalc. rewrite length_replicate in Hcalc.
    destruct (decide (0 < S (Z.to_nat n))%nat); [|lia]. simpl mbind in Hcalc.
    destruct (pascal_rows (Z.to_nat n) (Z.to_nat n) (le_n _)) as [Hlen _].
    cbv zeta in Hlen. unfold py_index, index in Hcalc.
    destruct (Z.leb_spec 0 m); [|lia].
    match type of Hcalc with
    | context [?b !! Z.to_nat m] =>
        assert (Hnone : b !! Z.to_nat m = None)
          by (apply lookup_ge_None_2; simpl in Hlen; rewrite Hlen; lia);
        rewrite Hnone in Hcalc
    end.
    discriminate.
Qed.

Lemma hi_fold_inv sub x i row n : forall j0 acc hi,
  sub !! i = Some row ->
  0 <= acc ->
  foldM (hi_step sub x i) acc (seq j0 n) = Ok hi ->
  0 <= hi /\
  (0 < hi ->
   0 < acc /\
   forall j s, (j0 <= j < j0 + n)%nat -> row !! j = Some s -> s <> 0 ->
     exists xj, x !! j = Some xj /\ Z.abs s <= xj).
Proof.
  induction n as [|n IH]; intros j0 acc hi Hrow Hacc Hfold; simpl in Hfold.
  - inversion Hfold; subst. split; [assumption|]. intros Hpos.
    split; [assumption|]. intros j s Hj. lia.
  - apply bind_Ok in Hfold as (acc' & Hstep & Hrest).
    unfold hi_step, index2 in Hstep.
    apply bind_Ok in Hstep as (s0 & Hs0 & Hstep).
    apply bind_Ok in Hs0 as (row' & Hrow' & Hs0).
    apply index_Ok in Hrow', Hs0. rewrite Hrow in Hrow'.
    inversion Hrow'; subst row'; clear Hrow'.
    destruct (decide (s0 = 0)) as [->|Hne].
    + inversion Hstep; subst acc'.
      destruct (IH _ _ _ Hrow Hacc Hrest) as [Hnn Hinv].
      split; [assumption|]. intros Hpos. destruct (Hinv Hpos) as [Hacc' Hsuf].
      split; [assumption|]. intros j s Hj Hs Hsne.
      destruct (decide (j = j0)) as [->|Hj0]; [congruence|].
      apply Hsuf; auto. lia.
    + apply bind_Ok in Hstep as (xj & Hxj & Hstep). apply index_Ok in Hxj.
      destruct (decide (xj <= 0)) as [Hle|Hgt].
      * inversion Hstep; subst acc'.
        destruct (IH _ _ _ Hrow (Z.le_refl 0) Hrest) as [Hnn Hinv].
        split; [assumption|]. intros Hpos. destruct (Hinv Hpos) as [Hacc' _]. lia.
      * apply bind_Ok in Hstep as (h & Hh & Hstep). inversion Hstep; subst acc'.
        apply calculate_hi_Ok_inv in Hh as (Hle & _ & Hhpos); [|lia|lia].
        assert (Hacch : 0 <= acc * h) by nia.
        destruct (IH _ _ _ Hrow Hacch Hrest) as [Hnn Hinv].
        split; [assumption|]. intros Hpos. destruct (Hinv Hpos) as [Hacc' Hsuf].
        split; [nia|]. intros j s Hj Hs Hsne.
        destruct (decide (j = j0)) as [->|Hj0].
        -- rewrite Hs0 in Hs. inversion Hs; subst. eauto.
        -- apply Hsuf; auto. lia.
Qed.

Lemma reaction_hi_inv sub x N i row hi :
  sub !! i = Some row -> reaction_hi sub x N i = Ok hi ->
  0 <= hi /\
  (0 < hi ->
   forall j s, (j < N)%nat -> row !! j = Some s -> s <> 0 ->
     exists xj, x !! j = Some xj /\ Z.abs s <= xj).
Proof.
  intros Hrow Hhi. unfold reaction_hi in Hhi.
  destruct (hi_fold_inv sub x i row N 0 1 hi Hrow ltac:(lia) Hhi) as [Hnn Hinv].
  split; [assumption|]. intros Hpos j s Hj. apply (Hinv Hpos). lia.
Qed.

(** ** The loops never run out of fuel *)

Lemma terminates_bind {A B} (r : result A) (k : A -> result B) :
  terminates r -> (forall a, r = Ok a -> terminates (k a)) ->
  terminates (r ≫= k).
Proof.
  unfold terminates. destruct r; simpl; intros Hr Hk; try congruence.
  by apply Hk.
Qed.

Lemma terminates_Ok {A} (a : A) : terminates (Ok a).
Proof. discriminate. Qed.

Lemma terminates_Raise {A} e : terminates (@Raise A e).
Proof. discriminate. Qed.

Lemma terminates_index {A} (l : list A) i : terminates (index l i).
Proof. unfold index. destruct (l !! i); discriminate. Qed.

Lemma terminates_set_item {A} (l : list A) i v : terminates (set_item l i v).
Proof. unfold set_item. case_decide; discriminate. Qed.

Create HintDb term.
#[local] Hint Resolve terminates_Ok terminates_Raise terminates_index
  terminates_set_item : term.

Lemma terminates_foldM {A B} (f : B -> A -> result B) l :
  (forall b x, terminates (f b x)) -> forall b, terminates (foldM f b l).
Proof.
  intros Hf. induction l as [|x l IH]; intros b; simpl; auto with term.
  apply terminates_bind; auto.
Qed.

Lemma terminates_calculate_hi n m : terminates (calculate_hi n m).
Proof.
  unfold calculate_hi. apply terminates_bind; auto with term.
  intros b _. apply terminates_bind; auto with term.
  unfold py_index. repeat case_match; auto with term.
Qed.

Lemma terminates_propensities sub x rates M N :
  terminates (propensities sub x rates M N).
Proof.
  unfold propensities. apply terminates_foldM. intros a i.
  unfold propensity_step. apply terminates_bind.
  - unfold reaction_hi. apply terminates_foldM. intros hi j.
    unfold hi_step. apply terminates_bind.
    + unfold index2. apply terminates_bind; auto with term.
    + intros s _. case_decide; auto with term.
      apply terminates_bind; auto with term.
      intros xj _. case_decide; auto with term.
      apply terminates_bind; auto using terminates_calculate_hi with term.
  - intros hi _. apply terminates_bind; auto with term.
Qed.

Lemma terminates_select_reaction (a : list Q) fuel : forall mu N,
  (mu < length a)%nat -> (length a <= mu + fuel)%nat ->
  terminates (select_reaction fuel a mu N).
Proof.
  induction fuel as [|fuel IH]; intros mu N Hmu Hfuel; simpl; [lia|].
  destruct (Qlt_bool 0 N); auto with term.
  apply terminates_bind; auto with term.
  intros x Hx. apply index_Ok, lookup_lt_Some in Hx. apply IH; lia.
Qed.

Lemma terminates_next_values ln a0 a u1 u2 :
  terminates (next_values ln a0 a u1 u2).
Proof.
  unfold next_values. apply terminates_bind; auto with term.
  intros x Hx. apply index_Ok, lookup_lt_Some in Hx.
  apply terminates_bind; auto with term.
  apply terminates_select_reaction; lia.
Qed.

(** ** One turn of the simulation loop *)

Section LoopFacts.
Variable ln : Q -> Q.
Variables (init : nat) (rates : list Q) (sub_stoch stoch : matrix).
Variables (tmax : Q) (n_max : nat) (r1 r2 : list Q).

Lemma loop_body_inv st st' :
  loop_body ln init rates sub_stoch stoch r1 r2 st = Ok st' ->
  exists a u1 u2 dt mu row x' snap,
    propensities sub_stoch (heap st !!! init) rates (length stoch) (ncols stoch)
      = Ok a /\
    r1 !! n_counter st = Some u1 /\ r2 !! n_counter st = Some u2 /\
    length stoch <> 0%nat /\
    next_values ln (sum a) a u1 u2 = Ok (dt, mu) /\
    stoch !! mu = Some row /\
    iadd (heap st !!! init) row = Ok x' /\
    assign_row (ncols stoch) x' = Ok snap /\
    (S (n_counter st) < length (store_time st))%nat /\
    (S (n_counter st) < length (store_number_molecules st))%nat /\
    st' = LoopState (xadd (current_time st) dt) (S (n_counter st))
            (<[S (n_counter st) := xadd (current_time st) dt]> (store_time st))
            (<[S (n_counter st) := snap]> (store_number_molecules st))
            (<[init := x']> (heap st)).
Proof.
  unfold loop_body. intros H.
  apply bind_Ok in H as (a & Ha & H).
  apply bind_Ok in H as (u1 & Hu1 & H).
  apply bind_Ok in H as (u2 & Hu2 & H).
  apply bind_Ok in H as ([dt mu] & Hnext & H).
  apply bind_Ok in H as (row & Hrow & H).
  apply bind_Ok in H as (x' & Hx' & H).
  apply bind_Ok in H as (st_time & Htime & H).
  apply bind_Ok in H as (snap & Hsnap & H).
  apply bind_Ok in H as (st_mol & Hmol & H).
  apply index_Ok in Hu1, Hu2, Hrow.
  apply set_item_Ok in Htime as [Hlt1 ->].
  apply set_item_Ok in Hmol as [Hlt2 ->].
  destruct (decide (length stoch = 0%nat)) as [|Hne]; [discriminate|].
  inversion H; subst st'.
  exists a, u1, u2, dt, mu, row, x', snap. repeat split; auto.
Qed.

Lemma terminates_loop_body st :
  terminates (loop_body ln init rates sub_stoch stoch r1 r2 st).
Proof.
  unfold loop_body.
  apply terminates_bind; [apply terminates_propensities|]. intros a _.
  apply terminates_bind; auto with term. intros u1 _.
  apply terminates_bind; auto with term. intros u2 _.
  apply terminates_bind.
  { case_decide; auto using terminates_next_values with term. }
  intros [dt mu] _.
  apply terminates_bind; auto with term. intros row _.
  apply terminates_bind.
  { unfold iadd. repeat case_match; auto with term. }
  intros x' _.
  apply terminates_bind; auto with term. intros st_time _.
  apply terminates_bind.
  { unfold assign_row. repeat case_match; auto with term. }
  intros snap _.
  apply terminates_bind; auto with term.
Qed.

(** [n_max] turns of fuel are enough: the counter grows with every turn. *)
Lemma terminates_gillespie_loop fuel : forall st,
  (n_max <= fuel + n_counter st + 1)%nat ->
  terminates (gillespie_loop ln init rates sub_stoch stoch tmax n_max r1 r2
                fuel st).
Proof.
  induction fuel as [|fuel IH]; intros st Hfuel; simpl.
  - destruct (loop_cond tmax n_max st) eqn:Hc; auto with term.
    unfold loop_cond in Hc. apply andb_true_iff in Hc as [_ Hc].
    apply Z.ltb_lt in Hc. lia.
  - destruct (loop_cond tmax n_max st) eqn:Hc; auto with term.
    apply terminates_bind; [apply terminates_loop_body|].
    intros st' Hst'. apply IH.
    apply loop_body_inv in Hst'
      as (a & u1 & u2 & dt & mu & row & x' & snap & Hst').
    destruct Hst' as (_ & _ & _ & _ & _ & _ & _ & _ & _ & _ & ->). simpl. lia.
Qed.

(** Invariants of the loop. *)
Lemma gillespie_loop_ind (P : loop_state -> Prop) :
  (forall st st', P st -> loop_cond tmax n_max st = true ->
     loop_body ln init rates sub_stoch stoch r1 r2 st = Ok st' -> P st') ->
  forall fuel st st',
    P st ->
    gillespie_loop ln init rates sub_stoch stoch tmax n_max r1 r2 fuel st
      = Ok st' ->
    P st' /\ loop_cond tmax n_max st' = false.
Proof.
  intros Hstep. induction fuel as [|fuel IH]; intros st st' HP Hloop;
    simpl in Hloop; destruct (loop_cond tmax n_max st) eqn:Hc;
    try discriminate; try (inversion Hloop; subst; auto; fail).
  apply bind_Ok in Hloop as (st1 & Hbody & Hloop).
  apply (IH st1 st'); eauto.
Qed.
End LoopFacts.

(** ** The trajectory kept by the loop *)

Section Trace.
Variable ln : Q -> Q.
Variables (init : nat) (rates : list Q) (sub_stoch stoch : matrix).
Variables (tmax : Q) (n_max : nat) (r1 r2 : list Q).
Variable h : gmap nat (list Z).

Lemma trace_inv_step st st' xs :
  trace_inv init stoch n_max h st xs ->
  loop_body ln init rates sub_stoch stoch r1 r2 st = Ok st' ->
  trace_inv init stoch n_max h st' (xs ++ [heap st' !!! init]).
Proof.
  intros (Hlt & Hlm & Hn & Hxs & Hx0 & Htraj & Hsnap & Ht0 & Hcur & Hheap) Hbody.
  apply loop_body_inv in Hbody
    as (a & u1 & u2 & dt & mu & row & x' & snap & _ & _ & _ & _ & _
        & Hrow & Hadd & Hassign & Hlt1 & Hlt2 & ->).
  unfold trace_inv; simpl. rewrite !lookup_total_insert_eq.
  rewrite !length_insert, length_app. simpl.
  repeat split; try lia.
  - rewrite lookup_app_l by lia. assumption.
  - intros i x y Hx Hy.
    destruct (decide (S i < length xs)%nat) as [Hin|Hout].
    + rewrite lookup_app_l in Hx, Hy by lia. eauto.
    + assert (i = n_counter st) as -> by (apply lookup_lt_Some in Hx, Hy;
        rewrite length_app in *; simpl in *; lia).
      rewrite lookup_app_l in Hx by lia.
      rewrite lookup_app_r in Hy by lia.
      replace (S (n_counter st) - length xs)%nat with 0%nat in Hy by lia.
      simpl in Hy. rewrite Hcur in Hx. inversion Hx; inversion Hy; subst.
      eauto.
  - intros i x Hx. destruct (decide (i < length xs)%nat) as [Hin|Hout].
    + rewrite lookup_app_l in Hx by lia.
      destruct (Hsnap i x Hx) as (s & Hs1 & Hs2). exists s. split; [assumption|].
      rewrite list_lookup_insert_ne by lia. assumption.
    + assert (i = S (n_counter st)) as -> by (apply lookup_lt_Some in Hx;
        rewrite length_app in *; simpl in *; lia).
      rewrite lookup_app_r in Hx by lia.
      replace (S (n_counter st) - length xs)%nat with 0%nat in Hx by lia.
      simpl in Hx. inversion Hx; subst. exists snap. split; [assumption|].
      apply list_lookup_insert_eq. lia.
  - rewrite list_lookup_insert_ne by lia. assumption.
  - rewrite lookup_app_r by lia.
    replace (S (n_counter st) - length xs)%nat with 0%nat by lia. reflexivity.
  - destruct (decide (n_counter st = 0%nat)) as [Hz|Hnz].
    + by rewrite Hheap.
    + rewrite Hheap at 1. apply insert_insert_eq.
Qed.

Lemma trace_inv_loop fuel st st' xs :
  trace_inv init stoch n_max h st xs ->
  gillespie_loop ln init rates sub_stoch stoch tmax n_max r1 r2 fuel st
    = Ok st' ->
  (exists xs', trace_inv init stoch n_max h st' xs') /\
  loop_cond tmax n_max st' = false.
Proof.
  intros Hinv Hloop.
  apply (gillespie_loop_ind ln init rates sub_stoch stoch tmax n_max r1 r2
           (fun s => exists ys, trace_inv init stoch n_max h s ys))
    with (fuel := fuel) (st := st); eauto.
  intros s s' [ys Hys] _ Hbody. eauto using trace_inv_step.
Qed.
End Trace.

Lemma gillespie_run_trace ln init rates sub_stoch prod_stoch tmax n_max
    draws1 draws2 (h : gmap nat (list Z)) st :
  gillespie_run ln init rates sub_stoch prod_stoch tmax n_max draws1 draws2 h
    = Ok st ->
  exists stoch xs,
    mat_add sub_stoch prod_stoch = Ok stoch /\
    trace_inv init stoch n_max h st xs /\
    loop_cond tmax n_max st = false.
Proof.
  unfold gillespie_run. intros H.
  apply bind_Ok in H as (stoch & Hstoch & H).
  apply bind_Ok in H as (st_time & Htime & H).
  apply bind_Ok in H as (snap & Hsnap & H).
  apply bind_Ok in H as (st_mol & Hmol & H).
  apply set_item_Ok in Htime as [Hlt1 ->].
  apply set_item_Ok in Hmol as [Hlt2 ->].
  rewrite length_replicate in Hlt1. rewrite length_replicate in Hlt2.
  exists stoch.
  eapply trace_inv_loop in H as [[xs Hxs] Hcond]; [eauto|].
  instantiate (1 := [h !!! init]).
  unfold trace_inv; simpl. rewrite !length_insert, !length_replicate.
  repeat split; auto.
  - intros i x y Hx Hy. destruct i; discriminate.
  - intros [|i] x Hx; [|discriminate]. inversion Hx; subst.
    exists snap. split; [assumption|]. apply list_lookup_insert_eq.
    by rewrite length_replicate.
  - apply list_lookup_insert_eq. by rewrite length_replicate.
Qed.

Lemma gillespie_algo_inv ln s_i init rates sub_stoch prod_stoch tmax n_max
    draws1 draws2 (h : gmap nat (list Z)) times snaps h' :
  gillespie_algo ln s_i init rates sub_stoch prod_stoch tmax n_max
    draws1 draws2 h = Ok (times, snaps, h') ->
  exists st,
    gillespie_run ln init rates sub_stoch prod_stoch tmax n_max draws1 draws2 h
      = Ok st /\
    n_counter st <> 0%nat /\
    times = take (n_counter st) (store_time st) /\
    snaps = take (n_counter st) (store_number_molecules st) /\
    h' = heap st.
Proof.
  unfold gillespie_algo. intros H.
  apply bind_Ok in H as (st & Hrun & H).
  repeat case_decide; try discriminate.
  inversion H; subst. eauto 10.
Qed.

Lemma terminates_gillespie_algo ln s_i init rates sub_stoch prod_stoch tmax
    n_max draws1 draws2 (h : gmap nat (list Z)) :
  terminates (gillespie_algo ln s_i init rates sub_stoch prod_stoch tmax n_max
                draws1 draws2 h).
Proof.
  unfold gillespie_algo, gillespie_run.
  apply terminates_bind.
  - apply terminates_bind.
    { unfold mat_add. case_decide; auto with term. }
    intros stoch _. apply terminates_bind; auto with term. intros st_time _.
    apply terminates_bind.
    { unfold assign_row. repeat case_match; auto with term. }
    intros snap _. apply terminates_bind; auto with term. intros st_mol _.
    apply terminates_gillespie_loop. simpl. lia.
  - intros st _. repeat case_decide; auto with term.
Qed.

(** C9 (amended): a run that returns has fired [k >= 1] reactions and
    returns [k] times and [k] snapshots: the initial one at time 0 and those
    after the first [k - 1] reactions.  The state after the [k]-th reaction
    is row [k] of the storage, cut off by [[:n_counter]]; it is what the
    cell of [init] holds. *)
Theorem trajectory_shape ln s_i init rates sub_stoch prod_stoch tmax n_max
    draws1 draws2 (h : gmap nat (list Z)) times snaps h' :
  gillespie_algo ln s_i init rates sub_stoch prod_stoch tmax n_max
    draws1 draws2 h = Ok (times, snaps, h') ->
  exists st stoch xs,
    gillespie_run ln init rates sub_stoch prod_stoch tmax n_max draws1 draws2 h
      = Ok st /\
    mat_add sub_stoch prod_stoch = Ok stoch /\
    let k := n_counter st in
    (1 <= k)%nat /\ length times = k /\ length snaps = k /\
    times !! 0%nat = Some (Fin 0) /\
    length xs = S k /\ xs !! 0%nat = Some (h !!! init) /\
    is_trajectory stoch xs /\
    Forall2 (fun x snap => assign_row (ncols stoch) x = Ok snap)
      (take k xs) snaps /\
    xs !! k = Some (h' !!! init) /\
    exists last_snap,
      assign_row (ncols stoch) (h' !!! init) = Ok last_snap /\
      store_number_molecules st !! k = Some last_snap /\
      snaps !! k = None.
Proof.
  intros Halgo.
  apply gillespie_algo_inv in Halgo as (st & Hrun & Hk & -> & -> & ->).
  destruct (gillespie_run_trace _ _ _ _ _ _ _ _ _ _ _ Hrun)
    as (stoch & xs & Hstoch & Hinv & _).
  destruct Hinv as (Hlt & Hlm & Hn & Hxs & Hx0 & Htraj & Hsnap & Ht0 & Hcur & _).
  exists st, stoch, xs. split; [assumption|]. split; [assumption|].
  cbv zeta. rewrite !length_take.
  split; [lia|]. split; [lia|]. split; [lia|]. split.
  { rewrite lookup_take_lt by lia. assumption. }
  split; [assumption|]. split; [assumption|]. split; [assumption|]. split.
  { apply Forall2_same_length_lookup. split.
    - rewrite !length_take. lia.
    - intros i x y Hx Hy.
      apply lookup_take_Some in Hx as [Hx Hi].
      apply lookup_take_Some in Hy as [Hy _].
      destruct (Hsnap i x Hx) as (s & Hs1 & Hs2). congruence. }
  split; [assumption|].
  destruct (Hsnap _ _ Hcur) as (s & Hs1 & Hs2). exists s.
  split; [assumption|]. split; [assumption|].
  apply lookup_take_ge. lia.
Qed.

(** The first snapshot returned is the content of [init] at the call. *)
Lemma gillespie_algo_first ln s_i init rates sub_stoch prod_stoch tmax n_max
    draws1 draws2 (h : gmap nat (list Z)) times snaps h' stoch :
  gillespie_algo ln s_i init rates sub_stoch prod_stoch tmax n_max
    draws1 draws2 h = Ok (times, snaps, h') ->
  mat_add sub_stoch prod_stoch = Ok stoch ->
  exists snap,
    assign_row (ncols stoch) (h !!! init) = Ok snap /\
    snaps !! 0%nat = Some snap.
Proof.
  intros Halgo Hstoch.
  apply gillespie_algo_inv in Halgo as (st & Hrun & Hk & -> & -> & ->).
  destruct (gillespie_run_trace _ _ _ _ _ _ _ _ _ _ _ Hrun)
    as (stoch' & xs & Hstoch' & Hinv & _).
  assert (stoch' = stoch) as -> by congruence.
  destruct Hinv as (_ & _ & _ & _ & Hx0 & _ & Hsnap & _).
  destruct (Hsnap _ _ Hx0) as (s & Hs1 & Hs2). exists s. split; [assumption|].
  rewrite lookup_take_lt by lia. assumption.
Qed.

(** The cell of [init] after the call: the state behind the last returned
    snapshot, plus one more stoichiometry row. *)
Lemma gillespie_algo_store ln s_i init rates sub_stoch prod_stoch tmax n_max
    draws1 draws2 (h : gmap nat (list Z)) times snaps h' :
  gillespie_algo ln s_i init rates sub_stoch prod_stoch tmax n_max
    draws1 draws2 h = Ok (times, snaps, h') ->
  exists stoch xprev mu row xk last_snap,
    mat_add sub_stoch prod_stoch = Ok stoch /\
    last snaps = Some last_snap /\
    assign_row (ncols stoch) xprev = Ok last_snap /\
    stoch !! mu = Some row /\
    iadd xprev row = Ok xk /\
    h' = <[init := xk]> h.
Proof.
  intros Halgo.
  apply gillespie_algo_inv in Halgo as (st & Hrun & Hk & -> & -> & ->).
  destruct (gillespie_run_trace _ _ _ _ _ _ _ _ _ _ _ Hrun)
    as (stoch & xs & Hstoch & Hinv & _).
  destruct Hinv as (_ & Hlm & Hn & Hxs & _ & Htraj & Hsnap & _ & Hcur & Hheap).
  destruct (n_counter st) as [|k] eqn:Ek; [congruence|].
  destruct (lookup_lt_is_Some_2 xs k ltac:(lia)) as [xprev Hprev].
  destruct (Htraj k _ _ Hprev Hcur) as (mu & row & Hrow & Hadd).
  destruct (Hsnap _ _ Hprev) as (s & Hs1 & Hs2).
  exists stoch, xprev, mu, row, (heap st !!! init), s.
  repeat split; try assumption.
  rewrite last_lookup, length_take.
  replace (Init.Nat.pred (S k `min` length (store_number_molecules st)))
    with k by lia.
  rewrite lookup_take_lt by lia. assumption.
Qed.

(** The driver never hands [init1] itself to a run. *)
Lemma driver_copies ln times_sim_av s_i init1 rates sub_stoch prod_stoch tmax
    n_max draws stoch x0 fuel :
  mat_add sub_stoch prod_stoch = Ok stoch ->
  forall counter results (h : gmap nat (list Z)) results' h',
    h !! init1 = Some x0 ->
    Forall (fun r : list xnum * matrix =>
              exists snap, assign_row (ncols stoch) x0 = Ok snap /\
                           r.2 !! 0%nat = Some snap) results ->
    driver ln fuel times_sim_av counter s_i init1 rates sub_stoch prod_stoch
      tmax n_max draws results h = Ok (results', h') ->
    h' !! init1 = Some x0 /\
    Forall (fun r : list xnum * matrix =>
              exists snap, assign_row (ncols stoch) x0 = Ok snap /\
                           r.2 !! 0%nat = Some snap) results'.
Proof.
  intros Hstoch.
  induction fuel as [|fuel IH]; intros counter results h results' h' Hx0 Hres Hd;
    simpl in Hd; [discriminate|].
  assert (Hfresh : fresh (dom h) <> init1).
  { intros Heq. apply (is_fresh (dom h)). rewrite Heq.
    apply elem_of_dom. eauto. }
  rewrite (lookup_total_correct h init1 x0 Hx0) in Hd.
  destruct (decide (counter = times_sim_av)).
  - inversion Hd; subst. split; [|assumption].
    rewrite lookup_insert_ne by assumption. assumption.
  - apply bind_Ok in Hd as ([[times snaps] h1] & Halgo & Hd).
    destruct (gillespie_algo_first _ _ _ _ _ _ _ _ _ _ _ _ _ _ _ Halgo Hstoch)
      as (snap & Hsnap1 & Hsnap2).
    rewrite lookup_total_insert_eq in Hsnap1.
    destruct (gillespie_algo_store _ _ _ _ _ _ _ _ _ _ _ _ _ _ Halgo)
      as (_ & _ & _ & _ & xk & _ & _ & _ & _ & _ & _ & ->).
    apply (IH _ _ _ _ _) in Hd; [assumption| |].
    + rewrite !lookup_insert_ne by assumption. assumption.
    + apply Forall_app. split; [assumption|].
      apply Forall_singleton. simpl. eauto.
Qed.

Lemma trajectory_shape_witness :
  exists st stoch xs,
    gillespie_run ln_lower 0 [1%Q] sample_sub sample_prod 10 3
      half_draws half_draws (sample_store [3; 0]) = Ok st /\
    mat_add sample_sub sample_prod = Ok stoch /\
    let k := n_counter st in
    (1 <= k)%nat /\ length [Fin 0; Fin (1 # 6)] = k /\
    length [[3; 0]; [2; 1]] = k /\
    [Fin 0; Fin (1 # 6)] !! 0%nat = Some (Fin 0) /\
    length xs = S k /\ xs !! 0%nat = Some (sample_store [3; 0] !!! 0%nat) /\
    is_trajectory stoch xs /\
    Forall2 (fun x snap => assign_row (ncols stoch) x = Ok snap)
      (take k xs) [[3; 0]; [2; 1]] /\
    xs !! k = Some (sample_store [1; 2] !!! 0%nat) /\
    exists last_snap,
      assign_row (ncols stoch) (sample_store [1; 2] !!! 0%nat) = Ok last_snap /\
      store_number_molecules st !! k = Some last_snap /\
      [[3; 0]; [2; 1]] !! k = None.
Proof.
  apply (trajectory_shape ln_lower [1] 0%nat [1%Q] sample_sub sample_prod 10 3
           half_draws half_draws (sample_store [3; 0])).
  vm_compute. reflexivity.
Defined.

(** Two reactions fire, two snapshots come back, and the state after the
    second reaction is only in the cell of [init]: the returned arrays do
    not have [k + 1] entries. *)
Lemma trajectory_drops_last :
  match gillespie_run ln_lower 0 [1%Q] sample_sub sample_prod 10 3
          half_draws half_draws (sample_store [3; 0]) with
  | Ok st => n_counter st = 2%nat
  | _ => False
  end /\
  gillespie_algo ln_lower [1] 0%nat [1%Q] sample_sub sample_prod 10 3
    half_draws half_draws (sample_store [3; 0])
  = Ok ([Fin 0; Fin (1 # 6)], [[3; 0]; [2; 1]], sample_store [1; 2]) /\
  length [[3; 0]; [2; 1]] <> (2 + 1)%nat /\
  last [[3; 0]; [2; 1]] <> Some [1; 2].
Proof.
  split; [by vm_compute|]. split; [by vm_compute|]. split; [simpl; lia|].
  simpl. congruence.
Qed.

Lemma terminates_driver ln times_sim_av s_i init1 rates sub_stoch prod_stoch
    tmax n_max draws fuel : forall counter results (h : gmap nat (list Z)),
  (counter <= times_sim_av)%nat -> (times_sim_av - counter < fuel)%nat ->
  terminates (driver ln fuel times_sim_av counter s_i init1 rates sub_stoch
                prod_stoch tmax n_max draws results h).
Proof.
  induction fuel as [|fuel IH]; intros counter results h Hle Hfuel; [lia|].
  simpl. case_decide; auto with term.
  apply terminates_bind; [apply terminates_gillespie_algo|].
  intros [[times snaps] h'] _. apply IH; lia.
Qed.

(** C10: [gillespie_algo] works on the caller's array.  After a call that
    returns, the cell of [init] holds the state behind the last returned
    snapshot plus one more stoichiometry row, the last update of the loop;
    a second run on the same array starts from that state; the driver
    passes a fresh copy of [init1] to every run, so [init1] keeps its
    content and every run starts from it. *)
Theorem init_is_aliased :
  (forall ln s_i init rates sub_stoch prod_stoch tmax n_max draws1 draws2
          (h : gmap nat (list Z)) times snaps h',
     gillespie_algo ln s_i init rates sub_stoch prod_stoch tmax n_max
       draws1 draws2 h = Ok (times, snaps, h') ->
     (exists stoch xprev mu row xk last_snap,
        mat_add sub_stoch prod_stoch = Ok stoch /\
        last snaps = Some last_snap /\
        assign_row (ncols stoch) xprev = Ok last_snap /\
        stoch !! mu = Some row /\
        iadd xprev row = Ok xk /\
        h' = <[init := xk]> h) /\
     (forall s_i2 rates2 tmax2 n_max2 e1 e2 times2 snaps2 h2 stoch,
        mat_add sub_stoch prod_stoch = Ok stoch ->
        gillespie_algo ln s_i2 init rates2 sub_stoch prod_stoch tmax2 n_max2
          e1 e2 h' = Ok (times2, snaps2, h2) ->
        exists snap,
          assign_row (ncols stoch) (h' !!! init) = Ok snap /\
          snaps2 !! 0%nat = Some snap)) /\
  (forall ln fuel times_sim_av s_i init1 rates sub_stoch prod_stoch tmax n_max
          draws stoch x0 (h : gmap nat (list Z)) results h',
     mat_add sub_stoch prod_stoch = Ok stoch ->
     h !! init1 = Some x0 ->
     driver ln fuel times_sim_av 0 s_i init1 rates sub_stoch prod_stoch
       tmax n_max draws [] h = Ok (results, h') ->
     h' !! init1 = Some x0 /\
     Forall (fun r : list xnum * matrix =>
               exists snap, assign_row (ncols stoch) x0 = Ok snap /\
                            r.2 !! 0%nat = Some snap) results).
Proof.
  split.
  - intros ln s_i init rates sub_stoch prod_stoch tmax n_max draws1 draws2
      h times snaps h' Halgo. split.
    + eapply gillespie_algo_store; eauto.
    + intros s_i2 rates2 tmax2 n_max2 e1 e2 times2 snaps2 h2 stoch Hstoch H2.
      eapply gillespie_algo_first; eauto.
  - intros ln fuel times_sim_av s_i init1 rates sub_stoch prod_stoch tmax n_max
      draws stoch x0 h results h' Hstoch Hx0 Hd.
    eapply driver_copies; eauto.
Qed.

Lemma init_is_aliased_witness :
  (exists stoch xprev mu row xk last_snap,
     mat_add sample_sub sample_prod = Ok stoch /\
     last [[3; 0]; [2; 1]] = Some last_snap /\
     assign_row (ncols stoch) xprev = Ok last_snap /\
     stoch !! mu = Some row /\
     iadd xprev row = Ok xk /\
     sample_store [1; 2] = <[0%nat := xk]> (sample_store [3; 0])) /\
  (exists snap,
     assign_row (ncols [[-1; 1]]) (sample_store [1; 2] !!! 0%nat) = Ok snap /\
     [[1; 2]] !! 0%nat = Some snap) /\
  exists results h',
    driver ln_lower 3 2 0 [1] 0%nat [1%Q] sample_sub sample_prod 10 3
      (fun _ => (half_draws, half_draws)) [] (sample_store [3; 0])
    = Ok (results, h') /\
    h' !! 0%nat = Some [3; 0] /\
    Forall (fun r : list xnum * matrix =>
              exists snap, assign_row (ncols [[-1; 1]]) [3; 0] = Ok snap /\
                           r.2 !! 0%nat = Some snap) results.
Proof.
  pose proof (proj1 init_is_aliased ln_lower [1] 0%nat [1%Q] sample_sub
                sample_prod 10%Q 3%nat half_draws half_draws
                (sample_store [3; 0])
                [Fin 0; Fin (1 # 6)] [[3; 0]; [2; 1]] (sample_store [1; 2])
                ltac:(by vm_compute)) as [Hstore Hsecond].
  split; [exact Hstore|]. split.
  - apply (Hsecond [1] [1%Q] 10%Q 2%nat half_draws half_draws
             [Fin 0] [[1; 2]] (sample_store [0; 3]));
      by vm_compute.
  - eexists _, _. split; [by vm_compute|].
    eapply (proj2 init_is_aliased ln_lower 3%nat 2%nat [1] 0%nat [1%Q]
              sample_sub sample_prod 10%Q 3%nat
              (fun _ => (half_draws, half_draws)) [[-1; 1]] [3; 0]
              (sample_store [3; 0]));
      by vm_compute.
Defined.

(** ** Runs on valid inputs *)

Lemma foldl_Qplus_ge (a : list Q) : forall acc,
  Forall (fun q => (0 <= q)%Q) a ->
  (acc <= foldl Qplus acc a)%Q /\
  forall i q, a !! i = Some q -> (acc + q <= foldl Qplus acc a)%Q.
Proof.
  induction a as [|x a IH]; intros acc Ha; simpl.
  - split; [lra|]. intros i q Hq. discriminate.
  - inversion Ha as [|? ? Hx Ha']; subst.
    destruct (IH (acc + x)%Q Ha') as [H1 H2]. split; [lra|].
    intros [|i] q Hq; simpl in Hq.
    + inversion Hq; subst. assumption.
    + specialize (H2 i q Hq). lra.
Qed.

Lemma sum_nonneg (a : list Q) :
  Forall (fun q => (0 <= q)%Q) a -> (0 <= sum a)%Q.
Proof. intros Ha. apply (foldl_Qplus_ge a 0%Q Ha). Qed.

Lemma sum_ge_elem (a : list Q) i q :
  Forall (fun q => (0 <= q)%Q) a -> a !! i = Some q -> (q <= sum a)%Q.
Proof.
  intros Ha Hq. destruct (foldl_Qplus_ge a 0%Q Ha) as [_ H].
  specialize (H i q Hq). unfold sum. lra.
Qed.

Lemma inject_Z_nonneg z : 0 <= z -> (0 <= inject_Z z)%Q.
Proof. intros H. unfold Qle. simpl. lia. Qed.

Lemma inject_Z_pos_inv z c :
  (0 <= c)%Q -> (0 < inject_Z z * c)%Q -> 0 < z.
Proof.
  intros Hc Hpos. destruct (Z_lt_le_dec 0 z) as [|Hle]; [assumption|].
  exfalso. assert (Hz : (inject_Z z <= 0)%Q) by (unfold Qle; simpl; lia).
  nra.
Qed.

Lemma propensities_nonneg sub x rates M N a :
  length sub = M -> nonneg_rates rates ->
  propensities sub x rates M N = Ok a ->
  Forall (fun q => (0 <= q)%Q) a.
Proof.
  intros Hsub Hrates Ha. apply propensities_inv in Ha as [Hlen Hall].
  apply Forall_lookup. intros i q Hq.
  assert (Hi : (i < M)%nat) by (apply lookup_lt_Some in Hq; lia).
  destruct (Hall i Hi) as (hi & c & Hhi & Hc & Hai).
  rewrite Hq in Hai. inversion Hai; subst q.
  destruct (lookup_lt_is_Some_2 sub i ltac:(lia)) as [row Hrow].
  destruct (reaction_hi_inv sub x N i row hi Hrow Hhi) as [Hnn _].
  pose proof (inject_Z_nonneg hi Hnn).
  assert (Hcn : (0 <= c)%Q) by (eapply (proj1 (Forall_lookup _ _) Hrates); eauto).
  nra.
Qed.

(** The selected reaction has a positive propensity. *)
Lemma selected_positive (a : list Q) (t : Q) mu q :
  (0 < t)%Q -> a !! mu = Some q ->
  (t <= partial_sum a mu)%Q ->
  (forall i, (i < mu)%nat -> (partial_sum a i < t)%Q) ->
  (0 < q)%Q.
Proof.
  intros Ht Hq Hge Hlt. destruct mu as [|m].
  - destruct a as [|x a]; [discriminate|]. simpl in Hq. inversion Hq; subst.
    unfold partial_sum, sum in Hge. simpl in Hge.
    try rewrite take_0 in Hge. simpl in Hge. lra.
  - rewrite (partial_sum_S a m q Hq) in Hge.
    specialize (Hlt m ltac:(lia)). lra.
Qed.

Lemma mat_add_Ok A B C :
  mat_add A B = Ok C ->
  C = zip_with (zip_with Z.add) A B /\ length <$> A = length <$> B.
Proof. unfold mat_add. case_decide; inversion 1; auto. Qed.

Lemma mat_shape_lookup M N (m : matrix) i row :
  mat_shape M N m -> m !! i = Some row -> length row = N.
Proof.
  intros [_ Hrows] Hrow. eapply (proj1 (Forall_lookup _ _) Hrows); eauto.
Qed.

Lemma valid_network_stoch M N sub prod stoch :
  valid_network M N sub prod -> mat_add sub prod = Ok stoch ->
  length stoch = M /\ ncols stoch = N /\
  forall mu row, stoch !! mu = Some row ->
    exists srow prow,
      sub !! mu = Some srow /\ prod !! mu = Some prow /\
      row = zip_with Z.add srow prow /\
      length srow = N /\ length prow = N.
Proof.
  intros (HM & Hsub & Hprod & _ & _) Hadd.
  apply mat_add_Ok in Hadd as [-> _].
  assert (Hrows : forall mu row,
             zip_with (zip_with Z.add) sub prod !! mu = Some row ->
             exists srow prow,
               sub !! mu = Some srow /\ prod !! mu = Some prow /\
               row = zip_with Z.add srow prow /\
               length srow = N /\ length prow = N).
  { intros mu row Hrow.
    apply lookup_zip_with_Some in Hrow as (srow & prow & -> & Hs & Hp).
    exists srow, prow. repeat split; eauto using mat_shape_lookup. }
  destruct Hsub as [Hls Hsub], Hprod as [Hlp Hprod].
  split; [rewrite length_zip_with; lia|]. split; [|assumption].
  destruct sub as [|srow sub]; [simpl in Hls; lia|].
  destruct prod as [|prow prod]; [simpl in Hlp; lia|].
  simpl. inversion Hsub; inversion Hprod; subst.
  rewrite length_zip_with. lia.
Qed.

Lemma iadd_same_length x row x' :
  length row = length x -> iadd x row = Ok x' -> x' = zip_with Z.add x row.
Proof. unfold iadd. intros H. case_decide; [by inversion 1|lia]. Qed.

Lemma assign_row_same_length N x : length x = N -> assign_row N x = Ok x.
Proof. unfold assign_row. intros H. case_decide; [reflexivity|lia]. Qed.

Section ValidStep.
Variable ln : Q -> Q.
Variables (M N : nat) (sub_stoch prod_stoch stoch : matrix) (rates : list Q).
Hypothesis Hnet : valid_network M N sub_stoch prod_stoch.
Hypothesis Hstoch : mat_add sub_stoch prod_stoch = Ok stoch.
Hypothesis Hrates : nonneg_rates rates.

(** With a positive total propensity the waiting time is finite and the
    reaction that fires leaves every count non-negative. *)
Lemma feasible_step (x : list Z) a u1 u2 dt mu row x' :
  Forall (fun v => 0 <= v) x -> length x = N ->
  propensities sub_stoch x rates M N = Ok a ->
  (0 < sum a)%Q ->
  (0 < u1)%Q -> (u1 < 1)%Q -> (0 < u2)%Q -> (u2 < 1)%Q ->
  next_values ln (sum a) a u1 u2 = Ok (dt, mu) ->
  stoch !! mu = Some row ->
  iadd x row = Ok x' ->
  (exists t, dt = Fin t) /\
  Forall (fun v => 0 <= v) x' /\ length x' = N /\
  x' = zip_with Z.add x row.
Proof.
  intros Hx Hlx Ha Hpos Hu1 Hu1' Hu2 Hu2' Hnext Hrow Hadd.
  pose proof Hnet as (HM & Hsub & Hprod & Hneg & Hnonneg).
  destruct (propensities_inv _ _ _ _ _ _ Ha) as [Hla Hall].
  destruct (next_values_select ln (sum a) a u1 u2) as (mu' & Hsel & Hmu & Hge & Hlt);
    try assumption; try lia; try reflexivity.
  rewrite Hsel in Hnext. inversion Hnext; subst dt mu'. clear Hnext.
  split; [eauto|].
  destruct (Hall mu ltac:(lia)) as (hi & c & Hhi & Hc & Hamu).
  assert (Hq : (0 < inject_Z hi * c)%Q).
  { eapply (selected_positive a (u2 * sum a)%Q mu); eauto. nra. }
  assert (Hcn : (0 <= c)%Q) by (eapply (proj1 (Forall_lookup _ _) Hrates); eauto).
  pose proof (inject_Z_pos_inv hi c Hcn Hq) as Hhipos.
  destruct (valid_network_stoch _ _ _ _ _ Hnet Hstoch) as (_ & _ & Hrows).
  destruct (Hrows mu row Hrow) as (srow & prow & Hsrow & Hprow & -> & Hls & Hlp).
  destruct (reaction_hi_inv sub_stoch x N mu srow hi Hsrow Hhi) as [_ Hsuf].
  specialize (Hsuf Hhipos).
  apply iadd_same_length in Hadd; [|rewrite length_zip_with; lia].
  subst x'. split; [|split; [|reflexivity]].
  - apply Forall_lookup. intros j v Hv.
    apply lookup_zip_with_Some in Hv as (xj & rj & -> & Hxj & Hrj).
    apply lookup_zip_with_Some in Hrj as (sj & pj & -> & Hsj & Hpj).
    assert (0 <= xj) by (eapply (proj1 (Forall_lookup _ _) Hx); eauto).
    assert (sj <= 0).
    { eapply (proj1 (Forall_lookup _ _)
                (proj1 (Forall_lookup _ _) Hneg mu srow Hsrow)); eauto. }
    assert (0 <= pj).
    { eapply (proj1 (Forall_lookup _ _)
                (proj1 (Forall_lookup _ _) Hnonneg mu prow Hprow)); eauto. }
    destruct (decide (sj = 0)) as [->|Hne]; [lia|].
    destruct (Hsuf j sj) as (xj' & Hxj' & Hle); auto.
    { apply lookup_lt_Some in Hsj. lia. }
    rewrite Hxj in Hxj'. inversion Hxj'; subst. lia.
  - rewrite !length_zip_with. lia.
Qed.

(** With every propensity at zero the scheduler is still called: it
    returns an infinite waiting time and reaction 0. *)
Lemma absorbed_next_values (a : list Q) u1 u2 :
  log_like ln ->
  Forall (fun q => (0 <= q)%Q) a -> (1 <= length a)%nat ->
  (sum a == 0)%Q ->
  (0 < u1)%Q -> (u1 < 1)%Q ->
  next_values ln (sum a) a u1 u2 = Ok (PInf, 0%nat).
Proof.
  intros Hln Ha Hlen Hzero Hu1 Hu1'. unfold next_values.
  assert (Hdt : xmul (qdiv 1 (sum a)) (xlog ln (qdiv 1 u1)) = PInf).
  { unfold qdiv. rewrite (Qeq_eq_bool _ _ Hzero).
    destruct (Qeq_bool u1 0) eqn:E1;
      [apply Qeq_bool_iff in E1; exfalso; lra|].
    assert (Hinv : (1 < 1 / u1)%Q) by (apply Qlt_shift_div_l; lra).
    simpl. assert (H0 : (0 < 1 / u1)%Q) by lra.
    apply Qlt_bool_iff in H0. rewrite H0.
    change (signed_inf 1) with PInf. simpl. unfold signed_inf.
    pose proof (Hln _ Hinv) as Hl. apply Qlt_bool_iff in Hl. by rewrite Hl. }
  rewrite Hdt. destruct a as [|x a']; [simpl in Hlen; lia|].
  change (index (x :: a') 0) with (Ok x).
  change (mbind ?f (Ok x)) with (f x). cbv beta.
  assert (Hx : (x == 0)%Q).
  { pose proof (sum_ge_elem (x :: a') 0 x Ha eq_refl).
    inversion Ha; subst. lra. }
  assert (HN : Qlt_bool 0 (u2 * sum (x :: a') - x) = false).
  { apply Qlt_bool_false. rewrite Hzero, Hx. lra. }
  simpl select_reaction. rewrite HN. reflexivity.
Qed.
End ValidStep.

Lemma random_sample_lookup draws n_max i u :
  random_sample draws n_max !! i = Some u -> (i < n_max)%nat /\ u = draws i.
Proof.
  unfold random_sample. rewrite list_lookup_fmap. intros H.
  destruct (seq 0 n_max !! i) as [k|] eqn:Hk; [|discriminate].
  apply lookup_seq in Hk as [-> Hi]. simpl in H. inversion H. auto.
Qed.

Lemma log_like_ln_lower : log_like ln_lower.
Proof.
  intros x Hx. unfold ln_lower.
  assert (H : (1 / x < 1)%Q) by (apply Qlt_shift_div_r; lra). lra.
Qed.

Section ValidRun.
Variable ln : Q -> Q.
Variables (init M N : nat) (rates : list Q).
Variables (sub_stoch prod_stoch stoch : matrix).
Variables (tmax : Q) (n_max : nat) (draws1 draws2 : nat -> Q).
Hypothesis Hln : log_like ln.
Hypothesis Hnet : valid_network M N sub_stoch prod_stoch.
Hypothesis Hstoch : mat_add sub_stoch prod_stoch = Ok stoch.
Hypothesis Hrates : nonneg_rates rates.

(** One turn keeps the invariant when the two draws it consumes lie in
    (0,1). *)
Lemma safe_inv_step st st' :
  safe_inv init N n_max st ->
  loop_cond tmax n_max st = true ->
  (0 < draws1 (n_counter st))%Q -> (draws1 (n_counter st) < 1)%Q ->
  (0 < draws2 (n_counter st))%Q -> (draws2 (n_counter st) < 1)%Q ->
  loop_body ln init rates sub_stoch stoch
    (random_sample draws1 n_max) (random_sample draws2 n_max) st = Ok st' ->
  safe_inv init N n_max st'.
Proof.
  intros (Hlm & Hn & Hsnaps & Hcur) Hcond Hu1 Hu1' Hu2 Hu2' Hbody.
  apply loop_body_inv in Hbody
    as (a & u1 & u2 & dt & mu & row & x' & snap & Hprop & Hr1 & Hr2 & _
        & Hnext & Hrow & Hadd & Hassign & _ & Hlt2 & ->).
  destruct Hcur as [([t Ht] & Hx & Hlx & Hstore)|Hinf];
    [|unfold loop_cond in Hcond; rewrite Hinf in Hcond; discriminate].
  destruct (valid_network_stoch _ _ _ _ _ Hnet Hstoch) as (HlM & HlN & Hrows).
  rewrite HlM, HlN in Hprop. rewrite HlN in Hassign.
  apply random_sample_lookup in Hr1 as [Hi ->].
  apply random_sample_lookup in Hr2 as [_ ->].
  pose proof Hnet as (HM & [Hlsub _] & _).
  pose proof (propensities_nonneg _ _ _ _ _ _ Hlsub Hrates Hprop) as Hann.
  assert (Hbelow : forall i s, (i < S (n_counter st))%nat ->
            <[S (n_counter st) := snap]> (store_number_molecules st) !! i = Some s ->
            Forall (fun v => 0 <= v) s).
  { intros i s Hi' Hs. rewrite list_lookup_insert_ne in Hs by lia.
    destruct (decide (i = n_counter st)) as [->|Hne].
    - rewrite Hstore in Hs. inversion Hs; subst. assumption.
    - apply (Hsnaps i); [lia|assumption]. }
  unfold safe_inv; simpl. rewrite length_insert, lookup_total_insert_eq.
  split; [assumption|]. split; [lia|]. split; [assumption|].
  destruct (Qlt_le_dec 0 (sum a)) as [Hpos|Hzero].
  - destruct (feasible_step ln M N sub_stoch prod_stoch stoch rates Hnet Hstoch
                Hrates _ a _ _ dt mu row x' Hx Hlx Hprop Hpos Hu1 Hu1' Hu2 Hu2'
                Hnext Hrow Hadd) as ([t' ->] & Hx' & Hlx' & _).
    rewrite (assign_row_same_length N x' Hlx') in Hassign.
    inversion Hassign; subst snap. left. rewrite Ht. simpl.
    repeat split; eauto. apply list_lookup_insert_eq. lia.
  - pose proof (sum_nonneg a Hann) as Hnn.
    assert (Heq0 : (sum a == 0)%Q) by lra.
    destruct (propensities_inv _ _ _ _ _ _ Hprop) as [Hla _].
    rewrite (absorbed_next_values ln a _ _ Hln Hann ltac:(lia) Heq0 Hu1 Hu1')
      in Hnext.
    inversion Hnext; subst dt mu. right. by rewrite Ht.
Qed.

Lemma loop_counter_mono r1 r2 fuel st st' :
  gillespie_loop ln init rates sub_stoch stoch tmax n_max r1 r2 fuel st
    = Ok st' ->
  (n_counter st <= n_counter st')%nat.
Proof.
  intros Hloop.
  apply (gillespie_loop_ind ln init rates sub_stoch stoch tmax n_max r1 r2
           (fun s => (n_counter st <= n_counter s)%nat) ) in Hloop as [H _];
    [exact H| |lia].
  intros s s' Hs _ Hbody.
  apply loop_body_inv in Hbody
    as (? & ? & ? & ? & ? & ? & ? & ? & _ & _ & _ & _ & _ & _ & _ & _ & _ & _ & ->).
  simpl. lia.
Qed.

(** The draws a run consumes are those below the final counter. *)
Lemma safe_inv_loop fuel : forall st st',
  gillespie_loop ln init rates sub_stoch stoch tmax n_max
    (random_sample draws1 n_max) (random_sample draws2 n_max) fuel st
    = Ok st' ->
  safe_inv init N n_max st ->
  unit_draws draws1 (n_counter st') -> unit_draws draws2 (n_counter st') ->
  safe_inv init N n_max st'.
Proof.
  induction fuel as [|fuel IH]; intros st st' Hloop Hinv Hd1 Hd2;
    simpl in Hloop; destruct (loop_cond tmax n_max st) eqn:Hc;
    try discriminate; try (inversion Hloop; subst; assumption).
  apply bind_Ok in Hloop as (st1 & Hbody & Hloop).
  pose proof (loop_counter_mono _ _ _ _ _ Hloop) as Hmono.
  assert (Hn1 : n_counter st1 = S (n_counter st)).
  { apply loop_body_inv in Hbody
      as (? & ? & ? & ? & ? & ? & ? & ? & _ & _ & _ & _ & _ & _ & _ & _ & _ & _ & ->).
    reflexivity. }
  destruct (Hd1 (n_counter st) ltac:(lia)) as [Hu1 Hu1'].
  destruct (Hd2 (n_counter st) ltac:(lia)) as [Hu2 Hu2'].
  eapply IH; eauto using safe_inv_step.
Qed.

Lemma safe_inv_run (h : gmap nat (list Z)) st :
  Forall (fun v => 0 <= v) (h !!! init) -> length (h !!! init) = N ->
  unit_draws draws1 (n_counter st) -> unit_draws draws2 (n_counter st) ->
  gillespie_run ln init rates sub_stoch prod_stoch tmax n_max draws1 draws2 h
    = Ok st ->
  safe_inv init N n_max st.
Proof.
  intros Hx Hlx Hd1 Hd2 Hrun. unfold gillespie_run in Hrun.
  rewrite Hstoch in Hrun. simpl mbind in Hrun.
  destruct (valid_network_stoch _ _ _ _ _ Hnet Hstoch) as (_ & HlN & _).
  rewrite HlN in Hrun.
  apply bind_Ok in Hrun as (st_time & Htime & Hrun).
  rewrite (assign_row_same_length N _ Hlx) in Hrun. simpl mbind in Hrun.
  apply bind_Ok in Hrun as (st_mol & Hmol & Hrun).
  apply set_item_Ok in Hmol as [Hlt ->]. rewrite length_replicate in Hlt.
  eapply safe_inv_loop; eauto.
  unfold safe_inv; simpl. rewrite length_insert, length_replicate.
  split; [reflexivity|]. split; [lia|]. split; [intros i s Hi; lia|].
  left. repeat split; eauto. apply list_lookup_insert_eq.
  by rewrite length_replicate.
Qed.
End ValidRun.


Lemma valid_sample_network : valid_network 1 2 sample_sub sample_prod.
Proof.
  unfold valid_network, mat_shape, sample_sub, sample_prod.
  repeat split; repeat constructor; lia.
Qed.

Lemma unit_half_draws n_max : unit_draws half_draws n_max.
Proof. intros i _. split; reflexivity. Qed.


(** C2 (amended): the loop has no test for [a0 == 0].  In a turn where all
    propensities are zero [next_values] is called all the same, divides by
    [a0], and returns an infinite waiting time and reaction 0; the row of
    reaction 0 is added to the state vector; only then does the loop end,
    because the clock is at infinity. *)
Theorem absorption_step ln init M N rates sub_stoch prod_stoch stoch tmax n_max
    r1 r2 st a u1 u2 t :
  log_like ln ->
  valid_network M N sub_stoch prod_stoch ->
  mat_add sub_stoch prod_stoch = Ok stoch ->
  nonneg_rates rates ->
  length (heap st !!! init) = N ->
  current_time st = Fin t ->
  (S (n_counter st) < length (store_time st))%nat ->
  (S (n_counter st) < length (store_number_molecules st))%nat ->
  propensities sub_stoch (heap st !!! init) rates M N = Ok a ->
  (sum a == 0)%Q ->
  r1 !! n_counter st = Some u1 -> r2 !! n_counter st = Some u2 ->
  (0 < u1)%Q -> (u1 < 1)%Q ->
  exists row,
    stoch !! 0%nat = Some row /\
    next_values ln (sum a) a u1 u2 = Ok (PInf, 0%nat) /\
    let x' := zip_with Z.add (heap st !!! init) row in
    let st' :=
      LoopState PInf (S (n_counter st))
        (<[S (n_counter st) := PInf]> (store_time st))
        (<[S (n_counter st) := x']> (store_number_molecules st))
        (<[init := x']> (heap st)) in
    loop_body ln init rates sub_stoch stoch r1 r2 st = Ok st' /\
    forall fuel,
      gillespie_loop ln init rates sub_stoch stoch tmax n_max r1 r2 fuel st'
      = Ok st'.
Proof.
  intros Hln Hnet Hstoch Hrates Hlx Ht Hlt1 Hlt2 Hprop Hzero Hu1 Hu2 Hpos Hlt.
  destruct (valid_network_stoch _ _ _ _ _ Hnet Hstoch) as (HlM & HlN & Hrows).
  pose proof Hnet as (HM & [Hlsub _] & _).
  destruct (lookup_lt_is_Some_2 stoch 0 ltac:(lia)) as [row Hrow].
  destruct (Hrows 0%nat row Hrow) as (srow & prow & _ & _ & Hrw & Hls & Hlp).
  assert (Hlrow : length row = N) by (subst row; rewrite length_zip_with; lia).
  pose proof (propensities_nonneg _ _ _ _ _ _ Hlsub Hrates Hprop) as Hann.
  destruct (propensities_inv _ _ _ _ _ _ Hprop) as [Hla _].
  pose proof (absorbed_next_values ln a u1 u2 Hln Hann ltac:(lia) Hzero Hpos Hlt)
    as Hnext.
  exists row. split; [assumption|]. split; [assumption|]. cbv zeta. split.
  - unfold loop_body. rewrite HlM, HlN, Hprop. simpl mbind.
    rewrite (index_Some _ _ _ Hu1), (index_Some _ _ _ Hu2). simpl mbind.
    destruct (decide (M = 0%nat)); [lia|]. rewrite Hnext. simpl mbind.
    rewrite (index_Some _ _ _ Hrow). simpl mbind.
    unfold iadd. destruct (decide (length row = length (heap st !!! init)));
      [|lia]. simpl mbind.
    rewrite (set_item_lt _ _ _ Hlt1). simpl mbind.
    rewrite assign_row_same_length by (rewrite length_zip_with; lia).
    simpl mbind. rewrite (set_item_lt _ _ _ Hlt2). simpl mbind.
    by rewrite Ht.
  - intros [|fuel]; reflexivity.
Qed.

Lemma absorption_step_witness :
  exists row,
    [[-1; 1]] !! 0%nat = Some row /\
    next_values ln_lower (sum [0%Q]) [0%Q] (1 # 2) (1 # 2) = Ok (PInf, 0%nat) /\
    let x' := zip_with Z.add (heap (sample_entry [0; 0]) !!! 0%nat) row in
    let st' :=
      LoopState PInf 1 (<[1%nat := PInf]> (store_time (sample_entry [0; 0])))
        (<[1%nat := x']> (store_number_molecules (sample_entry [0; 0])))
        (<[0%nat := x']> (heap (sample_entry [0; 0]))) in
    loop_body ln_lower 0 [1%Q] sample_sub [[-1; 1]]
      (random_sample half_draws 3) (random_sample half_draws 3)
      (sample_entry [0; 0]) = Ok st' /\
    forall fuel,
      gillespie_loop ln_lower 0 [1%Q] sample_sub [[-1; 1]] 10 3
        (random_sample half_draws 3) (random_sample half_draws 3) fuel st'
      = Ok st'.
Proof.
  apply (absorption_step ln_lower 0%nat 1 2 [1%Q] sample_sub sample_prod
           [[-1; 1]] 10 3 (random_sample half_draws 3)
           (random_sample half_draws 3) (sample_entry [0; 0]) [0%Q]
           (1 # 2) (1 # 2) 0
           log_like_ln_lower valid_sample_network);
    first [ by vm_compute | repeat constructor; by vm_compute | simpl; lia ].
Defined.

(** A run that starts absorbed: no molecule of [X1], so [a0 = 0] in the
    first turn.  The scheduler is called, and the caller's array comes back
    as [[-1; 1]]: reaction 0 has been applied to it. *)
Lemma absorbed_state_is_updated :
  propensities sample_sub [0; 0] [1%Q] 1 2 = Ok [0%Q] /\
  next_values ln_lower (sum [0%Q]) [0%Q] (1 # 2) (1 # 2) = Ok (PInf, 0%nat) /\
  match loop_body ln_lower 0 [1%Q] sample_sub [[-1; 1]]
          (random_sample half_draws 3) (random_sample half_draws 3)
          (sample_entry [0; 0]) with
  | Ok st' => heap st' !!! 0%nat = [-1; 1] /\ current_time st' = PInf
  | _ => False
  end /\
  gillespie_algo ln_lower [1] 0%nat [1%Q] sample_sub sample_prod 10 3
    half_draws half_draws (sample_store [0; 0])
  = Ok ([Fin 0], [[0; 0]], sample_store [-1; 1]).
Proof. repeat split; by vm_compute. Qed.

(** ** Splitting strings *)

Lemma prefix_b_app (p s : list ascii) : prefix_b p (p ++ s) = true.
Proof.
  induction p as [|a p IH]; simpl; [reflexivity|].
  by rewrite Ascii.eqb_refl, IH.
Qed.

Lemma split_go_skip sep (pre s : list ascii) :
  split_go sep (length pre) (pre ++ s) = split_go sep 0 s.
Proof.
  induction pre as [|c pre IH]; simpl; [|exact IH].
  by destruct s.
Qed.

(** A token that does not contain the first character of the separator is
    read up to the separator, or up to the end. *)
Lemma split_go_token c0 sep' (t rest : list ascii) :
  c0 ∉ t ->
  split_go (c0 :: sep') 0 (t ++ (c0 :: sep') ++ rest)
  = (t, (split_go (c0 :: sep') 0 rest).1 :: (split_go (c0 :: sep') 0 rest).2).
Proof.
  induction t as [|c t IH]; intros Hnot.
  - change ([] ++ (c0 :: sep') ++ rest) with (c0 :: (sep' ++ rest)).
    cbn [split_go].
    change (c0 :: (sep' ++ rest)) with ((c0 :: sep') ++ rest).
    rewrite prefix_b_app.
    replace (length (c0 :: sep') - 1)%nat with (length sep') by (simpl; lia).
    rewrite split_go_skip. by destruct (split_go (c0 :: sep') 0 rest).
  - apply not_elem_of_cons in Hnot as [Hne Hnot].
    change ((c :: t) ++ (c0 :: sep') ++ rest)
      with (c :: (t ++ (c0 :: sep') ++ rest)).
    cbn [split_go prefix_b].
    assert (Heqb : Ascii.eqb c0 c = false) by (apply Ascii.eqb_neq; congruence).
    rewrite Heqb. cbn [andb]. by rewrite (IH Hnot).
Qed.

Lemma split_go_last c0 sep' (t : list ascii) :
  c0 ∉ t -> split_go (c0 :: sep') 0 t = (t, []).
Proof.
  induction t as [|c t IH]; intros Hnot; [reflexivity|].
  apply not_elem_of_cons in Hnot as [Hne Hnot].
  cbn [split_go prefix_b].
  assert (Heqb : Ascii.eqb c0 c = false) by (apply Ascii.eqb_neq; congruence).
  rewrite Heqb. cbn [andb]. by rewrite (IH Hnot).
Qed.

Lemma split_token sep c0 sep' (t rest : list ascii) :
  list_ascii_of_string sep = c0 :: sep' -> c0 ∉ t ->
  split sep (t ++ (c0 :: sep') ++ rest) = t :: split sep rest.
Proof.
  intros Hsep Hnot. unfold split. rewrite Hsep.
  rewrite (split_go_token c0 sep' t rest Hnot).
  by destruct (split_go (c0 :: sep') 0 rest).
Qed.

Lemma split_last sep c0 sep' (t : list ascii) :
  list_ascii_of_string sep = c0 :: sep' -> c0 ∉ t -> split sep t = [t].
Proof.
  intros Hsep Hnot. unfold split. rewrite Hsep.
  by rewrite (split_go_last c0 sep' t Hnot).
Qed.

(** Splitting what [join] has put together gives the pieces back. *)
Lemma split_join sep c0 sep' (l : list (list ascii)) :
  list_ascii_of_string sep = c0 :: sep' ->
  l <> [] -> Forall (fun t => c0 ∉ t) l ->
  split sep (join (c0 :: sep') l) = l.
Proof.
  intros Hsep Hne Hall. induction Hall as [|t l Ht Hall IH]; [congruence|].
  destruct l as [|t' l].
  - simpl. by apply (split_last sep c0 sep').
  - change (join (c0 :: sep') (t :: t' :: l))
      with (t ++ (c0 :: sep') ++ join (c0 :: sep') (t' :: l)).
    rewrite (split_token sep c0 sep') by assumption.
    f_equal. apply IH. discriminate.
Qed.

(** ** Digit strings *)

Lemma forallb_Forall {A} (f : A -> bool) l :
  forallb f l = true <-> Forall (fun x => f x = true) l.
Proof.
  induction l as [|x l IH]; simpl.
  - split; auto.
  - rewrite andb_true_iff, IH. split.
    + intros [H1 H2]. by constructor.
    + inversion 1; auto.
Qed.

Lemma digits_no_char (s : list ascii) c :
  forallb is_digit s = true -> is_digit c = false -> c ∉ s.
Proof.
  intros Hs Hc Hin. apply forallb_Forall in Hs.
  rewrite Forall_forall in Hs. specialize (Hs c Hin). congruence.
Qed.

Lemma is_digit_not_space c : is_digit c = true -> is_space c = false.
Proof.
  unfold is_digit, is_space. intros H.
  apply andb_true_iff in H as [H1 H2].
  apply Nat.leb_le in H1, H2.
  destruct (Nat.leb_spec 9 (nat_of_ascii c)), (Nat.leb_spec (nat_of_ascii c) 13),
    (Nat.leb_spec 28 (nat_of_ascii c)), (Nat.leb_spec (nat_of_ascii c) 32);
    simpl; try reflexivity; lia.
Qed.

Lemma lstrip_digits (s : list ascii) :
  forallb is_digit s = true -> lstrip s = s.
Proof.
  destruct s as [|c s]; [reflexivity|]. simpl. intros H.
  apply andb_true_iff in H as [Hc _].
  by rewrite (is_digit_not_space c Hc).
Qed.

Lemma strip_digits (s : list ascii) :
  forallb is_digit s = true -> strip s = s.
Proof.
  intros H. unfold strip. rewrite (lstrip_digits s H).
  rewrite lstrip_digits; [apply rev_involutive|].
  apply forallb_Forall. apply forallb_Forall in H.
  rewrite Forall_forall in *. intros c Hc. apply H.
  apply list_elem_of_In. apply list_elem_of_In in Hc. by apply in_rev.
Qed.

Lemma parse_digits_digits (s : list ascii) :
  forallb is_digit s = true ->
  forall acc prev, s <> [] \/ prev = true ->
    parse_digits acc prev s
    = Some (foldl (fun a c => 10 * a + digit_val c) acc s).
Proof.
  induction s as [|c s IH]; intros H acc prev Hne; simpl.
  - destruct Hne as [Hne| ->]; [congruence|reflexivity].
  - simpl in H. apply andb_true_iff in H as [Hc Hs].
    rewrite Hc. apply IH; auto.
Qed.

Lemma py_int_digits (s : list ascii) :
  s <> [] -> forallb is_digit s = true -> py_int s = Ok (digits_value s).
Proof.
  intros Hne H. unfold py_int. rewrite (strip_digits s H).
  destruct s as [|c s]; [congruence|].
  assert (Hc : is_digit c = true) by (simpl in H; by apply andb_true_iff in H as [? _]).
  assert (Hm : Ascii.eqb c "-" = false).
  { apply Ascii.eqb_neq. intros ->. discriminate. }
  assert (Hp : Ascii.eqb c "+" = false).
  { apply Ascii.eqb_neq. intros ->. discriminate. }
  rewrite Hm, Hp.
  rewrite (parse_digits_digits (c :: s) H) by (left; discriminate).
  unfold digits_value. f_equal. lia.
Qed.

Lemma isdigit_digits (s : list ascii) :
  forallb is_digit s = true -> isdigit s = match s with [] => false | _ => true end.
Proof. destruct s; [reflexivity|]. intros H. exact H. Qed.

(** ** Parsing the terms of the grammar *)

Lemma parse_term_render (t : term) total :
  wf_term t ->
  parse_term (render_term t) total
  = Ok (Some (term_coef t, term_species t), Z.max total (term_species t)).
Proof.
  intros (Hc & _ & _ & Hne & Hs & _ & _). unfold parse_term, render_term.
  change (coef_txt t ++ "X"%char :: species_txt t)
    with (coef_txt t ++ ["X"%char] ++ species_txt t).
  rewrite (split_token "X" "X"%char [] (coef_txt t) (species_txt t) eq_refl)
    by (apply digits_no_char; auto).
  rewrite (split_last "X" "X"%char [] (species_txt t) eq_refl)
    by (apply digits_no_char; auto).
  cbn [hd]. rewrite (isdigit_digits _ Hc).
  assert (Hcoef : (if match coef_txt t with [] => false | _ => true end
                   then py_int (coef_txt t) else Ok 1) = Ok (term_coef t)).
  { unfold term_coef. destruct (coef_txt t) as [|c d] eqn:E; [reflexivity|].
    apply py_int_digits; [discriminate|assumption]. }
  rewrite Hcoef. simpl mbind.
  rewrite (py_int_digits _ Hne Hs). simpl mbind.
  unfold term_species. do 2 f_equal.
  destruct (Z.ltb_spec total (digits_value (species_txt t))); lia.
Qed.

Lemma char_not_in_term c (t : term) :
  wf_term t -> is_digit c = false -> c <> "X"%char -> c ∉ render_term t.
Proof.
  intros (Hc & _ & _ & _ & Hs & _ & _) Hd HX. unfold render_term.
  rewrite elem_of_app, elem_of_cons. intros [Hin|[Heq|Hin]].
  - by apply (digits_no_char _ c Hc Hd).
  - congruence.
  - by apply (digits_no_char _ c Hs Hd).
Qed.

Lemma char_not_in_join c c' (l : list (list ascii)) :
  c <> c' -> Forall (fun t => c ∉ t) l -> c ∉ join [c'] l.
Proof.
  intros Hne Hall. induction Hall as [|t l Ht Hall IH]; simpl.
  - apply not_elem_of_nil.
  - destruct l as [|t' l]; [assumption|].
    rewrite elem_of_app, elem_of_cons. intros [Hin|[Heq|Hin]]; auto.
Qed.

Lemma char_not_in_side c (s : list term) :
  Forall wf_term s -> is_digit c = false -> c <> "X"%char -> c <> "+"%char ->
  c ∉ render_side s.
Proof.
  intros Hs Hd HX Hplus. unfold render_side.
  apply char_not_in_join; [assumption|].
  apply Forall_fmap. eapply Forall_impl; [exact Hs|].
  intros t Ht. simpl. by apply char_not_in_term.
Qed.

Lemma char_not_in_reaction c (r : list term * list term) :
  Forall wf_term r.1 -> Forall wf_term r.2 ->
  is_digit c = false -> c <> "X"%char -> c <> "+"%char ->
  c <> "-"%char -> c <> ">"%char ->
  c ∉ render_reaction r.
Proof.
  intros H1 H2 Hd HX Hplus Hminus Hgt. unfold render_reaction.
  rewrite elem_of_app, !elem_of_cons. intros [Hin|[Heq|[Heq|Hin]]]; try congruence.
  - by apply (char_not_in_side c r.1).
  - by apply (char_not_in_side c r.2).
Qed.

Lemma parse_side_render (terms : list term) :
  Forall wf_term terms ->
  forall acc total,
    parse_side (render_term <$> terms) acc total
    = Ok (acc ++ entries_of terms,
          foldl (fun m t => Z.max m (term_species t)) total terms).
Proof.
  induction 1 as [|t terms Ht Hterms IH]; intros acc total; simpl.
  - by rewrite app_nil_r.
  - rewrite (parse_term_render t total Ht). simpl mbind.
    rewrite IH. by rewrite <- List.app_assoc.
Qed.

Lemma split_side (s : list term) :
  wf_side s -> split "+" (render_side s) = render_term <$> s.
Proof.
  intros (Hne & Hwf & _). unfold render_side.
  apply (split_join "+" "+"%char []); [reflexivity| |].
  - destruct s; [congruence|discriminate].
  - apply Forall_fmap. eapply Forall_impl; [exact Hwf|].
    intros t Ht. simpl. apply char_not_in_term; auto; discriminate.
Qed.

Lemma parse_sides_render (sides : list (list term)) :
  Forall wf_side sides ->
  forall acc total,
    parse_sides (split "+" <$> (render_side <$> sides)) acc total
    = Ok (acc ++ (entries_of <$> sides), max_species sides total).
Proof.
  induction 1 as [|s sides Hs Hsides IH]; intros acc total; simpl.
  - by rewrite app_nil_r.
  - rewrite (split_side s Hs).
    destruct Hs as (Hne & Hwf & _).
    rewrite (parse_side_render s Hwf). simpl mbind.
    assert (Hlen : (1 <= length (entries_of s))%nat).
    { unfold entries_of. rewrite length_fmap.
      destruct s; [congruence|simpl; lia]. }
    cbn [app]. destruct (decide (1 <= length (entries_of s))%nat); [|lia].
    rewrite IH. simpl. by rewrite <- List.app_assoc.
Qed.

Lemma split_reaction (r : list term * list term) :
  wf_side r.1 -> wf_side r.2 ->
  split "->" (render_reaction r) = [render_side r.1; render_side r.2].
Proof.
  intros (_ & H1 & _) (_ & H2 & _). unfold render_reaction.
  change (render_side r.1 ++ "-"%char :: ">"%char :: render_side r.2)
    with (render_side r.1 ++ ["-"%char; ">"%char] ++ render_side r.2).
  rewrite (split_token "->" "-"%char [">"%char] _ _ eq_refl)
    by (apply char_not_in_side; auto; discriminate).
  rewrite (split_last "->" "-"%char [">"%char] _ eq_refl)
    by (apply char_not_in_side; auto; discriminate).
  reflexivity.
Qed.

Lemma split_arrows_render (net : list (list term * list term)) :
  Forall (fun r => wf_side r.1 /\ wf_side r.2) net ->
  forall subs prods,
    split_arrows (render_reaction <$> net) subs prods
    = Ok (subs ++ (render_side <$> (fst <$> net)),
          prods ++ (render_side <$> (snd <$> net))).
Proof.
  induction 1 as [|r net [H1 H2] Hnet IH]; intros subs prods; simpl.
  - by rewrite !app_nil_r.
  - rewrite (split_reaction r H1 H2). simpl mbind.
    rewrite IH. by rewrite <- !List.app_assoc.
Qed.

Lemma split_network (net : list (list term * list term)) :
  wf_network net ->
  split "," (join [","%char] (render_reaction <$> net)) = render_reaction <$> net.
Proof.
  intros [Hne Hwf].
  apply (split_join "," ","%char []); [reflexivity| |].
  - destruct net; [congruence|discriminate].
  - apply Forall_fmap. eapply Forall_impl; [exact Hwf|].
    intros r [(_ & H1 & _) (_ & H2 & _)]. simpl.
    apply char_not_in_reaction; auto; discriminate.
Qed.

(** ** Filling the matrices *)

Lemma count_app (p q : list term) k : count (p ++ q) k = count p k + count q k.
Proof.
  unfold count. induction p as [|t p IH]; simpl; [reflexivity|].
  rewrite IH. lia.
Qed.

Lemma count_absent (p : list term) k :
  k ∉ term_species <$> p -> count p k = 0.
Proof.
  unfold count. induction p as [|t p IH]; simpl; [reflexivity|].
  rewrite not_elem_of_cons. intros [Hne Hnot].
  rewrite (IH Hnot). destruct (decide (term_species t = k)); [congruence|lia].
Qed.

Lemma count_single (t : term) k :
  count [t] k = if decide (term_species t = k) then term_coef t else 0.
Proof. unfold count. simpl. destruct (decide (term_species t = k)); lia. Qed.

Lemma np_set_in_range (row : list Z) i v :
  0 <= i < Z.of_nat (length row) -> int64_min <= v <= int64_max ->
  np_set row i v = Ok (<[Z.to_nat i := v]> row).
Proof.
  intros Hi Hv. unfold np_set.
  destruct (Z.ltb_spec i (- Z.of_nat (length row))); [lia|].
  destruct (Z.leb_spec (Z.of_nat (length row)) i); [lia|].
  destruct (Z.ltb_spec v int64_min); [lia|].
  destruct (Z.ltb_spec int64_max v); [lia|].
  destruct (Z.ltb_spec i 0); [lia|]. reflexivity.
Qed.

Section FillRow.
Variables (f : Z -> Z) (N : nat).
Hypothesis f_zero : f 0 = 0.
Hypothesis f_range : forall c, 0 < c <= int64_max -> int64_min <= f c <= int64_max.

Lemma side_row_nil : side_row f N [] = replicate N 0.
Proof.
  unfold side_row. apply list_eq. intros i.
  rewrite list_lookup_fmap. destruct (decide (i < N)%nat) as [Hi|Hi].
  - rewrite lookup_seq_lt by assumption. rewrite lookup_replicate_2 by assumption.
    simpl. by rewrite f_zero.
  - rewrite lookup_seq_ge by lia. symmetry. apply lookup_replicate_None. lia.
Qed.

Lemma side_row_snoc (p : list term) (t : term) :
  0 < term_species t <= Z.of_nat N ->
  term_species t ∉ term_species <$> p ->
  <[Z.to_nat (term_species t - 1) := f (term_coef t)]> (side_row f N p)
  = side_row f N (p ++ [t]).
Proof.
  intros Hk Hnew. unfold side_row. apply list_eq. intros i.
  rewrite list_lookup_fmap.
  destruct (decide (i < N)%nat) as [Hi|Hi].
  - rewrite lookup_seq_lt by assumption. cbn [fmap option_fmap option_map Nat.add].
    rewrite count_app, count_single.
    destruct (decide (i = Z.to_nat (term_species t - 1))) as [->|Hne].
    + rewrite list_lookup_insert_eq by (rewrite length_fmap, length_seq; lia).
      replace (Z.of_nat (Z.to_nat (term_species t - 1)) + 1)
        with (term_species t) by lia.
      rewrite (count_absent p _ Hnew).
      destruct (decide (term_species t = term_species t)); [|congruence].
      do 2 f_equal.
    + rewrite list_lookup_insert_ne by congruence.
      rewrite list_lookup_fmap, lookup_seq_lt by assumption.
      cbn [fmap option_fmap option_map Nat.add].
      destruct (decide (term_species t = Z.of_nat i + 1)); [lia|].
      do 2 f_equal. lia.
  - rewrite lookup_seq_ge by lia. simpl.
    apply lookup_ge_None_2. rewrite length_insert, length_fmap, length_seq. lia.
Qed.

Lemma fill_row_from (q : list term) : forall p,
  Forall wf_term q ->
  Forall (fun t => term_species t <= Z.of_nat N) q ->
  NoDup (term_species <$> (p ++ q)) ->
  fill_row f (side_row f N p) (entries_of q) = Ok (side_row f N (p ++ q)).
Proof.
  unfold fill_row.
  induction q as [|t q IH]; intros p Hwf Hle Hnd; simpl.
  - by rewrite app_nil_r.
  - inversion Hwf as [|? ? Ht Hwf']; inversion Hle as [|? ? Hlt Hle']; subst.
    destruct Ht as (_ & _ & Hcoef & _ & _ & _ & Hpos).
    assert (Hnew : term_species t ∉ term_species <$> p).
    { rewrite fmap_app in Hnd. apply NoDup_app in Hnd as (_ & Hdisj & _).
      intros Hin. apply (Hdisj _ Hin). simpl. apply elem_of_cons. by left. }
    rewrite np_set_in_range.
    + simpl mbind. rewrite side_row_snoc by (auto; lia).
      rewrite IH; auto.
      * by rewrite <- List.app_assoc.
      * by rewrite <- List.app_assoc.
    + unfold side_row. rewrite length_fmap, length_seq. lia.
    + apply f_range. assumption.
Qed.

Lemma fill_row_side (s : list term) :
  Forall wf_term s ->
  Forall (fun t => term_species t <= Z.of_nat N) s ->
  NoDup (term_species <$> s) ->
  fill_row f (replicate N 0) (entries_of s) = Ok (side_row f N s).
Proof.
  intros Hwf Hle Hnd. rewrite <- side_row_nil.
  by rewrite (fill_row_from s [] Hwf Hle Hnd).
Qed.

Lemma fill_from (E : list (list (Z * Z))) (R : matrix) n : forall i0 stoch,
  (i0 + n = length E)%nat -> length stoch = length E ->
  (forall i, (i0 <= i < length E)%nat -> stoch !! i = Some (replicate N 0)) ->
  Forall2 (fun e r => fill_row f (replicate N 0) e = Ok r) E R ->
  foldM (fun stoch reaction =>
           species ← index E reaction;
           row ← index stoch reaction;
           row ← fill_row f row species;
           set_item stoch reaction row)
    stoch (seq i0 n)
  = Ok (take i0 stoch ++ drop i0 R).
Proof.
  induction n as [|n IH]; intros i0 stoch Hn Hlen Hzero HER.
  - simpl. pose proof (Forall2_length _ _ _ HER) as HlR.
    rewrite take_ge, drop_ge by lia. by rewrite app_nil_r.
  - pose proof (Forall2_length _ _ _ HER) as HlR.
    destruct (lookup_lt_is_Some_2 E i0 ltac:(lia)) as [e He].
    destruct (lookup_lt_is_Some_2 R i0 ltac:(lia)) as [r Hr].
    pose proof (Forall2_lookup_lr _ _ _ _ _ _ HER He Hr) as Hfill.
    cbn [seq foldM]. rewrite (index_Some _ _ _ He). simpl mbind.
    rewrite (index_Some _ _ _ (Hzero i0 ltac:(lia))). simpl mbind.
    rewrite Hfill. simpl mbind.
    rewrite set_item_lt by lia. simpl mbind.
    rewrite IH; try assumption.
    + f_equal. rewrite (drop_S R r i0 Hr).
      rewrite (take_S_r (<[i0 := r]> stoch) i0 r)
        by (apply list_lookup_insert_eq; lia).
      rewrite take_insert_ge by lia. by rewrite <- List.app_assoc.
    + lia.
    + by rewrite length_insert.
    + intros i Hi. rewrite list_lookup_insert_ne by lia. apply Hzero. lia.
Qed.
End FillRow.

Lemma foldl_max_ge (terms : list term) : forall m,
  m <= foldl (fun m t => Z.max m (term_species t)) m terms /\
  Forall (fun t => term_species t
                   <= foldl (fun m t => Z.max m (term_species t)) m terms) terms.
Proof.
  induction terms as [|t terms IH]; intros m; simpl.
  - split; [lia|constructor].
  - destruct (IH (Z.max m (term_species t))) as [H1 H2].
    split; [lia|]. constructor; [lia|assumption].
Qed.

Lemma max_species_ge (sides : list (list term)) : forall start,
  start <= max_species sides start /\
  Forall (Forall (fun t => term_species t <= max_species sides start)) sides.
Proof.
  unfold max_species.
  induction sides as [|s sides IH]; intros start; simpl.
  - split; [lia|constructor].
  - destruct (foldl_max_ge s start) as [H1 H2].
    destruct (IH (foldl (fun m t => Z.max m (term_species t)) start s)) as [H3 H4].
    split; [lia|]. constructor; [|assumption].
    eapply Forall_impl; [exact H2|]. intros t Ht. simpl in Ht. lia.
Qed.

Lemma int64_opp_range c :
  0 < c <= int64_max -> int64_min <= - c <= int64_max.
Proof. unfold int64_min, int64_max. lia. Qed.

Lemma int64_id_range c :
  0 < c <= int64_max -> int64_min <= id c <= int64_max.
Proof. unfold int64_min, int64_max, id. lia. Qed.

Lemma fill_sides (f : Z -> Z) (N M : nat) (sides : list (list term)) :
  f 0 = 0 ->
  (forall c, 0 < c <= int64_max -> int64_min <= f c <= int64_max) ->
  length sides = M ->
  Forall wf_side sides ->
  Forall (Forall (fun t => term_species t <= Z.of_nat N)) sides ->
  fill f (replicate M (replicate N 0)) (entries_of <$> sides)
  = Ok (stoch_rows f N sides).
Proof.
  intros Hf0 Hfr HM Hwf Hle. unfold fill. rewrite length_fmap.
  rewrite (fill_from f N (entries_of <$> sides) (stoch_rows f N sides)
             (length sides) 0).
  - by rewrite take_0, drop_0.
  - by rewrite length_fmap.
  - by rewrite length_replicate, length_fmap.
  - intros i Hi. rewrite length_fmap in Hi. apply lookup_replicate_2. lia.
  - unfold stoch_rows. apply Forall2_fmap, Forall_Forall2_diag.
    apply Forall_forall. intros s Hs.
    rewrite Forall_forall in Hwf, Hle.
    destruct (Hwf s Hs) as (_ & Hterms & Hnd).
    apply fill_row_side; auto.
Qed.

Lemma stoch_rows_lookup f N (sides : list (list term)) r side s :
  sides !! r = Some side -> (s < N)%nat ->
  stoch_rows f N sides !! r ≫= (fun row => row !! s)
  = Some (f (count side (Z.of_nat s + 1))).
Proof.
  intros Hr Hs. unfold stoch_rows. rewrite list_lookup_fmap, Hr. simpl.
  unfold side_row.
  rewrite list_lookup_fmap, lookup_seq_lt by assumption. reflexivity.
Qed.

(** C7 (amended): for a reaction string of the grammar in which every side
    has a term, no side names a species twice and the coefficients fit 64
    bits, the parser returns the matrices of the network: in row [r], the
    entry of species [s] is minus the number of molecules of [s] that
    reaction [r] consumes in [substrate_stoich], and the number it produces
    in [product_stoich]. *)
Theorem reactions_stoch_grammar (net : list (list term * list term)) :
  wf_network net ->
  let N := number_of_species net in
  reactions_stoch (render_network net)
  = Ok (stoch_rows Z.opp N (fst <$> net), stoch_rows id N (snd <$> net)) /\
  forall r lhs rhs s,
    net !! r = Some (lhs, rhs) -> (s < N)%nat ->
    stoch_rows Z.opp N (fst <$> net) !! r ≫= (fun row => row !! s)
      = Some (- count lhs (Z.of_nat s + 1)) /\
    stoch_rows id N (snd <$> net) !! r ≫= (fun row => row !! s)
      = Some (count rhs (Z.of_nat s + 1)).
Proof.
  intros Hnet. pose proof Hnet as [Hne Hwf]. cbv zeta. split.
  - unfold reactions_stoch, render_network.
    rewrite list_ascii_of_string_of_list_ascii.
    rewrite (split_network net Hnet).
    rewrite (split_arrows_render net Hwf). simpl mbind. cbn [app].
    assert (Hfst : Forall wf_side (fst <$> net)).
    { apply Forall_fmap. eapply Forall_impl; [exact Hwf|]. by intros r [? _]. }
    assert (Hsnd : Forall wf_side (snd <$> net)).
    { apply Forall_fmap. eapply Forall_impl; [exact Hwf|]. by intros r [_ ?]. }
    rewrite (parse_sides_render _ Hfst). simpl mbind. cbn [app].
    rewrite (parse_sides_render _ Hsnd). simpl mbind. cbn [app].
    fold (number_of_species net).
    destruct (max_species_ge (fst <$> net) 0) as [_ Hle1].
    destruct (max_species_ge (snd <$> net) (max_species (fst <$> net) 0))
      as [Hmono Hle2].
    assert (HN : Z.of_nat (number_of_species net)
                 = max_species (snd <$> net) (max_species (fst <$> net) 0)).
    { unfold number_of_species. rewrite Z2Nat.id; [reflexivity|].
      destruct (max_species_ge (fst <$> net) 0). lia. }
    rewrite (fill_sides Z.opp (number_of_species net) _ (fst <$> net)
               eq_refl int64_opp_range).
    + simpl mbind.
      rewrite (fill_sides id (number_of_species net) _ (snd <$> net)
                 eq_refl int64_id_range); [reflexivity| |assumption|].
      * by rewrite !length_fmap.
      * rewrite HN. assumption.
    + by rewrite !length_fmap.
    + assumption.
    + rewrite HN. eapply Forall_impl; [exact Hle1|]. intros s Hs.
      eapply Forall_impl; [exact Hs|]. intros t Ht. simpl in Ht. lia.
  - intros r lhs rhs s Hr Hs. split.
    + apply (stoch_rows_lookup Z.opp); [|assumption].
      by rewrite list_lookup_fmap, Hr.
    + apply (stoch_rows_lookup id); [|assumption].
      by rewrite list_lookup_fmap, Hr.
Qed.

Ltac wf_term_tac :=
  unfold wf_term; repeat split; vm_compute;
  first [reflexivity | discriminate | congruence].

Ltac wf_side_tac :=
  split; [discriminate|];
  split; [repeat constructor; wf_term_tac|];
  apply (bool_decide_unpack _); vm_compute; exact I.

Lemma wf_sample_net : wf_network sample_net.
Proof.
  split; [discriminate|].
  repeat (apply Forall_cons; split; [split; wf_side_tac|]).
  constructor.
Qed.

Lemma reactions_stoch_grammar_witness :
  render_network sample_net = "2X1+X2->X3,X3->12X1"%string /\
  reactions_stoch "2X1+X2->X3,X3->12X1"
  = Ok ([[-2; -1; 0]; [0; 0; -1]], [[0; 0; 1]; [12; 0; 0]]).
Proof.
  split; [reflexivity|].
  exact (proj1 (reactions_stoch_grammar sample_net wf_sample_net)).
Defined.

(** The entry of a consumed species is negative, not the unsigned count;
    and a side written "0" in front of a later non-empty side moves that
    side up: the product of the second reaction lands in row 0. *)
Lemma substrate_sign_and_zero_side :
  reactions_stoch "X1->X2" = Ok ([[-1; 0]], [[0; 1]]) /\
  render_network [([mk_term EmptyString "1"], [mk_term EmptyString "2"])] = "X1->X2"%string /\
  count [mk_term EmptyString "1"] 1 = 1 /\
  reactions_stoch "X1->0,0->X1" = Ok ([[-1]; [0]], [[1]; [0]]) /\
  reactions_stoch "2X1+X2->X3,X1->0,X3+4X2->12X1"
  = Ok ([[-2; -1; 0]; [-1; 0; 0]; [0; -4; -1]],
        [[0; 0; 1]; [12; 0; 0]; [0; 0; 0]]).
Proof. repeat split; by vm_compute. Qed.

(** ** What the parser does with text outside the grammar *)

Lemma raises_only_bind {A B} P (r : result A) (k : A -> result B) :
  raises_only P r -> (forall a, r = Ok a -> raises_only P (k a)) ->
  raises_only P (r ≫= k).
Proof.
  unfold raises_only. destruct r as [a|e|]; simpl; intros Hr Hk e' He.
  - exact (Hk a eq_refl e' He).
  - inversion He; subst. by apply Hr.
  - discriminate.
Qed.

Lemma raises_only_Ok {A} P (a : A) : raises_only P (Ok a).
Proof. intros e He. discriminate. Qed.

Lemma raises_only_index {A} (l : list A) i : raises_only parse_error (index l i).
Proof.
  unfold index. intros e He. destruct (l !! i); inversion He. by left.
Qed.

Lemma raises_only_set_item {A} (l : list A) i v :
  raises_only parse_error (set_item l i v).
Proof.
  unfold set_item. intros e He. case_decide; inversion He. by left.
Qed.

Lemma raises_only_foldM {A B} P (f : B -> A -> result B) l :
  (forall b x, raises_only P (f b x)) -> forall b, raises_only P (foldM f b l).
Proof.
  intros Hf. induction l as [|x l IH]; intros b; simpl.
  - apply raises_only_Ok.
  - apply raises_only_bind; auto.
Qed.

Lemma raises_only_py_int s : raises_only parse_error (py_int s).
Proof.
  unfold py_int. intros e He.
  destruct (strip s) as [|c b]; [|destruct (Ascii.eqb c "-"), (Ascii.eqb c "+")];
    destruct (parse_digits _ _ _); inversion He; right; by left.
Qed.

Lemma raises_only_parse_term j total :
  raises_only parse_error (parse_term j total).
Proof.
  unfold parse_term. apply raises_only_bind.
  - destruct (isdigit _); [apply raises_only_py_int|apply raises_only_Ok].
  - intros coef _. destruct (split "X" j) as [|j0 [|j1 [|j2 rest]]];
      try apply raises_only_Ok.
    apply raises_only_bind; [apply raises_only_py_int|].
    intros k _. apply raises_only_Ok.
Qed.

Lemma raises_only_parse_side i : forall acc total,
  raises_only parse_error (parse_side i acc total).
Proof.
  induction i as [|j i IH]; intros acc total; simpl.
  - apply raises_only_Ok.
  - apply raises_only_bind; [apply raises_only_parse_term|].
    intros [nr total'] _. apply IH.
Qed.

Lemma raises_only_parse_sides l : forall acc total,
  raises_only parse_error (parse_sides l acc total).
Proof.
  induction l as [|i l IH]; intros acc total; simpl.
  - apply raises_only_Ok.
  - apply raises_only_bind; [apply raises_only_parse_side|].
    intros [one total'] _. apply IH.
Qed.

Lemma raises_only_split_arrows l : forall subs prods,
  raises_only parse_error (split_arrows l subs prods).
Proof.
  induction l as [|i l IH]; intros subs prods; simpl.
  - apply raises_only_Ok.
  - apply raises_only_bind; [apply raises_only_index|]. intros s0 _.
    apply raises_only_bind; [apply raises_only_index|]. intros s1 _.
    apply IH.
Qed.

Lemma raises_only_np_set row i v : raises_only parse_error (np_set row i v).
Proof.
  unfold np_set. intros e He.
  repeat case_match; inversion He; [by left|right; by right].
Qed.

Lemma raises_only_fill f stoch E : raises_only parse_error (fill f stoch E).
Proof.
  unfold fill. apply raises_only_foldM. intros m r.
  apply raises_only_bind; [apply raises_only_index|]. intros species _.
  apply raises_only_bind; [apply raises_only_index|]. intros row _.
  apply raises_only_bind; [|intros; apply raises_only_set_item].
  unfold fill_row. apply raises_only_foldM. intros row' sp.
  apply raises_only_np_set.
Qed.

Lemma raises_only_reactions_stoch s :
  raises_only parse_error (reactions_stoch s).
Proof.
  unfold reactions_stoch.
  apply raises_only_bind; [apply raises_only_split_arrows|].
  intros [subs prods] _.
  apply raises_only_bind; [apply raises_only_parse_sides|].
  intros [sub_nr total] _.
  apply raises_only_bind; [apply raises_only_parse_sides|].
  intros [prod_nr total'] _.
  apply raises_only_bind; [apply raises_only_fill|]. intros sub _.
  apply raises_only_bind; [apply raises_only_fill|]. intros prod _.
  apply raises_only_Ok.
Qed.

Lemma split_nonempty sep s : exists tok rest, split sep s = tok :: rest.
Proof. unfold split. destruct (split_go _ 0 s). eauto. Qed.

Lemma split_arrows_missing (l : list (list ascii)) : forall subs prods,
  Exists (fun piece => (length (split "->" piece) < 2)%nat) l ->
  split_arrows l subs prods = Raise IndexError.
Proof.
  induction l as [|i l IH]; intros subs prods Hex; [inversion Hex|].
  simpl. destruct (split_nonempty "->" i) as (s0 & rest & Hsplit).
  rewrite Hsplit. destruct rest as [|s1 rest]; [reflexivity|].
  simpl. apply IH. inversion Hex as [? ? Hlen|]; subst; [|assumption].
  rewrite Hsplit in Hlen. simpl in Hlen. lia.
Qed.

(** A one-character separator cuts a string into one piece more than it
    has occurrences. *)
Lemma split_go_single c0 (s : list ascii) :
  length (split_go [c0] 0 s).2 = count_occ ascii_dec s c0.
Proof.
  induction s as [|c s IH]; [reflexivity|].
  cbn [split_go prefix_b length Nat.sub count_occ].
  destruct (ascii_dec c c0) as [->|Hne].
  - rewrite Ascii.eqb_refl. cbn [andb].
    destruct (split_go [c0] 0 s) as [tok rest]. simpl in *. by rewrite IH.
  - assert (Heqb : Ascii.eqb c0 c = false) by (apply Ascii.eqb_neq; congruence).
    rewrite Heqb. cbn [andb].
    destruct (split_go [c0] 0 s) as [tok rest]. simpl in *. exact IH.
Qed.

Lemma split_single_length sep c0 (s : list ascii) :
  list_ascii_of_string sep = [c0] ->
  length (split sep s) = S (count_occ ascii_dec s c0).
Proof.
  intros Hsep. unfold split. rewrite Hsep.
  pose proof (split_go_single c0 s) as H.
  destruct (split_go [c0] 0 s) as [tok rest]. simpl in *. by rewrite H.
Qed.

Lemma parse_term_coef_Ok j0 :
  exists coef, (if isdigit j0 then py_int j0 else Ok 1) = Ok coef /\
               (isdigit j0 = false -> coef = 1).
Proof.
  destruct (isdigit j0) eqn:E.
  - exists (digits_value j0). split; [|discriminate].
    destruct j0 as [|c d]; [discriminate|].
    apply py_int_digits; [discriminate|exact E].
  - exists 1. auto.
Qed.


Ltac decide_tac := apply (bool_decide_unpack _); vm_compute; exact I.



(** * Further properties of the program *)

(** ** The domain of [calculate_hi] *)

Lemma pascal_row_length n :
  length (foldl pascal_step (<[0%nat := 1]> (replicate (S n) 0)) (seq 1 n))
  = S n.
Proof. exact (proj1 (pascal_rows n n (le_n n))). Qed.

Lemma calculate_hi_cases (n m : Z) :
  calculate_hi n m =
  if decide (0 <= n /\ - (n + 1) <= m <= n)
  then Ok (if m <? 0 then 0 else choose n m * factorial m)
  else Raise IndexError.
Proof.
  destruct (decide (0 <= n /\ - (n + 1) <= m <= n)) as [[Hn Hm]|Hout].
  - destruct (Z.ltb_spec m 0) as [Hneg|Hpos].
    + unfold calculate_hi.
      replace (Z.to_nat (n + 1)) with (S (Z.to_nat n)) by lia.
      unfold set_item. rewrite length_replicate.
      destruct (decide (0 < S (Z.to_nat n))%nat); [|lia]. simpl mbind.
      pose proof (pascal_row_length (Z.to_nat n)) as Hlen. simpl in Hlen.
      unfold py_index. rewrite Hlen.
      destruct (Z.leb_spec 0 m); [lia|].
      destruct (Z.leb_spec (- Z.of_nat (S (Z.to_nat n))) m); [|lia].
      match goal with
      | |- context [index ?b ?i] =>
          destruct (lookup_lt_is_Some_2 b i ltac:(rewrite Hlen; lia)) as [bm Hbm];
          rewrite (index_Some b i bm Hbm)
      end.
      simpl mbind. unfold factorial.
      destruct (Z.ltb_spec m 0); [|lia]. f_equal. lia.
    + rewrite <- (Z2Nat.id n), <- (Z2Nat.id m) by lia.
      rewrite calculate_hi_binom by lia. rewrite choose_binom by lia.
      unfold factorial.
      destruct (Z.ltb_spec (Z.of_nat (Z.to_nat m)) 0); [lia|].
      by rewrite Nat2Z.id.
  - destruct (decide (0 <= n)) as [Hn|Hn].
    + unfold calculate_hi.
      replace (Z.to_nat (n + 1)) with (S (Z.to_nat n)) by lia.
      unfold set_item. rewrite length_replicate.
      destruct (decide (0 < S (Z.to_nat n))%nat); [|lia]. simpl mbind.
      pose proof (pascal_row_length (Z.to_nat n)) as Hlen. simpl in Hlen.
      unfold py_index. rewrite Hlen.
      destruct (Z.leb_spec 0 m).
      * unfold index. rewrite lookup_ge_None_2 by (rewrite Hlen; lia).
        reflexivity.
      * destruct (Z.leb_spec (- Z.of_nat (S (Z.to_nat n))) m); [lia|].
        reflexivity.
    + unfold calculate_hi.
      replace (Z.to_nat (n + 1)) with 0%nat by lia. reflexivity.
Qed.


(** ** Propensities: when they are defined, and their values *)

Lemma hi_step_value sub x i row hi j s xj :
  sub !! i = Some row -> row !! j = Some s -> x !! j = Some xj ->
  ~ short_of s xj ->
  hi_step sub x i hi j = Ok (hi * species_factor s xj).
Proof.
  intros Hrow Hs Hx Hshort. unfold hi_step, index2, species_factor.
  rewrite (index_Some _ _ _ Hrow). simpl. rewrite (index_Some _ _ _ Hs). simpl.
  destruct (decide (s = 0)) as [->|Hne]; [f_equal; lia|].
  rewrite (index_Some _ _ _ Hx). simpl.
  destruct (decide (xj <= 0)); [f_equal; lia|].
  assert (Hle : Z.abs s <= xj).
  { destruct (decide (Z.abs s <= xj)); [assumption|].
    exfalso. apply Hshort. split; [assumption|lia]. }
  destruct (calculate_hi_value xj (Z.abs s)) as [-> _]; [lia|lia|].
  reflexivity.
Qed.

Lemma hi_step_short sub x i row hi j s xj :
  sub !! i = Some row -> row !! j = Some s -> x !! j = Some xj ->
  short_of s xj ->
  hi_step sub x i hi j = Raise IndexError.
Proof.
  intros Hrow Hs Hx [Hne Hshort]. unfold hi_step, index2.
  rewrite (index_Some _ _ _ Hrow). simpl. rewrite (index_Some _ _ _ Hs). simpl.
  destruct (decide (s = 0)); [congruence|].
  rewrite (index_Some _ _ _ Hx). simpl.
  destruct (decide (xj <= 0)); [lia|].
  rewrite calculate_hi_cases.
  destruct (decide (0 <= xj /\ - (xj + 1) <= Z.abs s <= xj)); [lia|].
  reflexivity.
Qed.

Lemma reaction_hi_value_from sub x i row n : forall j0 hi,
  sub !! i = Some row ->
  length row = (j0 + n)%nat -> length x = (j0 + n)%nat ->
  (forall j s xj, row !! j = Some s -> x !! j = Some xj -> ~ short_of s xj) ->
  foldM (hi_step sub x i) hi (seq j0 n)
  = Ok (foldl Z.mul hi (zip_with species_factor (drop j0 row) (drop j0 x))).
Proof.
  induction n as [|n IH]; intros j0 hi Hrow Hlr Hlx Hok.
  - simpl. rewrite !drop_ge by lia. reflexivity.
  - destruct (lookup_lt_is_Some_2 row j0 ltac:(lia)) as [s Hs].
    destruct (lookup_lt_is_Some_2 x j0 ltac:(lia)) as [xj Hx].
    simpl. rewrite (hi_step_value sub x i row hi j0 s xj) by eauto.
    simpl. rewrite IH by (auto; lia).
    rewrite (drop_S row s j0 Hs), (drop_S x xj j0 Hx). reflexivity.
Qed.

Lemma reaction_hi_value sub x N i row :
  sub !! i = Some row -> length row = N -> length x = N ->
  (forall j s xj, row !! j = Some s -> x !! j = Some xj -> ~ short_of s xj) ->
  reaction_hi sub x N i = Ok (hi_value row x).
Proof.
  intros Hrow Hlr Hlx Hok. unfold reaction_hi, hi_value.
  by rewrite (reaction_hi_value_from sub x i row N 0 1).
Qed.

(** A species that is short makes the whole fold raise. *)
Lemma reaction_hi_short_from sub x i row n : forall j0 hi e j s xj,
  sub !! i = Some row ->
  (j0 <= j < j0 + n)%nat ->
  row !! j = Some s -> x !! j = Some xj -> short_of s xj ->
  foldM (hi_step sub x i) hi (seq j0 n) <> Ok e.
Proof.
  induction n as [|n IH]; intros j0 hi e j s xj Hrow Hj Hs Hx Hshort; [lia|].
  simpl. destruct (decide (j = j0)) as [->|Hne].
  - by rewrite (hi_step_short sub x i row hi j0 s xj).
  - destruct (hi_step sub x i hi j0) as [hi'| |]; simpl; try discriminate.
    eapply IH; eauto. lia.
Qed.

Lemma raises_index_bind {A B} (r : result A) (k : A -> result B) :
  raises_only (fun e => e = IndexError) r ->
  (forall a, raises_only (fun e => e = IndexError) (k a)) ->
  raises_only (fun e => e = IndexError) (r ≫= k).
Proof. intros Hr Hk. apply raises_only_bind; auto. Qed.

Lemma raises_index_index {A} (l : list A) i :
  raises_only (fun e => e = IndexError) (index l i).
Proof. unfold index. intros e He. destruct (l !! i); by inversion He. Qed.

Lemma raises_index_propensities sub x rates M N :
  raises_only (fun e => e = IndexError) (propensities sub x rates M N).
Proof.
  unfold propensities. apply raises_only_foldM. intros a i.
  unfold propensity_step. apply raises_index_bind.
  - unfold reaction_hi. apply raises_only_foldM. intros hi j.
    unfold hi_step. apply raises_index_bind.
    + unfold index2. apply raises_index_bind; [apply raises_index_index|].
      intros row. apply raises_index_index.
    + intros s. case_decide; [apply raises_only_Ok|].
      apply raises_index_bind; [apply raises_index_index|].
      intros xj. case_decide; [apply raises_only_Ok|].
      apply raises_index_bind; [|intros; apply raises_only_Ok].
      intros e. rewrite calculate_hi_cases. case_decide; by inversion 1.
  - intros hi. apply raises_index_bind; [apply raises_index_index|].
    intros c e. unfold set_item. case_decide; by inversion 1.
Qed.

Lemma propensities_total_from sub x rates N n : forall i0 a0,
  (i0 + n <= length a0)%nat ->
  (forall i, (i0 <= i < i0 + n)%nat ->
     exists hi c, reaction_hi sub x N i = Ok hi /\ rates !! i = Some c) ->
  exists a, foldM (propensity_step sub x rates N) a0 (seq i0 n) = Ok a.
Proof.
  induction n as [|n IH]; intros i0 a0 Hlen Hall; cbn [seq foldM]; [eauto|].
  destruct (Hall i0 ltac:(lia)) as (hi & c & Hhi & Hc).
  assert (Hstep : propensity_step sub x rates N a0 i0
                  = Ok (<[i0 := (inject_Z hi * c)%Q]> a0)).
  { unfold propensity_step. rewrite Hhi. simpl mbind.
    rewrite (index_Some _ _ _ Hc). simpl mbind. apply set_item_lt. lia. }
  rewrite Hstep. simpl mbind.
  apply IH; [rewrite length_insert; lia|]. intros i Hi. apply Hall. lia.
Qed.

Lemma propensities_cases (sub : matrix) (x : list Z) (rates : list Q)
    (M N : nat) :
  mat_shape M N sub -> length x = N -> length rates = M ->
  (short_somewhere sub x -> propensities sub x rates M N = Raise IndexError) /\
  (~ short_somewhere sub x ->
   exists a, propensities sub x rates M N = Ok a /\ length a = M /\
     forall i row c, sub !! i = Some row -> rates !! i = Some c ->
       a !! i = Some (inject_Z (hi_value row x) * c)%Q).
Proof.
  intros [HM Hrows] Hlx Hlr. split.
  - intros (i & row & j & s & xj & Hrow & Hs & Hx & Hshort).
    destruct (propensities sub x rates M N) as [a|e|] eqn:E.
    + exfalso. apply propensities_inv in E as [_ Hall].
      destruct (Hall i) as (hi & c & Hhi & _).
      { apply lookup_lt_Some in Hrow. lia. }
      unfold reaction_hi in Hhi.
      eapply (reaction_hi_short_from sub x i row N 0 1 hi j s xj); eauto.
      apply lookup_lt_Some in Hx. lia.
    + f_equal. by apply (raises_index_propensities sub x rates M N e).
    + exfalso. by apply (terminates_propensities sub x rates M N).
  - intros Hnot.
    assert (Hhi : forall i row, sub !! i = Some row ->
              reaction_hi sub x N i = Ok (hi_value row x)).
    { intros i row Hrow. apply reaction_hi_value; auto.
      - eapply (proj1 (Forall_lookup _ _) Hrows); eauto.
      - intros j s xj Hs Hx Hshort. apply Hnot.
        exists i, row, j, s, xj. auto. }
    destruct (propensities_total_from sub x rates N M 0 (replicate M 1%Q))
      as [a Ha].
    { rewrite length_replicate. lia. }
    { intros i Hi.
      destruct (lookup_lt_is_Some_2 sub i ltac:(lia)) as [row Hrow].
      destruct (lookup_lt_is_Some_2 rates i ltac:(lia)) as [c Hc].
      exists (hi_value row x), c. split; [by apply Hhi|assumption]. }
    exists a. split; [exact Ha|].
    apply propensities_inv in Ha as [Hla Hall]. split; [assumption|].
    intros i row c Hrow Hc.
    destruct (Hall i) as (hi & c' & Hhi' & Hc' & ->).
    { apply lookup_lt_Some in Hrow. lia. }
    rewrite (Hhi i row Hrow) in Hhi'. congruence.
Qed.



Lemma foldl_mul_zero (l : list Z) : forall acc, 0 ∈ l -> foldl Z.mul acc l = 0.
Proof.
  induction l as [|v l IH]; intros acc Hin; [by apply elem_of_nil in Hin|].
  apply elem_of_cons in Hin as [<-|Hin]; simpl.
  - rewrite Z.mul_0_r. clear. induction l as [|w l IH]; simpl; auto.
  - by apply IH.
Qed.





Lemma binom_1 n : binom n 1 = Z.of_nat n.
Proof.
  induction n as [|n IH]; [reflexivity|].
  cbn [binom]. rewrite IH, binom_0_r. lia.
Qed.

Lemma species_factor_unit s xj :
  s = 0 \/ s = -1 -> 0 <= xj ->
  species_factor s xj = if decide (s = 0) then 1 else xj.
Proof.
  intros Hs Hx. unfold species_factor.
  destruct (decide (s = 0)); [reflexivity|].
  destruct Hs as [->| ->]; [congruence|].
  destruct (decide (xj <= 0)); [lia|].
  change (Z.abs (-1)) with 1.
  rewrite <- (Z2Nat.id xj) by lia.
  pose proof (choose_binom (Z.to_nat xj) 1 ltac:(lia)) as Hc.
  change (Z.of_nat 1) with 1 in Hc. rewrite Hc, binom_1.
  change (factorial 1) with 1. lia.
Qed.

Lemma mass_action_value (row x : list Z) :
  Forall (fun s => s = 0 \/ s = -1) row -> Forall (fun v => 0 <= v) x ->
  hi_value row x = mass_action row x.
Proof.
  intros Hrow Hx. unfold hi_value, mass_action. f_equal.
  revert x Hx. induction Hrow as [|s row Hs Hrow IH]; intros [|xj x] Hx;
    simpl; try reflexivity.
  inversion Hx; subst. rewrite species_factor_unit by assumption.
  f_equal. by apply IH.
Qed.

Lemma unit_never_short sub x :
  unit_coefficients sub -> ~ short_somewhere sub x.
Proof.
  intros Hunit (i & row & j & s & xj & Hrow & Hs & Hx & Hne & Hshort).
  pose proof (proj1 (Forall_lookup _ _) Hunit i row Hrow) as Hr.
  pose proof (proj1 (Forall_lookup _ _) Hr j s Hs) as [->| ->]; lia.
Qed.

(** X5: for a network whose substrate coefficients are all 0 or -1 the
    propensity computation never fails on arrays of matching shapes, and on
    a non-negative state it follows the law of mass action: the propensity
    of reaction [i] is [c_i] times the product of the counts of its
    substrates. *)
Theorem unit_mass_action (sub : matrix) (x : list Z) (rates : list Q)
    (M N : nat) :
  mat_shape M N sub -> length x = N -> length rates = M ->
  unit_coefficients sub ->
  exists a, propensities sub x rates M N = Ok a /\
    (Forall (fun v => 0 <= v) x ->
     forall i row c, sub !! i = Some row -> rates !! i = Some c ->
       a !! i = Some (inject_Z (mass_action row x) * c)%Q).
Proof.
  intros Hshape Hlx Hlr Hunit.
  destruct (proj2 (propensities_cases sub x rates M N Hshape Hlx Hlr)
              (unit_never_short sub x Hunit)) as (a & Ha & _ & Hval).
  exists a. split; [assumption|].
  intros Hx i row c Hrow Hc. rewrite (Hval i row c Hrow Hc).
  rewrite mass_action_value; auto.
  eapply (proj1 (Forall_lookup _ _) Hunit); eauto.
Qed.

Lemma module_network_parsed :
  reactions_stoch module_network = Ok (module_sub, module_prod).
Proof. by vm_compute. Qed.

Lemma module_sub_unit : unit_coefficients module_sub.
Proof. decide_tac. Qed.

Lemma module_shape : mat_shape 6 7 module_sub.
Proof. split; [reflexivity|]. repeat constructor. Qed.

Lemma unit_mass_action_witness :
  exists a, propensities module_sub module_init module_rates 6 7 = Ok a /\
    (Forall (fun v => 0 <= v) module_init ->
     forall i row c, module_sub !! i = Some row -> module_rates !! i = Some c ->
       a !! i = Some (Qmult (inject_Z (mass_action row module_init)) c)).
Proof.
  apply (unit_mass_action module_sub module_init module_rates 6 7
           module_shape eq_refl eq_refl module_sub_unit).
Defined.

(** ** The scheduler at the edges *)

Lemma select_reaction_positive (a : list Q) fuel : forall mu N mu',
  (0 < N)%Q ->
  select_reaction fuel a mu N = Ok mu' ->
  exists q, a !! mu' = Some q /\ (0 < q)%Q.
Proof.
  induction fuel as [|fuel IH]; intros mu N mu' HN Hsel; simpl in Hsel;
    apply Qlt_bool_iff in HN as HNb; rewrite HNb in Hsel; [discriminate|].
  apply bind_Ok in Hsel as (x & Hx & Hsel). apply index_Ok in Hx.
  destruct (Qlt_le_dec 0 (N - x)) as [Hpos|Hle].
  - eapply IH; eauto.
  - destruct fuel; simpl in Hsel; apply Qlt_bool_false in Hle as Hb;
      rewrite Hb in Hsel; inversion Hsel; subst; exists x; split; auto; lra.
Qed.



Lemma foldl_Qplus_acc (l : list Q) : forall acc,
  (foldl Qplus acc l == acc + foldl Qplus 0 l)%Q.
Proof.
  induction l as [|x l IH]; intros acc; simpl; [ring|].
  rewrite (IH (acc + x)%Q), (IH (0 + x)%Q). ring.
Qed.

Lemma partial_sum_le_sum (a : list Q) mu :
  Forall (fun q => (0 <= q)%Q) a -> (partial_sum a mu <= sum a)%Q.
Proof.
  intros Ha. unfold partial_sum, sum.
  rewrite <- (take_drop (S mu) a) at 2. rewrite foldl_app.
  pose proof (foldl_Qplus_acc (drop (S mu) a) (foldl Qplus 0%Q (take (S mu) a)))
    as Hacc.
  assert (Hd : Forall (fun q => (0 <= q)%Q) (drop (S mu) a))
    by (by apply Forall_drop).
  pose proof (sum_nonneg _ Hd) as Hnn. unfold sum in Hnn. lra.
Qed.

Lemma select_reaction_overrun (a : list Q) (t : Q) fuel : forall mu N,
  Forall (fun q => (0 <= q)%Q) a -> (sum a < t)%Q ->
  (mu < length a)%nat -> (length a <= mu + fuel)%nat ->
  (N == t - partial_sum a mu)%Q ->
  select_reaction fuel a mu N = Raise IndexError.
Proof.
  induction fuel as [|fuel IH]; intros mu N Ha Ht Hmu Hfuel HN; [lia|].
  simpl. pose proof (partial_sum_le_sum a mu Ha) as Hle.
  assert (Hpos : (0 < N)%Q) by lra.
  apply Qlt_bool_iff in Hpos. rewrite Hpos.
  destruct (decide (S mu < length a)%nat) as [Hin|Hout].
  - destruct (lookup_lt_is_Some_2 a (S mu) Hin) as [x Hx].
    rewrite (index_Some _ _ _ Hx). simpl.
    apply IH; auto; try lia.
    rewrite (partial_sum_S a mu x Hx). lra.
  - unfold index. rewrite lookup_ge_None_2 by lia. reflexivity.
Qed.



(** X8: a draw [r2 = 0], which [random_sample] can return, selects
    reaction 0 whatever the propensities are, even when the propensity of
    reaction 0 is zero. *)
Theorem zero_draw_selects_first ln (a0 : Q) (a : list Q) (r1 : Q) q :
  a !! 0%nat = Some q -> (0 <= q)%Q ->
  exists dt, next_values ln a0 a r1 0 = Ok (dt, 0%nat).
Proof.
  intros Hq Hnn. unfold next_values. rewrite (index_Some _ _ _ Hq).
  simpl mbind.
  assert (Hb : Qlt_bool 0 (0 * a0 - q) = false) by (apply Qlt_bool_false; lra).
  destruct (length a); simpl; rewrite Hb; simpl; eauto.
Qed.

Lemma zero_draw_selects_first_witness :
  exists dt, next_values ln_lower 2 [0%Q; 2%Q] (1 # 2) 0 = Ok (dt, 0%nat).
Proof.
  apply (zero_draw_selects_first ln_lower 2 [0%Q; 2%Q] (1 # 2) 0);
    by vm_compute.
Defined.

(** ** Invariants of a run whose consumed draws lie in (0,1) *)

Section ConsumedDraws.
Variable ln : Q -> Q.
Variables (init : nat) (rates : list Q) (sub_stoch stoch : matrix).
Variables (tmax : Q) (n_max : nat) (draws1 draws2 : nat -> Q).
Variable P : loop_state -> Prop.

Hypothesis P_step : forall st st',
  P st -> loop_cond tmax n_max st = true ->
  (0 < draws1 (n_counter st))%Q -> (draws1 (n_counter st) < 1)%Q ->
  (0 < draws2 (n_counter st))%Q -> (draws2 (n_counter st) < 1)%Q ->
  loop_body ln init rates sub_stoch stoch
    (random_sample draws1 n_max) (random_sample draws2 n_max) st = Ok st' ->
  P st'.

Lemma gillespie_loop_ind_draws fuel : forall st st',
  gillespie_loop ln init rates sub_stoch stoch tmax n_max
    (random_sample draws1 n_max) (random_sample draws2 n_max) fuel st
    = Ok st' ->
  P st ->
  unit_draws draws1 (n_counter st') -> unit_draws draws2 (n_counter st') ->
  P st'.
Proof.
  induction fuel as [|fuel IH]; intros st st' Hloop Hinv Hd1 Hd2;
    simpl in Hloop; destruct (loop_cond tmax n_max st) eqn:Hc;
    try discriminate; try (inversion Hloop; subst; assumption).
  apply bind_Ok in Hloop as (st1 & Hbody & Hloop).
  pose proof (loop_counter_mono _ _ _ _ _ _ _ _ _ _ _ _ Hloop) as Hmono.
  assert (Hn1 : n_counter st1 = S (n_counter st)).
  { apply loop_body_inv in Hbody
      as (? & ? & ? & ? & ? & ? & ? & ? & _ & _ & _ & _ & _ & _ & _ & _ & _ & _ & ->).
    reflexivity. }
  destruct (Hd1 (n_counter st) ltac:(lia)) as [Hu1 Hu1'].
  destruct (Hd2 (n_counter st) ltac:(lia)) as [Hu2 Hu2'].
  eapply IH; eauto.
Qed.
End ConsumedDraws.

Lemma mat_add_length A B C : mat_add A B = Ok C -> length C = length A.
Proof.
  intros H. apply mat_add_Ok in H as [-> Hlen].
  rewrite length_zip_with.
  assert (length A = length B).
  { rewrite <- (length_fmap length A), Hlen. apply length_fmap. }
  lia.
Qed.

(** The waiting time of a turn: finite and positive when the total
    propensity is positive, infinite when it is zero. *)
Lemma waiting_time ln (a : list Q) u1 u2 dt mu :
  log_like ln ->
  Forall (fun q => (0 <= q)%Q) a -> (1 <= length a)%nat ->
  (0 < u1)%Q -> (u1 < 1)%Q -> (0 < u2)%Q -> (u2 < 1)%Q ->
  next_values ln (sum a) a u1 u2 = Ok (dt, mu) ->
  (exists d, dt = Fin d /\ (0 < d)%Q /\ (0 < sum a)%Q /\ (mu < length a)%nat)
  \/ (dt = PInf /\ mu = 0%nat /\ (sum a == 0)%Q).
Proof.
  intros Hln Ha Hlen Hu1 Hu1' Hu2 Hu2' Hnext.
  destruct (Qlt_le_dec 0 (sum a)) as [Hpos|Hzero].
  - left.
    destruct (next_values_select ln (sum a) a u1 u2) as (mu' & Hsel & Hmu & _);
      try assumption; try reflexivity.
    rewrite Hsel in Hnext. inversion Hnext; subst.
    eexists. split; [reflexivity|]. split; [|split; assumption].
    assert (H1 : (0 < 1 / sum a)%Q).
    { unfold Qdiv. rewrite Qmult_1_l. by apply Qinv_lt_0_compat. }
    assert (H2 : (1 < 1 / u1)%Q) by (apply Qlt_shift_div_l; lra).
    pose proof (Hln _ H2). nra.
  - right. pose proof (sum_nonneg a Ha).
    assert (Heq : (sum a == 0)%Q) by lra.
    rewrite (absorbed_next_values ln a u1 u2 Hln Ha Hlen Heq Hu1 Hu1') in Hnext.
    inversion Hnext; subst. auto.
Qed.

Section Clock.
Variable ln : Q -> Q.
Variables (init : nat) (rates : list Q) (sub_stoch stoch : matrix).
Variables (tmax : Q) (n_max : nat) (draws1 draws2 : nat -> Q).
Hypothesis Hln : log_like ln.
Hypothesis Hlen : length stoch = length sub_stoch.
Hypothesis Hrates : nonneg_rates rates.

Lemma clock_inv_step st st' :
  clock_inv n_max st ->
  loop_cond tmax n_max st = true ->
  (0 < draws1 (n_counter st))%Q -> (draws1 (n_counter st) < 1)%Q ->
  (0 < draws2 (n_counter st))%Q -> (draws2 (n_counter st) < 1)%Q ->
  loop_body ln init rates sub_stoch stoch
    (random_sample draws1 n_max) (random_sample draws2 n_max) st = Ok st' ->
  clock_inv n_max st'.
Proof.
  intros (Hlt & Hn & ts & Hts & Htake & Hinc & Hcur) Hcond Hu1 Hu1' Hu2 Hu2' Hbody.
  apply loop_body_inv in Hbody
    as (a & u1 & u2 & dt & mu & row & x' & snap & Hprop & Hr1 & Hr2 & HM
        & Hnext & _ & _ & _ & Hlt1 & _ & ->).
  destruct Hcur as [(t & Ht & Hstore & Hbelow)|Hinf];
    [|unfold loop_cond in Hcond; rewrite Hinf in Hcond; discriminate].
  apply random_sample_lookup in Hr1 as [_ ->].
  apply random_sample_lookup in Hr2 as [_ ->].
  pose proof (propensities_nonneg _ _ _ _ _ _ (eq_sym Hlen) Hrates Hprop) as Hann.
  destruct (propensities_inv _ _ _ _ _ _ Hprop) as [Hla _].
  unfold clock_inv; simpl. rewrite length_insert.
  split; [assumption|]. split; [lia|].
  exists (ts ++ [t]). rewrite length_app. simpl.
  split; [lia|]. split; [|split].
  - rewrite take_insert_ge by lia.
    rewrite (take_S_r _ _ _ Hstore), Htake, fmap_app. reflexivity.
  - intros i s s' Hs Hs'.
    destruct (decide (S i < length ts)%nat) as [Hin|Hout].
    + rewrite lookup_app_l in Hs, Hs' by lia. eauto.
    + assert (S i = length ts) as Hi.
      { apply lookup_lt_Some in Hs'. rewrite length_app in Hs'. simpl in Hs'. lia. }
      rewrite lookup_app_l in Hs by lia.
      rewrite lookup_app_r in Hs' by lia.
      replace (S i - length ts)%nat with 0%nat in Hs' by lia.
      simpl in Hs'. inversion Hs'; subst s'.
      eapply (proj1 (Forall_lookup _ _) Hbelow); eauto.
  - destruct (waiting_time ln a _ _ dt mu Hln Hann ltac:(lia) Hu1 Hu1' Hu2 Hu2' Hnext)
      as [(d & -> & Hd & _)|(-> & _)].
    + left. rewrite Ht. simpl. exists (t + d)%Q.
      split; [reflexivity|]. split; [apply list_lookup_insert_eq; lia|].
      apply Forall_app. split.
      * eapply Forall_impl; [exact Hbelow|]. intros s Hs. simpl in Hs. lra.
      * apply Forall_singleton. lra.
    + right. by rewrite Ht.
Qed.
End Clock.



(** ** Conserved quantities *)

Lemma dot_add w : forall x y,
  length x = length y ->
  dot w (zip_with Z.add x y) = dot w x + dot w y.
Proof.
  unfold dot. induction w as [|c w IH]; intros [|a x] [|b y] Hlen;
    simpl in *; try lia; try discriminate.
  rewrite IH by lia. lia.
Qed.

Lemma conserved_trajectory w M N sub_stoch prod_stoch stoch xs x0 :
  mat_shape M N sub_stoch -> mat_shape M N prod_stoch ->
  mat_add sub_stoch prod_stoch = Ok stoch ->
  conserves w sub_stoch prod_stoch ->
  is_trajectory stoch xs ->
  xs !! 0%nat = Some x0 -> length x0 = N ->
  forall i x, xs !! i = Some x -> length x = N /\ dot w x = dot w x0.
Proof.
  intros Hsub Hprod Hstoch Hw Htraj H0 Hlen0.
  apply mat_add_Ok in Hstoch as [-> _].
  induction i as [|i IH]; intros x Hx.
  - rewrite H0 in Hx. inversion Hx; subst. auto.
  - destruct (lookup_lt_is_Some_2 xs i) as [y Hy].
    { apply lookup_lt_Some in Hx. lia. }
    destruct (IH y Hy) as [Hleny Hdoty].
    destruct (Htraj i y x Hy Hx) as (mu & row & Hrow & Hadd).
    apply lookup_zip_with_Some in Hrow as (s & p & -> & Hs & Hp).
    pose proof (mat_shape_lookup _ _ _ _ _ Hsub Hs) as Hls.
    pose proof (mat_shape_lookup _ _ _ _ _ Hprod Hp) as Hlp.
    assert (Hlrow : length (zip_with Z.add s p) = N)
      by (rewrite length_zip_with; lia).
    apply iadd_same_length in Hadd; [|lia]. subst x.
    split; [rewrite length_zip_with; lia|].
    rewrite dot_add by lia. rewrite dot_add by lia.
    pose proof (Hw mu s p Hs Hp). lia.
Qed.

(** X10: a weighted count that every reaction leaves unchanged has, in
    every returned snapshot and in the state left in [init], the value it
    had in the initial state. *)
Theorem conserved_along_run ln w M N s_i init rates sub_stoch prod_stoch
    tmax n_max draws1 draws2 (h : gmap nat (list Z)) times snaps h' :
  mat_shape M N sub_stoch -> mat_shape M N prod_stoch ->
  length (h !!! init) = N ->
  conserves w sub_stoch prod_stoch ->
  gillespie_algo ln s_i init rates sub_stoch prod_stoch tmax n_max
    draws1 draws2 h = Ok (times, snaps, h') ->
  Forall (fun snap => dot w snap = dot w (h !!! init)) snaps /\
  dot w (h' !!! init) = dot w (h !!! init).
Proof.
  intros Hsub Hprod Hlen Hw Halgo.
  apply gillespie_algo_inv in Halgo as (st & Hrun & Hk & _ & -> & ->).
  destruct (gillespie_run_trace _ _ _ _ _ _ _ _ _ _ _ Hrun)
    as (stoch & xs & Hstoch
        & (_ & Hlm & Hn & Hlxs & H0 & Htraj & Hsnaps & _ & Hlast & _) & _).
  pose proof (conserved_trajectory w M N _ _ _ _ _ Hsub Hprod Hstoch Hw
                Htraj H0 Hlen) as Hall.
  assert (Hcols : ncols stoch = N).
  { destruct (lookup_lt_is_Some_2 xs 1) as [x1 Hx1]; [lia|].
    destruct (Htraj 0%nat _ _ H0 Hx1) as (mu & row & Hrow & _).
    pose proof Hstoch as Hst. apply mat_add_Ok in Hst as [-> _].
    destruct sub_stoch as [|s sub']; [destruct mu; discriminate|].
    destruct prod_stoch as [|p prod']; [destruct mu; discriminate|].
    simpl. rewrite length_zip_with.
    pose proof (mat_shape_lookup _ _ _ 0 s Hsub eq_refl).
    pose proof (mat_shape_lookup _ _ _ 0 p Hprod eq_refl). lia. }
  split; [|by apply (Hall (n_counter st))].
  apply Forall_lookup. intros j snap Hj.
  apply lookup_take_Some in Hj as [Hj Hlt].
  destruct (lookup_lt_is_Some_2 xs j) as [x Hx]; [lia|].
  destruct (Hsnaps j x Hx) as (snap' & Hassign & Hstore).
  rewrite Hstore in Hj. inversion Hj; subst snap'.
  destruct (Hall j x Hx) as [Hlx Hdot].
  rewrite assign_row_same_length in Hassign by lia.
  inversion Hassign; subst. assumption.
Qed.

Lemma module_conserves : conserves [1; 1; 1; 0; 0; 0; 1] module_sub module_prod.
Proof.
  intros i s p Hs Hp.
  do 6 (destruct i as [|i];
        [inversion Hs; inversion Hp; subst; reflexivity|]).
  discriminate.
Qed.

Lemma conserved_along_run_witness :
  Forall (fun snap => dot [1; 1; 1; 0; 0; 0; 1] snap = 330)
    [[20; 30; 40; 20; 30; 40; 240]; [20; 31; 40; 20; 29; 40; 239];
     [20; 32; 40; 20; 28; 40; 238]] /\
  dot [1; 1; 1; 0; 0; 0; 1] [20; 33; 40; 20; 27; 40; 237] = 330.
Proof.
  apply (conserved_along_run ln_lower [1; 1; 1; 0; 0; 0; 1] 6 7 [1; 1; 1]
           0%nat (replicate 6 1%Q) module_sub module_prod 10 4
           half_draws half_draws (sample_store module_init)
           [Fin 0; Fin (1 # 43380); Fin (86104 # 1853367120)]
           [[20; 30; 40; 20; 30; 40; 240]; [20; 31; 40; 20; 29; 40; 239];
            [20; 32; 40; 20; 28; 40; 238]]
           (sample_store [20; 33; 40; 20; 27; 40; 237]));
    [ apply module_shape
    | split; [reflexivity | repeat constructor]
    | reflexivity
    | apply module_conserves
    | by vm_compute ].
Defined.

(** ** When the loop stops *)

(** X11: every returned time passed the test [current_time < tmax], and
    fewer than [n_max] rows are returned. *)
Theorem returned_times_below ln s_i init rates sub_stoch prod_stoch tmax n_max
    draws1 draws2 (h : gmap nat (list Z)) times snaps h' :
  gillespie_algo ln s_i init rates sub_stoch prod_stoch tmax n_max
    draws1 draws2 h = Ok (times, snaps, h') ->
  Forall (fun t => xlt t (Fin tmax) = true) times /\
  (length times < n_max)%nat /\ length snaps = length times.
Proof.
  intros Halgo.
  apply gillespie_algo_inv in Halgo as (st & Hrun & Hk & -> & -> & _).
  destruct (gillespie_run_trace _ _ _ _ _ _ _ _ _ _ _ Hrun)
    as (stoch & xs & Hstoch & (Hlt & Hlm & Hn & _) & _).
  unfold gillespie_run in Hrun. rewrite Hstoch in Hrun. simpl mbind in Hrun.
  apply bind_Ok in Hrun as (st_time & Htime & Hrun).
  apply bind_Ok in Hrun as (snap & Hsnap & Hrun).
  apply bind_Ok in Hrun as (st_mol & Hmol & Hrun).
  apply set_item_Ok in Htime as [Hlt0 ->]. rewrite length_replicate in Hlt0.
  apply (gillespie_loop_ind ln init rates sub_stoch stoch tmax n_max _ _
           (fun s => length (store_time s) = n_max /\
                     (n_counter s < n_max)%nat /\
                     store_time s !! n_counter s = Some (current_time s) /\
                     forall i t, (i < n_counter s)%nat ->
                       store_time s !! i = Some t -> xlt t (Fin tmax) = true))
    in Hrun as [(_ & _ & _ & Hbelow) _].
  - rewrite !length_take. split; [|split; lia].
    apply Forall_lookup. intros i t Hi.
    apply lookup_take_Some in Hi as [Hi Hlti]. eauto.
  - intros s s' (Hls & Hns & Hcur & Hbelow) Hcond Hbody.
    apply loop_body_inv in Hbody
      as (a & u1 & u2 & dt & mu & row & x' & snap' & _ & _ & _ & _ & _ & _ & _
          & _ & Hlt1 & _ & ->).
    simpl. rewrite length_insert.
    split; [assumption|]. split; [lia|]. split.
    { apply list_lookup_insert_eq. lia. }
    intros i t Hi Ht. rewrite list_lookup_insert_ne in Ht by lia.
    destruct (decide (i = n_counter s)) as [->|Hne].
    + rewrite Hcur in Ht. inversion Ht; subst t.
      unfold loop_cond in Hcond. by apply andb_true_iff in Hcond as [Hcond _].
    + apply (Hbelow i); [lia|assumption].
  - simpl. rewrite length_insert, length_replicate.
    split; [reflexivity|]. split; [lia|]. split.
    { apply list_lookup_insert_eq. by rewrite length_replicate. }
    intros i t Hi. lia.
Qed.

Lemma returned_times_below_witness :
  Forall (fun t => xlt t (Fin 10) = true)
    [Fin 0; Fin (1 # 6); Fin (10 # 24); Fin (44 # 48)] /\
  (length [Fin 0; Fin (1 # 6); Fin (10 # 24); Fin (44 # 48)] < 10)%nat /\
  length [[3; 0]; [2; 1]; [1; 2]; [0; 3]]
    = length [Fin 0; Fin (1 # 6); Fin (10 # 24); Fin (44 # 48)].
Proof.
  apply (returned_times_below ln_lower [1] 0%nat [1%Q] sample_sub sample_prod
           10 10 half_draws half_draws (sample_store [3; 0])
           [Fin 0; Fin (1 # 6); Fin (10 # 24); Fin (44 # 48)]
           [[3; 0]; [2; 1]; [1; 2]; [0; 3]] (sample_store [-1; 4])).
  by vm_compute.
Defined.

(** X12: a call that cannot enter the loop does not return.  With
    [n_max = 0] the first store into the empty time array raises
    [IndexError]; with [tmax <= 0] or [n_max = 1] no reaction fires and the
    averaging divides 0 by 0. *)
Theorem no_event_raises ln s_i init rates sub_stoch prod_stoch tmax n_max
    draws1 draws2 (h : gmap nat (list Z)) stoch snap :
  mat_add sub_stoch prod_stoch = Ok stoch ->
  assign_row (ncols stoch) (h !!! init) = Ok snap ->
  broadcasts s_i (h !!! init) ->
  ((tmax <= 0)%Q \/ (n_max <= 1)%nat) ->
  gillespie_algo ln s_i init rates sub_stoch prod_stoch tmax n_max
    draws1 draws2 h
  = Raise (if decide (n_max = 0%nat) then IndexError else ZeroDivisionError).
Proof.
  intros Hstoch Hsnap Hs Hstop.
  unfold gillespie_algo, gillespie_run. rewrite Hstoch. simpl mbind.
  destruct (decide (n_max = 0%nat)) as [->|Hn]; [reflexivity|].
  rewrite set_item_lt by (rewrite length_replicate; lia). simpl mbind.
  rewrite Hsnap. simpl mbind.
  rewrite set_item_lt by (rewrite length_replicate; lia). simpl mbind.
  match goal with |- context [gillespie_loop _ _ _ _ _ _ _ _ _ ?f ?s] =>
    assert (Hloop : gillespie_loop ln init rates sub_stoch stoch tmax n_max
                      (random_sample draws1 n_max) (random_sample draws2 n_max)
                      f s = Ok s)
  end.
  { assert (Hc : forall s, current_time s = Fin 0 -> n_counter s = 0%nat ->
                   loop_cond tmax n_max s = false).
    { intros s Ht Hc0. unfold loop_cond. rewrite Ht, Hc0. simpl.
      apply andb_false_iff. destruct Hstop as [Htmax|Hle].
      - left. by apply Qlt_bool_false.
      - right. apply Z.ltb_ge. lia. }
    destruct n_max; simpl; rewrite Hc; reflexivity. }
  rewrite Hloop. simpl. rewrite decide_True by exact Hs. reflexivity.
Qed.

Lemma no_event_raises_witness :
  gillespie_algo ln_lower [1] 0%nat [1%Q] sample_sub sample_prod 0 10
    half_draws half_draws (sample_store [3; 0])
  = Raise ZeroDivisionError.
Proof.
  apply (no_event_raises ln_lower [1] 0%nat [1%Q] sample_sub sample_prod 0 10
           half_draws half_draws (sample_store [3; 0]) [[-1; 1]] [3; 0]);
    [ reflexivity | reflexivity | right; left; reflexivity
    | left; by vm_compute ].
Defined.

(** ** Calls that return *)

Lemma mat_shape_lengths M N (m : matrix) :
  mat_shape M N m -> length <$> m = replicate M N.
Proof.
  intros [<- Hrows]. induction Hrows as [|row m Hrow _ IH];
    [reflexivity|].
  rewrite fmap_cons. cbn [length replicate]. by rewrite Hrow, IH.
Qed.

Lemma mat_add_shapes M N A B :
  mat_shape M N A -> mat_shape M N B -> exists C, mat_add A B = Ok C.
Proof.
  intros HA HB. unfold mat_add.
  rewrite decide_True; [eauto|].
  by rewrite (mat_shape_lengths M N A), (mat_shape_lengths M N B).
Qed.

Lemma random_sample_index draws n_max i :
  (i < n_max)%nat -> index (random_sample draws n_max) i = Ok (draws i).
Proof.
  intros Hi. apply index_Some. unfold random_sample.
  rewrite list_lookup_fmap, lookup_seq_lt by assumption. reflexivity.
Qed.

Lemma next_values_returns ln (a : list Q) u1 u2 :
  log_like ln ->
  Forall (fun q => (0 <= q)%Q) a -> (1 <= length a)%nat ->
  (0 < u1)%Q -> (u1 < 1)%Q -> (0 < u2)%Q -> (u2 < 1)%Q ->
  exists dt mu, next_values ln (sum a) a u1 u2 = Ok (dt, mu) /\
                (mu < length a)%nat.
Proof.
  intros Hln Ha Hlen Hu1 Hu1' Hu2 Hu2'.
  destruct (Qlt_le_dec 0 (sum a)) as [Hpos|Hzero].
  - destruct (next_values_select ln (sum a) a u1 u2) as (mu & Hsel & Hmu & _);
      try assumption; try reflexivity.
    eauto.
  - pose proof (sum_nonneg a Ha).
    assert (Heq : (sum a == 0)%Q) by lra.
    rewrite (absorbed_next_values ln a u1 u2 Hln Ha Hlen Heq Hu1 Hu1').
    exists PInf, 0%nat. split; [reflexivity|lia].
Qed.

Section Returns.
Variable ln : Q -> Q.
Variables (init M N : nat) (rates : list Q).
Variables (sub_stoch prod_stoch stoch : matrix).
Variables (tmax : Q) (n_max : nat) (draws1 draws2 : nat -> Q).
Hypothesis Hln : log_like ln.
Hypothesis Hnet : valid_network M N sub_stoch prod_stoch.
Hypothesis Hunit : unit_coefficients sub_stoch.
Hypothesis Hstoch : mat_add sub_stoch prod_stoch = Ok stoch.
Hypothesis Hrates : nonneg_rates rates.
Hypothesis Hlr : length rates = M.
Hypothesis Hd1 : unit_draws draws1 n_max.
Hypothesis Hd2 : unit_draws draws2 n_max.

Lemma loop_body_returns st :
  safe_inv init N n_max st -> length (store_time st) = n_max ->
  loop_cond tmax n_max st = true ->
  exists st',
    loop_body ln init rates sub_stoch stoch
      (random_sample draws1 n_max) (random_sample draws2 n_max) st = Ok st'.
Proof.
  intros (Hlm & Hn & _ & Hcur) Hlt Hcond.
  unfold loop_cond in Hcond. apply andb_true_iff in Hcond as [Hc1 Hc2].
  apply Z.ltb_lt in Hc2.
  destruct Hcur as [(_ & Hnn & HlenN & _)|Hinf];
    [|rewrite Hinf in Hc1; discriminate].
  destruct (valid_network_stoch _ _ _ _ _ Hnet Hstoch) as (HM & HN & Hrows).
  destruct Hnet as (HM1 & Hsub & _).
  destruct (propensities_cases sub_stoch (heap st !!! init) rates M N
              Hsub HlenN Hlr) as [_ Hok].
  destruct (Hok (unit_never_short _ _ Hunit)) as (a & Ha & Hla & _).
  pose proof (propensities_nonneg _ _ _ _ _ _ (proj1 Hsub) Hrates Ha) as Hann.
  destruct (Hd1 (n_counter st) ltac:(lia)) as [Hu1 Hu1'].
  destruct (Hd2 (n_counter st) ltac:(lia)) as [Hu2 Hu2'].
  destruct (next_values_returns ln a _ _ Hln Hann ltac:(lia) Hu1 Hu1' Hu2 Hu2')
    as (dt & mu & Hnext & Hmu).
  destruct (lookup_lt_is_Some_2 stoch mu) as [row Hrow]; [lia|].
  destruct (Hrows mu row Hrow) as (srow & prow & _ & _ & -> & Hls & Hlp).
  unfold loop_body. rewrite HM, HN, Ha. simpl mbind.
  rewrite !random_sample_index by lia. simpl mbind.
  rewrite decide_False by lia. rewrite Hnext. simpl mbind.
  rewrite (index_Some _ _ _ Hrow). simpl mbind.
  unfold iadd. rewrite decide_True by (rewrite length_zip_with; lia).
  simpl mbind. rewrite set_item_lt by lia. simpl mbind.
  rewrite assign_row_same_length by (rewrite !length_zip_with; lia).
  simpl mbind. rewrite set_item_lt by lia. simpl mbind.
  eexists. reflexivity.
Qed.

Lemma gillespie_loop_returns fuel : forall st,
  safe_inv init N n_max st -> length (store_time st) = n_max ->
  (n_max <= fuel + n_counter st + 1)%nat ->
  exists st',
    gillespie_loop ln init rates sub_stoch stoch tmax n_max
      (random_sample draws1 n_max) (random_sample draws2 n_max) fuel st
    = Ok st' /\
    (loop_cond tmax n_max st = true -> n_counter st' <> 0%nat).
Proof.
  induction fuel as [|fuel IH]; intros st Hsafe Hlt Hfuel; simpl;
    destruct (loop_cond tmax n_max st) eqn:Hc;
    try (exists st; split; [reflexivity|discriminate]).
  - unfold loop_cond in Hc. apply andb_true_iff in Hc as [_ Hc].
    apply Z.ltb_lt in Hc. lia.
  - destruct (loop_body_returns st Hsafe Hlt Hc) as [st1 Hbody].
    rewrite Hbody. simpl mbind.
    assert (Hn : (n_counter st < n_max - 1)%nat).
    { unfold loop_cond in Hc. apply andb_true_iff in Hc as [_ Hc].
      apply Z.ltb_lt in Hc. lia. }
    destruct (Hd1 (n_counter st) ltac:(lia)) as [Hu1 Hu1'].
    destruct (Hd2 (n_counter st) ltac:(lia)) as [Hu2 Hu2'].
    pose proof (safe_inv_step ln init M N rates sub_stoch prod_stoch stoch tmax
                  n_max draws1 draws2 Hln Hnet Hstoch Hrates st st1 Hsafe Hc
                  Hu1 Hu1' Hu2 Hu2' Hbody) as Hsafe1.
    pose proof Hbody as Hst1.
    apply loop_body_inv in Hst1
      as (? & ? & ? & ? & ? & ? & ? & ? & _ & _ & _ & _ & _ & _ & _ & _ & _ & _ & Hst1).
    destruct (IH st1 Hsafe1) as (st' & Hloop & _).
    { subst st1. simpl. rewrite length_insert. assumption. }
    { subst st1. simpl. lia. }
    exists st'. split; [assumption|]. intros _.
    apply loop_counter_mono in Hloop. subst st1. simpl in Hloop. lia.
Qed.
End Returns.


Lemma module_valid : valid_network 6 7 module_sub module_prod.
Proof.
  unfold valid_network, mat_shape, module_sub, module_prod.
  repeat split; repeat constructor; lia.
Qed.

Lemma module_rates_nonneg : nonneg_rates module_rates.
Proof. repeat constructor; by vm_compute. Qed.


(** ** The driver *)

Lemma driver_runs ln times_sim_av s_i init1 rates sub_stoch prod_stoch tmax
    n_max draws x0 fuel :
  forall counter results (h : gmap nat (list Z)) results' h',
    h !! init1 = Some x0 ->
    (counter <= times_sim_av)%nat -> length results = counter ->
    (forall k r, results !! k = Some r ->
       run_from ln s_i rates sub_stoch prod_stoch tmax n_max x0
         (draws (S k)) r) ->
    driver ln fuel times_sim_av counter s_i init1 rates sub_stoch prod_stoch
      tmax n_max draws results h = Ok (results', h') ->
    length results' = times_sim_av /\
    forall k r, results' !! k = Some r ->
      run_from ln s_i rates sub_stoch prod_stoch tmax n_max x0
        (draws (S k)) r.
Proof.
  induction fuel as [|fuel IH];
    intros counter results h results' h' Hx0 Hle Hlen Hres Hd;
    simpl in Hd; [discriminate|].
  assert (Hfresh : fresh (dom h) <> init1).
  { intros Heq. apply (is_fresh (dom h)). rewrite Heq.
    apply elem_of_dom. eauto. }
  rewrite (lookup_total_correct h init1 x0 Hx0) in Hd.
  destruct (decide (counter = times_sim_av)).
  - inversion Hd; subst. auto.
  - apply bind_Ok in Hd as ([[times snaps] h1] & Halgo & Hd).
    destruct (gillespie_algo_store _ _ _ _ _ _ _ _ _ _ _ _ _ _ Halgo)
      as (_ & _ & _ & _ & xk & _ & _ & _ & _ & _ & _ & Hh1).
    apply (IH _ _ _ _ _) in Hd; [assumption| | | |].
    + subst h1. rewrite !lookup_insert_ne by assumption. assumption.
    + lia.
    + rewrite length_app. simpl. lia.
    + intros k r Hk.
      destruct (decide (k < length results)%nat) as [Hlt|Hge].
      * rewrite lookup_app_l in Hk by assumption. eauto.
      * rewrite lookup_app_r in Hk by lia.
        destruct (k - length results)%nat as [|k'] eqn:Ek; [|discriminate].
        inversion Hk; subst r.
        assert (k = counter) as -> by lia.
        eexists _, _, _. split; [|exact Halgo].
        apply lookup_total_insert_eq.
Qed.

(** X14: the driver returns [times_sim_av] results, the [k]-th being what
    a call returns from the content of [init1] with the [k]-th pair of
    draw arrays. *)
Theorem driver_results ln fuel times_sim_av s_i init1 rates sub_stoch
    prod_stoch tmax n_max draws x0 (h : gmap nat (list Z)) results h' :
  h !! init1 = Some x0 ->
  driver ln fuel times_sim_av 0 s_i init1 rates sub_stoch prod_stoch
    tmax n_max draws [] h = Ok (results, h') ->
  length results = times_sim_av /\
  forall k r, results !! k = Some r ->
    run_from ln s_i rates sub_stoch prod_stoch tmax n_max x0 (draws (S k)) r.
Proof.
  intros Hx0 Hd.
  eapply (driver_runs ln times_sim_av s_i init1 rates sub_stoch prod_stoch tmax
            n_max draws x0 fuel 0 [] h results h' Hx0); eauto.
  - lia.
  - intros k r Hk. discriminate.
Qed.

Lemma driver_results_witness :
  exists results h',
    driver ln_lower 3 2 0 [1] 0%nat [1%Q] sample_sub sample_prod 10 3
      (fun _ => (half_draws, half_draws)) [] (sample_store [3; 0])
    = Ok (results, h') /\
    length results = 2%nat /\
    forall k r, results !! k = Some r ->
      run_from ln_lower [1] [1%Q] sample_sub sample_prod 10 3 [3; 0]
        (half_draws, half_draws) r.
Proof.
  eexists _, _. split; [by vm_compute|].
  eapply (driver_results ln_lower 3%nat 2%nat [1] 0%nat [1%Q] sample_sub
            sample_prod 10%Q 3%nat (fun _ => (half_draws, half_draws))
            [3; 0] (sample_store [3; 0]));
    by vm_compute.
Defined.

(** ** What the parser returns *)

Lemma foldM_inv {A B} (P : B -> Prop) (f : B -> A -> result B) (l : list A) :
  (forall b x b', x ∈ l -> P b -> f b x = Ok b' -> P b') ->
  forall b b', P b -> foldM f b l = Ok b' -> P b'.
Proof.
  induction l as [|x l IH]; intros Hstep b b' Hb Hfold; simpl in Hfold.
  - by inversion Hfold; subst.
  - apply bind_Ok in Hfold as (b1 & Hx & Hfold).
    apply (IH (fun b0 y b0' Hy =>
                 Hstep b0 y b0' (proj2 (elem_of_cons _ _ _) (or_intror Hy)))
              b1 b'); [|assumption].
    eapply Hstep; eauto. apply elem_of_cons. by left.
Qed.

Lemma digit_val_nonneg c : is_digit c = true -> 0 <= digit_val c.
Proof.
  unfold is_digit, digit_val. intros H.
  apply andb_true_iff in H as [H _]. apply Nat.leb_le in H. lia.
Qed.

Lemma digits_value_nonneg s : forallb is_digit s = true -> 0 <= digits_value s.
Proof.
  unfold digits_value. assert (Hgen : forall acc, 0 <= acc ->
    forallb is_digit s = true ->
    0 <= foldl (fun acc c => 10 * acc + digit_val c) acc s).
  { induction s as [|c s IH]; intros acc Hacc Hs; simpl in *; [assumption|].
    apply andb_true_iff in Hs as [Hc Hs].
    apply IH; [|assumption]. pose proof (digit_val_nonneg c Hc). lia. }
  apply Hgen. lia.
Qed.

(** A coefficient is read from a digit string or defaults to 1. *)
Lemma parse_term_nonneg j total nr total' :
  parse_term j total = Ok (nr, total') ->
  forall c k, nr = Some (c, k) -> 0 <= c.
Proof.
  unfold parse_term. intros H c k ->.
  apply bind_Ok in H as (coef & Hcoef & H).
  assert (0 <= coef) as Hnn.
  { destruct (isdigit (hd [] (split "X" j))) eqn:Hd.
    - unfold isdigit in Hd.
      destruct (hd [] (split "X" j)) as [|c0 j0] eqn:Hj0; [discriminate|].
      rewrite py_int_digits in Hcoef by (done || exact Hd).
      inversion Hcoef; subst. by apply digits_value_nonneg.
    - inversion Hcoef; subst. lia. }
  destruct (split "X" j) as [|j0 [|j1 [|j2 rest]]]; try discriminate.
  apply bind_Ok in H as (k' & _ & H). inversion H; subst. assumption.
Qed.

Lemma parse_side_nonneg i : forall acc total acc' total',
  Forall (fun sp : Z * Z => 0 <= sp.1) acc ->
  parse_side i acc total = Ok (acc', total') ->
  Forall (fun sp : Z * Z => 0 <= sp.1) acc'.
Proof.
  induction i as [|j i IH]; intros acc total acc' total' Hacc H; simpl in H.
  - by inversion H; subst.
  - apply bind_Ok in H as ([nr t1] & Hterm & H).
    eapply IH; [|exact H].
    destruct nr as [[c k]|]; [|assumption].
    apply Forall_app. split; [assumption|]. apply Forall_singleton. simpl.
    eapply parse_term_nonneg; eauto.
Qed.

Lemma parse_sides_nonneg l : forall acc total acc' total',
  Forall (Forall (fun sp : Z * Z => 0 <= sp.1)) acc ->
  parse_sides l acc total = Ok (acc', total') ->
  Forall (Forall (fun sp : Z * Z => 0 <= sp.1)) acc'.
Proof.
  induction l as [|i l IH]; intros acc total acc' total' Hacc H; simpl in H.
  - by inversion H; subst.
  - apply bind_Ok in H as ([one t1] & Hside & H).
    eapply IH; [|exact H].
    apply parse_side_nonneg in Hside; [|constructor].
    case_decide; [|assumption].
    apply Forall_app. split; [assumption|]. by apply Forall_singleton.
Qed.

Lemma np_set_inv (Q : Z -> Prop) row i v row' :
  np_set row i v = Ok row' ->
  length row' = length row /\ (Forall Q row -> Q v -> Forall Q row').
Proof.
  unfold np_set. intros H.
  destruct ((i <? - Z.of_nat (length row)) || (Z.of_nat (length row) <=? i));
    [discriminate|].
  destruct ((v <? int64_min) || (int64_max <? v)); [discriminate|].
  inversion H; subst. rewrite length_insert. split; [reflexivity|].
  intros Hrow Hv. by apply Forall_insert.
Qed.

Section Fill.
Variables (f : Z -> Z) (Q : Z -> Prop).
Hypothesis Qf : forall c, 0 <= c -> Q (f c).

Lemma fill_row_inv species : forall row row',
  Forall (fun sp : Z * Z => 0 <= sp.1) species ->
  fill_row f row species = Ok row' ->
  length row' = length row /\ (Forall Q row -> Forall Q row').
Proof.
  unfold fill_row.
  induction species as [|sp species IH]; intros row row' Hsp H; simpl in H.
  - by inversion H; subst.
  - apply bind_Ok in H as (row1 & Hset & H).
    apply Forall_cons in Hsp as [Hc Hsp].
    destruct (np_set_inv Q _ _ _ _ Hset) as [Hl1 HQ1].
    destruct (IH row1 row' Hsp H) as [Hl HQ].
    split; [congruence|]. auto.
Qed.

Lemma fill_inv M N (E : list (list (Z * Z))) stoch stoch' :
  Forall (Forall (fun sp : Z * Z => 0 <= sp.1)) E ->
  mat_shape M N stoch -> Forall (Forall Q) stoch ->
  fill f stoch E = Ok stoch' ->
  mat_shape M N stoch' /\ Forall (Forall Q) stoch'.
Proof.
  intros HE Hshape HQ Hfill. unfold fill in Hfill.
  apply (foldM_inv (fun m => mat_shape M N m /\ Forall (Forall Q) m))
    in Hfill; [assumption| |auto].
  intros m r m' _ [[Hlen Hrows] HQm] Hstep.
  apply bind_Ok in Hstep as (species & Hspecies & Hstep).
  apply bind_Ok in Hstep as (row & Hrow & Hstep).
  apply bind_Ok in Hstep as (row' & Hfillrow & Hstep).
  apply index_Ok in Hspecies, Hrow.
  apply set_item_Ok in Hstep as [_ ->].
  destruct (fill_row_inv species row row') as [Hl HQrow]; [|assumption|].
  { eapply (proj1 (Forall_lookup _ _) HE); eauto. }
  split; [split|].
  - by rewrite length_insert.
  - apply Forall_insert; [assumption|].
    rewrite Hl. eapply (proj1 (Forall_lookup _ _) Hrows); eauto.
  - apply Forall_insert; [assumption|].
    apply HQrow. eapply (proj1 (Forall_lookup _ _) HQm); eauto.
Qed.
End Fill.

(** X15: whatever string it is given, the parser returns two arrays of
    one shape, with one row per comma-separated reaction, no positive
    entry in the substrate array and no negative one in the product array;
    their sum, the first step of a run, is defined. *)
Theorem parsed_network_valid (reactions : string) sub_stoch prod_stoch :
  reactions_stoch reactions = Ok (sub_stoch, prod_stoch) ->
  exists N stoch,
    valid_network
      (S (count_occ ascii_dec (list_ascii_of_string reactions) ","%char)) N
      sub_stoch prod_stoch /\
    mat_add sub_stoch prod_stoch = Ok stoch.
Proof.
  unfold reactions_stoch. intros H.
  rewrite <- (split_single_length "," ","%char _ eq_refl).
  set (M := length (split "," (list_ascii_of_string reactions))) in *.
  apply bind_Ok in H as ([subs prods] & _ & H).
  apply bind_Ok in H as ([E1 t1] & HE1 & H).
  apply bind_Ok in H as ([E2 t2] & HE2 & H).
  apply bind_Ok in H as (sub & Hsub & H).
  apply bind_Ok in H as (prod & Hprod & H).
  inversion H; subst sub prod.
  apply parse_sides_nonneg in HE1, HE2; [|constructor..].
  set (N := Z.to_nat t2) in *.
  assert (Hzeros : mat_shape M N (replicate M (replicate N 0))).
  { split; [apply length_replicate|].
    apply Forall_replicate, length_replicate. }
  assert (Hz : forall Q : Z -> Prop, Q 0 ->
            Forall (Forall Q) (replicate M (replicate N 0))).
  { intros Q HQ. by apply Forall_replicate, Forall_replicate. }
  assert (Hopp : forall c, 0 <= c -> - c <= 0) by (intros; lia).
  assert (Hid : forall c, 0 <= c -> 0 <= id c) by (intros; unfold id; lia).
  destruct (fill_inv Z.opp (fun v => v <= 0) Hopp M N _ _ _
              HE1 Hzeros (Hz (fun v => v <= 0) (Z.le_refl 0)) Hsub)
    as [Hs1 Hs2].
  destruct (fill_inv id (fun v => 0 <= v) Hid M N
              _ _ _ HE2 Hzeros (Hz (fun v => 0 <= v) (Z.le_refl 0)) Hprod)
    as [Hp1 Hp2].
  destruct (mat_add_shapes M N _ _ Hs1 Hp1) as [stoch Hstoch].
  exists N, stoch. split; [|assumption].
  split; [|auto].
  destruct (split_nonempty "," (list_ascii_of_string reactions))
    as (tok & rest & Hsplit).
  unfold M. rewrite Hsplit. simpl. lia.
Qed.

Lemma parsed_network_valid_witness :
  exists N stoch,
    valid_network
      (S (count_occ ascii_dec (list_ascii_of_string module_network) ","%char))
      N module_sub module_prod /\
    mat_add module_sub module_prod = Ok stoch.
Proof.
  apply (parsed_network_valid module_network module_sub module_prod).
  exact module_network_parsed.
Defined.

(** ** Empty sides and repeated species *)

Lemma char_not_in_side0 c (s : list term) :
  Forall wf_term s -> is_digit c = false -> c <> "X"%char -> c <> "+"%char ->
  c ∉ render_side0 s.
Proof.
  intros Hs Hd HX Hplus. destruct s as [|t s].
  - simpl. intros Hin. apply elem_of_cons in Hin as [->|Hin]; [discriminate|].
    by apply not_elem_of_nil in Hin.
  - by apply char_not_in_side.
Qed.

Lemma split_side0 (s : list term) :
  Forall wf_term s ->
  split "+" (render_side0 s)
  = match s with [] => [["0"%char]] | _ => render_term <$> s end.
Proof.
  intros Hwf. destruct s as [|t s]; [reflexivity|].
  unfold render_side0, render_side.
  apply (split_join "+" "+"%char []); [reflexivity|discriminate|].
  apply Forall_fmap. eapply Forall_impl; [exact Hwf|].
  intros t' Ht. simpl. apply char_not_in_term; auto; discriminate.
Qed.

Lemma parse_sides_render0 (sides : list (list term)) :
  Forall (Forall wf_term) sides ->
  forall acc total,
    parse_sides (split "+" <$> (render_side0 <$> sides)) acc total
    = Ok (acc ++ (entries_of <$> filter (fun s => (1 <= length s)%nat) sides),
          max_species sides total).
Proof.
  induction 1 as [|s sides Hs Hsides IH]; intros acc total.
  - simpl. by rewrite app_nil_r.
  - rewrite !fmap_cons. cbn [parse_sides]. rewrite (split_side0 s Hs).
    destruct s as [|t s].
    + rewrite filter_cons_False by (simpl; lia).
      change (parse_side [["0"%char]] [] total) with (Ok ([] : list (Z * Z), total)).
      simpl mbind. apply IH.
    + rewrite filter_cons_True by (simpl; lia).
      rewrite (parse_side_render (t :: s) Hs). simpl mbind.
      assert (Hlen : (1 <= length (entries_of (t :: s)))%nat).
      { unfold entries_of. rewrite length_fmap. simpl. lia. }
      cbn [app].
      destruct (decide (1 <= length (entries_of (t :: s)))%nat); [|lia].
      rewrite IH. rewrite fmap_cons, <- List.app_assoc. reflexivity.
Qed.

Lemma split_reaction0 (r : list term * list term) :
  Forall wf_term r.1 -> Forall wf_term r.2 ->
  split "->" (render_reaction0 r) = [render_side0 r.1; render_side0 r.2].
Proof.
  intros H1 H2. unfold render_reaction0.
  change (render_side0 r.1 ++ "-"%char :: ">"%char :: render_side0 r.2)
    with (render_side0 r.1 ++ ["-"%char; ">"%char] ++ render_side0 r.2).
  rewrite (split_token "->" "-"%char [">"%char] _ _ eq_refl)
    by (apply char_not_in_side0; auto; discriminate).
  rewrite (split_last "->" "-"%char [">"%char] _ eq_refl)
    by (apply char_not_in_side0; auto; discriminate).
  reflexivity.
Qed.

Lemma split_arrows_render0 (net : list (list term * list term)) :
  Forall (fun r => Forall wf_term r.1 /\ Forall wf_term r.2) net ->
  forall subs prods,
    split_arrows (render_reaction0 <$> net) subs prods
    = Ok (subs ++ (render_side0 <$> (fst <$> net)),
          prods ++ (render_side0 <$> (snd <$> net))).
Proof.
  induction 1 as [|r net [H1 H2] Hnet IH]; intros subs prods; simpl.
  - by rewrite !app_nil_r.
  - rewrite (split_reaction0 r H1 H2). simpl mbind.
    rewrite IH. by rewrite <- !List.app_assoc.
Qed.

Lemma split_network0 (net : list (list term * list term)) :
  wf_network0 net ->
  split "," (join [","%char] (render_reaction0 <$> net))
  = render_reaction0 <$> net.
Proof.
  intros [Hne Hwf].
  apply (split_join "," ","%char []); [reflexivity| |].
  - destruct net; [congruence|discriminate].
  - apply Forall_fmap. eapply Forall_impl; [exact Hwf|].
    intros r [H1 H2]. simpl. unfold render_reaction0.
    rewrite elem_of_app, !elem_of_cons.
    intros [Hin|[Heq|[Heq|Hin]]]; try discriminate.
    + by apply (char_not_in_side0 ","%char r.1).
    + by apply (char_not_in_side0 ","%char r.2).
Qed.

Section WrittenRow.
Variables (f : Z -> Z) (N : nat).
Hypothesis f_zero : f 0 = 0.
Hypothesis f_range : forall c, 0 < c <= int64_max -> int64_min <= f c <= int64_max.

Lemma written_row_nil : written_row f N [] = replicate N 0.
Proof.
  unfold written_row. apply list_eq. intros i.
  rewrite list_lookup_fmap. destruct (decide (i < N)%nat) as [Hi|Hi].
  - rewrite lookup_seq_lt by assumption. rewrite lookup_replicate_2 by assumption.
    unfold last_count. simpl. by rewrite f_zero.
  - rewrite lookup_seq_ge by lia. symmetry. apply lookup_replicate_None. lia.
Qed.

Lemma last_count_snoc (p : list term) (t : term) k :
  last_count (p ++ [t]) k
  = if decide (term_species t = k) then term_coef t else last_count p k.
Proof. unfold last_count. by rewrite foldl_app. Qed.

(** A later term for the same species overwrites the entry. *)
Lemma written_row_snoc (p : list term) (t : term) :
  0 < term_species t <= Z.of_nat N ->
  <[Z.to_nat (term_species t - 1) := f (term_coef t)]> (written_row f N p)
  = written_row f N (p ++ [t]).
Proof.
  intros Hk. unfold written_row. apply list_eq. intros i.
  rewrite list_lookup_fmap.
  destruct (decide (i < N)%nat) as [Hi|Hi].
  - rewrite lookup_seq_lt by assumption.
    cbn [fmap option_fmap option_map Nat.add].
    rewrite last_count_snoc.
    destruct (decide (i = Z.to_nat (term_species t - 1))) as [->|Hne].
    + rewrite list_lookup_insert_eq by (rewrite length_fmap, length_seq; lia).
      rewrite decide_True by lia. reflexivity.
    + rewrite list_lookup_insert_ne by congruence.
      rewrite list_lookup_fmap, lookup_seq_lt by assumption.
      cbn [fmap option_fmap option_map Nat.add].
      rewrite decide_False by lia. reflexivity.
  - rewrite lookup_seq_ge by lia. simpl.
    apply lookup_ge_None_2. rewrite length_insert, length_fmap, length_seq. lia.
Qed.

Lemma fill_row_written_from (q : list term) : forall p,
  Forall wf_term q ->
  Forall (fun t => term_species t <= Z.of_nat N) q ->
  fill_row f (written_row f N p) (entries_of q)
  = Ok (written_row f N (p ++ q)).
Proof.
  unfold fill_row.
  induction q as [|t q IH]; intros p Hwf Hle; simpl.
  - by rewrite app_nil_r.
  - inversion Hwf as [|? ? Ht Hwf']; inversion Hle as [|? ? Hlt Hle']; subst.
    destruct Ht as (_ & _ & Hcoef & _ & _ & _ & Hpos).
    rewrite np_set_in_range.
    + simpl mbind. rewrite written_row_snoc by lia.
      rewrite IH by assumption. by rewrite <- List.app_assoc.
    + unfold written_row. rewrite length_fmap, length_seq. lia.
    + apply f_range. assumption.
Qed.

Lemma fill_row_written (s : list term) :
  Forall wf_term s ->
  Forall (fun t => term_species t <= Z.of_nat N) s ->
  fill_row f (replicate N 0) (entries_of s) = Ok (written_row f N s).
Proof.
  intros Hwf Hle. rewrite <- written_row_nil.
  by rewrite (fill_row_written_from s [] Hwf Hle).
Qed.

(** The loop runs over the parsed sides, not over the reactions: rows
    from [length E] on are left as they are. *)
Lemma fill_from_top (E : list (list (Z * Z))) (R : matrix) n :
  forall i0 stoch,
  (i0 + n = length E)%nat -> (length E <= length stoch)%nat ->
  (forall i, (i0 <= i < length E)%nat -> stoch !! i = Some (replicate N 0)) ->
  Forall2 (fun e r => fill_row f (replicate N 0) e = Ok r) E R ->
  foldM (fun stoch reaction =>
           species ← index E reaction;
           row ← index stoch reaction;
           row ← fill_row f row species;
           set_item stoch reaction row)
    stoch (seq i0 n)
  = Ok (take i0 stoch ++ drop i0 R ++ drop (length E) stoch).
Proof.
  induction n as [|n IH]; intros i0 stoch Hn Hlen Hzero HER.
  - simpl. pose proof (Forall2_length _ _ _ HER) as HlR.
    rewrite (drop_ge R) by lia. cbn [app].
    replace i0 with (length E) by lia. by rewrite take_drop.
  - pose proof (Forall2_length _ _ _ HER) as HlR.
    destruct (lookup_lt_is_Some_2 E i0 ltac:(lia)) as [e He].
    destruct (lookup_lt_is_Some_2 R i0 ltac:(lia)) as [r Hr].
    pose proof (Forall2_lookup_lr _ _ _ _ _ _ HER He Hr) as Hfill.
    cbn [seq foldM]. rewrite (index_Some _ _ _ He). simpl mbind.
    rewrite (index_Some _ _ _ (Hzero i0 ltac:(lia))). simpl mbind.
    rewrite Hfill. simpl mbind.
    rewrite set_item_lt by lia. simpl mbind.
    rewrite IH; try assumption.
    + f_equal. rewrite (drop_S R r i0 Hr).
      rewrite (take_S_r (<[i0 := r]> stoch) i0 r)
        by (apply list_lookup_insert_eq; lia).
      rewrite take_insert_ge by lia.
      rewrite drop_insert_lt by lia.
      by rewrite <- List.app_assoc.
    + lia.
    + by rewrite length_insert.
    + intros i Hi. rewrite list_lookup_insert_ne by lia. apply Hzero. lia.
Qed.

Lemma fill_packed (M : nat) (sides : list (list term)) :
  length sides = M ->
  Forall (Forall wf_term) sides ->
  Forall (Forall (fun t => term_species t <= Z.of_nat N)) sides ->
  fill f (replicate M (replicate N 0))
    (entries_of <$> filter (fun s => (1 <= length s)%nat) sides)
  = Ok (packed_rows f M N sides).
Proof.
  intros HM Hwf Hle. unfold fill, packed_rows. cbv zeta.
  set (kept := filter (fun s => (1 <= length s)%nat) sides).
  assert (Hkept : (length kept <= M)%nat).
  { subst M. unfold kept. apply length_filter. }
  rewrite !length_fmap.
  rewrite (fill_from_top (entries_of <$> kept) (written_row f N <$> kept)
             (length kept) 0).
  - rewrite take_0, drop_0, length_fmap, drop_replicate. reflexivity.
  - by rewrite length_fmap.
  - by rewrite length_replicate, length_fmap.
  - intros i Hi. rewrite length_fmap in Hi. apply lookup_replicate_2. lia.
  - apply Forall2_fmap, Forall_Forall2_diag.
    apply Forall_forall. intros s Hs.
    apply list_elem_of_filter in Hs as [_ Hs].
    rewrite Forall_forall in Hwf, Hle.
    apply fill_row_written; auto.
Qed.
End WrittenRow.

(** X16: on a reaction string of the grammar whose sides may be [0] and
    may name a species twice, the parser fills the rows in the order of the
    sides that have a term: a side written [0] gets no row of its own, the
    sides after it move up by one row and the rows left over at the bottom
    stay zero; of several terms for one species the last one is stored. *)
Theorem reactions_stoch_packed (net : list (list term * list term)) :
  wf_network0 net ->
  let M := length net in
  let N := number_of_species net in
  reactions_stoch (render_network0 net)
  = Ok (packed_rows Z.opp M N (fst <$> net), packed_rows id M N (snd <$> net)).
Proof.
  intros Hnet. pose proof Hnet as [Hne Hwf]. cbv zeta.
  unfold reactions_stoch, render_network0.
  rewrite list_ascii_of_string_of_list_ascii.
  rewrite (split_network0 net Hnet).
  rewrite (split_arrows_render0 net Hwf). simpl mbind. cbn [app].
  assert (Hfst : Forall (Forall wf_term) (fst <$> net)).
  { apply Forall_fmap. eapply Forall_impl; [exact Hwf|]. by intros r [? _]. }
  assert (Hsnd : Forall (Forall wf_term) (snd <$> net)).
  { apply Forall_fmap. eapply Forall_impl; [exact Hwf|]. by intros r [_ ?]. }
  rewrite (parse_sides_render0 _ Hfst). simpl mbind. cbn [app].
  rewrite (parse_sides_render0 _ Hsnd). simpl mbind. cbn [app].
  fold (number_of_species net).
  destruct (max_species_ge (fst <$> net) 0) as [_ Hle1].
  destruct (max_species_ge (snd <$> net) (max_species (fst <$> net) 0))
    as [Hmono Hle2].
  assert (HN : Z.of_nat (number_of_species net)
               = max_species (snd <$> net) (max_species (fst <$> net) 0)).
  { unfold number_of_species. rewrite Z2Nat.id; [reflexivity|].
    destruct (max_species_ge (fst <$> net) 0). lia. }
  rewrite length_fmap.
  rewrite (fill_packed Z.opp (number_of_species net) eq_refl int64_opp_range
             (length net) (fst <$> net)).
  - simpl mbind.
    rewrite (fill_packed id (number_of_species net) eq_refl int64_id_range
               (length net) (snd <$> net)); [reflexivity| |assumption|].
    + by rewrite length_fmap.
    + rewrite HN. assumption.
  - by rewrite length_fmap.
  - assumption.
  - rewrite HN. eapply Forall_impl; [exact Hle1|]. intros s Hs.
    eapply Forall_impl; [exact Hs|]. intros t Ht. simpl in Ht. lia.
Qed.

Lemma wf_docstring_net : wf_network0 docstring_net.
Proof.
  split; [discriminate|].
  repeat (apply Forall_cons; split;
          [split; repeat (constructor; [wf_term_tac|]); constructor|]).
  constructor.
Qed.

Lemma reactions_stoch_packed_witness :
  reactions_stoch "2X1+X2->X3,X1->0,X3+4X2->12X1"
  = Ok ([[-2; -1; 0]; [-1; 0; 0]; [0; -4; -1]],
        [[0; 0; 1]; [12; 0; 0]; [0; 0; 0]]).
Proof.
  exact (reactions_stoch_packed docstring_net wf_docstring_net).
Defined.

(** ** How a call can end *)

Lemma run_error_index {A} (l : list A) i : raises_only run_error (index l i).
Proof.
  unfold index. intros e He. destruct (l !! i); inversion He. by left.
Qed.

Lemma run_error_set_item {A} (l : list A) i v :
  raises_only run_error (set_item l i v).
Proof.
  unfold set_item. intros e He. case_decide; inversion He. by left.
Qed.

Lemma run_error_calculate_hi n m : raises_only run_error (calculate_hi n m).
Proof.
  intros e He. rewrite calculate_hi_cases in He.
  case_decide; inversion He. by left.
Qed.

Lemma run_error_propensities sub x rates M N :
  raises_only run_error (propensities sub x rates M N).
Proof.
  unfold propensities. apply raises_only_foldM. intros a i.
  unfold propensity_step.
  apply raises_only_bind.
  - unfold reaction_hi. apply raises_only_foldM. intros hi j.
    unfold hi_step, index2.
    apply raises_only_bind.
    { apply raises_only_bind; [apply run_error_index|].
      intros row _. apply run_error_index. }
    intros s _. case_decide; [apply raises_only_Ok|].
    apply raises_only_bind; [apply run_error_index|]. intros xj _.
    case_decide; [apply raises_only_Ok|].
    apply raises_only_bind; [apply run_error_calculate_hi|].
    intros h0 _. apply raises_only_Ok.
  - intros hi _. apply raises_only_bind; [apply run_error_index|].
    intros c _. apply run_error_set_item.
Qed.

Lemma run_error_select_reaction fuel : forall a mu N,
  (length a <= mu + fuel)%nat ->
  raises_only run_error (select_reaction fuel a mu N).
Proof.
  induction fuel as [|fuel IH]; intros a mu N Hfuel; simpl.
  - destruct (Qlt_bool 0 N); [|apply raises_only_Ok]. intros e He. discriminate.
  - destruct (Qlt_bool 0 N); [|apply raises_only_Ok].
    apply raises_only_bind; [apply run_error_index|].
    intros x _. apply IH. lia.
Qed.

Lemma run_error_next_values ln a0 a r1 r2 :
  raises_only run_error (next_values ln a0 a r1 r2).
Proof.
  unfold next_values.
  apply raises_only_bind; [apply run_error_index|]. intros x _.
  apply raises_only_bind; [apply run_error_select_reaction; lia|].
  intros mu _. apply raises_only_Ok.
Qed.

Lemma run_error_loop_body ln init rates sub_stoch stoch r1 r2 st :
  raises_only run_error (loop_body ln init rates sub_stoch stoch r1 r2 st).
Proof.
  unfold loop_body.
  apply raises_only_bind; [apply run_error_propensities|]. intros a _.
  apply raises_only_bind; [apply run_error_index|]. intros u1 _.
  apply raises_only_bind; [apply run_error_index|]. intros u2 _.
  apply raises_only_bind.
  { case_decide; [|apply run_error_next_values].
    intros e He. inversion He. right. by right. }
  intros [dt mu] _.
  apply raises_only_bind; [apply run_error_index|]. intros row _.
  apply raises_only_bind.
  { unfold iadd. intros e He. repeat case_match; inversion He; right; by left. }
  intros x' _.
  apply raises_only_bind; [apply run_error_set_item|]. intros st_time _.
  apply raises_only_bind.
  { unfold assign_row. intros e He.
    repeat case_match; inversion He; right; by left. }
  intros snap _.
  apply raises_only_bind; [apply run_error_set_item|]. intros st_mol _.
  apply raises_only_Ok.
Qed.

Lemma run_error_loop ln init rates sub_stoch stoch tmax n_max r1 r2 fuel :
  forall st, (n_max <= fuel + n_counter st + 1)%nat ->
  raises_only run_error
    (gillespie_loop ln init rates sub_stoch stoch tmax n_max r1 r2 fuel st).
Proof.
  induction fuel as [|fuel IH]; intros st Hfuel; simpl;
    destruct (loop_cond tmax n_max st) eqn:Hc; try apply raises_only_Ok.
  - intros e He. discriminate.
  - apply raises_only_bind; [apply run_error_loop_body|].
    intros st' Hst'. apply IH.
    apply loop_body_inv in Hst'
      as (? & ? & ? & ? & ? & ? & ? & ? & _ & _ & _ & _ & _ & _ & _ & _ & _ & _ & ->).
    simpl. lia.
Qed.


(** ** The rows of a run, step by step *)

Lemma iadd_length x row x' : iadd x row = Ok x' -> length x' = length x.
Proof.
  unfold iadd. case_decide as Hlen.
  - inversion 1. rewrite length_zip_with. lia.
  - destruct row as [|v [|w row]]; inversion 1. by rewrite length_fmap.
Qed.

Section Steps.
Variable ln : Q -> Q.
Variables (init : nat) (rates : list Q) (sub_stoch stoch : matrix).
Variables (n_max : nat) (draws1 draws2 : nat -> Q).

Lemma steps_inv_step st st' :
  steps_inv ln init rates sub_stoch stoch n_max draws1 draws2 st ->
  loop_body ln init rates sub_stoch stoch
    (random_sample draws1 n_max) (random_sample draws2 n_max) st = Ok st' ->
  steps_inv ln init rates sub_stoch stoch n_max draws1 draws2 st'.
Proof.
  intros (Hlt & Hlm & Hn & Hlx & Hcur & Hrow & Hsteps) Hbody.
  apply loop_body_inv in Hbody
    as (a & u1 & u2 & dt & mu & row & x' & snap & Hprop & Hr1 & Hr2 & HM
        & Hnext & Hmu & Hadd & Hassign & Hlt1 & Hlt2 & ->).
  apply random_sample_lookup in Hr1 as [_ ->].
  apply random_sample_lookup in Hr2 as [_ ->].
  pose proof (iadd_length _ _ _ Hadd) as Hlx'.
  rewrite assign_row_same_length in Hassign by lia.
  inversion Hassign; subst snap.
  unfold steps_inv; simpl. rewrite !length_insert, lookup_total_insert_eq.
  split; [assumption|]. split; [assumption|]. split; [lia|].
  split; [lia|]. split; [apply list_lookup_insert_eq; lia|].
  split; [apply list_lookup_insert_eq; lia|].
  intros i t x t' x1 Hi Ht Hx Ht' Hx1.
  rewrite list_lookup_insert_ne in Ht by lia.
  rewrite list_lookup_insert_ne in Hx by lia.
  destruct (decide (i = n_counter st)) as [->|Hne].
  - rewrite list_lookup_insert_eq in Ht' by lia.
    rewrite list_lookup_insert_eq in Hx1 by lia.
    rewrite Hcur in Ht. rewrite Hrow in Hx.
    inversion Ht; inversion Hx; inversion Ht'; inversion Hx1; subst.
    exists a, dt, mu, row. auto.
  - rewrite list_lookup_insert_ne in Ht' by lia.
    rewrite list_lookup_insert_ne in Hx1 by lia.
    apply (Hsteps i); auto. lia.
Qed.
End Steps.

(** X18: in a returned run whose initial state has one entry per species,
    every returned row follows from the row before it by one step of the
    direct method with the draws of its index: the propensities of the
    earlier state and [r1[i]], [r2[i]] give the time difference and the
    reaction whose stoichiometry is added.  The state left in [init]
    follows in the same way from the last returned row. *)
Theorem rows_follow_scheduler ln s_i init rates sub_stoch prod_stoch tmax
    n_max draws1 draws2 (h : gmap nat (list Z)) times snaps h' stoch :
  mat_add sub_stoch prod_stoch = Ok stoch ->
  length (h !!! init) = ncols stoch ->
  gillespie_algo ln s_i init rates sub_stoch prod_stoch tmax n_max
    draws1 draws2 h = Ok (times, snaps, h') ->
  (forall i t x t' x',
     times !! i = Some t -> snaps !! i = Some x ->
     times !! S i = Some t' -> snaps !! S i = Some x' ->
     scheduler_step ln rates sub_stoch stoch (draws1 i) (draws2 i) t x t' x') /\
  exists k t x t',
    length times = S k /\ times !! k = Some t /\ snaps !! k = Some x /\
    scheduler_step ln rates sub_stoch stoch (draws1 k) (draws2 k)
      t x t' (h' !!! init).
Proof.
  intros Hstoch Hlen Halgo.
  apply gillespie_algo_inv in Halgo as (st & Hrun & Hk & -> & -> & ->).
  unfold gillespie_run in Hrun. rewrite Hstoch in Hrun. simpl mbind in Hrun.
  apply bind_Ok in Hrun as (st_time & Htime & Hrun).
  apply bind_Ok in Hrun as (snap & Hsnap & Hrun).
  apply bind_Ok in Hrun as (st_mol & Hmol & Hrun).
  apply set_item_Ok in Htime as [Hlt0 ->]. rewrite length_replicate in Hlt0.
  apply set_item_Ok in Hmol as [_ ->].
  rewrite assign_row_same_length in Hsnap by assumption.
  inversion Hsnap; subst snap.
  apply (gillespie_loop_ind ln init rates sub_stoch stoch tmax n_max _ _
           (steps_inv ln init rates sub_stoch stoch n_max draws1 draws2))
    in Hrun as [(Hlt & Hlm & Hn & Hlx & Hcur & Hrow & Hsteps) _].
  - split.
    + intros i t x t' x' Ht Hx Ht' Hx'.
      apply lookup_take_Some in Ht as [Ht _].
      apply lookup_take_Some in Hx as [Hx _].
      apply lookup_take_Some in Ht' as [Ht' Hi].
      apply lookup_take_Some in Hx' as [Hx' _].
      apply (Hsteps i); auto. lia.
    + destruct (n_counter st) as [|k] eqn:Ek; [congruence|].
      destruct (lookup_lt_is_Some_2 (store_time st) k) as [t Ht]; [lia|].
      destruct (lookup_lt_is_Some_2 (store_number_molecules st) k) as [x Hx];
        [lia|].
      exists k, t, x, (current_time st).
      rewrite length_take, !lookup_take_lt by lia.
      split; [lia|]. split; [assumption|]. split; [assumption|].
      apply (Hsteps k); auto.
  - intros s s' Hs _. by apply steps_inv_step.
  - unfold steps_inv; simpl. rewrite !length_insert, !length_replicate.
    split; [reflexivity|]. split; [reflexivity|]. split; [lia|].
    split; [assumption|].
    split; [apply list_lookup_insert_eq; by rewrite length_replicate|].
    split; [apply list_lookup_insert_eq; by rewrite length_replicate|].
    intros i t x t' x' Hi. lia.
Qed.

Lemma rows_follow_scheduler_witness :
  (forall i t x t' x',
     [Fin 0; Fin (1 # 6)] !! i = Some t -> [[3; 0]; [2; 1]] !! i = Some x ->
     [Fin 0; Fin (1 # 6)] !! S i = Some t' ->
     [[3; 0]; [2; 1]] !! S i = Some x' ->
     scheduler_step ln_lower [1%Q] sample_sub [[-1; 1]]
       (half_draws i) (half_draws i) t x t' x') /\
  exists k t x t',
    length [Fin 0; Fin (1 # 6)] = S k /\
    [Fin 0; Fin (1 # 6)] !! k = Some t /\ [[3; 0]; [2; 1]] !! k = Some x /\
    scheduler_step ln_lower [1%Q] sample_sub [[-1; 1]]
      (half_draws k) (half_draws k) t x t' (sample_store [1; 2] !!! 0%nat).
Proof.
  apply (rows_follow_scheduler ln_lower [1] 0%nat [1%Q] sample_sub sample_prod
           10 3 half_draws half_draws (sample_store [3; 0])
           [Fin 0; Fin (1 # 6)] [[3; 0]; [2; 1]] (sample_store [1; 2])
           [[-1; 1]]);
    [ reflexivity | reflexivity | by vm_compute ].
Defined.
